(** * CTA train-position ingestion: snapping, feed parsing, snapshot store, polling

    A shallow embedding of [src/extract_data.py].

    Numbers.  A Python float is a rational number, an infinity or NaN:
    finite floats are read as the numbers they denote, without rounding,
    and compared as IEEE compares them.  An int is an integer; where a C
    type bounds it (the double in [float], the 64 bits of SQLite, the wait
    of [time.sleep]) the bound is written out.

    Text.  A str is a [string] of UTF-8 bytes; a str that UTF-8 cannot
    encode, because it holds a lone surrogate, is kept apart.  Standard
    output encodes in UTF-8.

    Interfaces.  What the module calls and this file does not define
    (shapely, the reading of numbers from text, SQLite's rendering of a
    real as text, the clock, the network, the platform's sleep) is given as
    type classes, with one executable instance at the end of the
    definitions.

    Store.  The database is a map from table names to rows in insertion
    order.  Every table has the columns of [SCHEMA_SQL]; it carries the
    unique index on [(ts_utc, rn)] exactly when its rows allow one, as
    every table made by [ensure_db] does.

    Left out: exhausted resources (memory, recursion depth, the limit on
    the digits of an integer literal in [json], a locked or full database,
    a closed standard output), and interrupts other than between two
    polling cycles. *)

From Stdlib Require Import QArith Qabs ZArith Lqa Lia Ascii String.
From stdpp Require Import base option list strings gmap pretty.

Local Open Scope string_scope.
Local Open Scope list_scope.

(** ** Python values and exceptions *)

(** The exceptions the module can meet.  [UnicodeEncodeError] is a
    [ValueError]: an [except ValueError] catches it.  [SqliteError] stands
    for [sqlite3.Error] and its subclasses, [GEOSException] for what a
    shapely operation raises. *)
Inductive exn : Set :=
| ValueError
| TypeError
| AttributeError
| OverflowError
| UnicodeEncodeError
| OSError
| RequestException
| SqliteError
| GEOSException.

Inductive result (A : Type) : Type :=
| Ok (a : A)
| Raise (e : exn).
Arguments Ok {A} a.
Arguments Raise {A} e.

#[export] Instance result_ret : MRet result := fun _ a => Ok a.
#[export] Instance result_bind : MBind result := fun _ _ f r =>
  match r with
  | Ok a => f a
  | Raise e => Raise e
  end.

Definition is_Ok {A} (r : result A) : bool :=
  match r with Ok _ => true | Raise _ => false end.

(** A Python float. *)
Inductive float : Set :=
| Finite (q : Q)
| PosInf
| NegInf
| NaN.

(** [a < b]: false as soon as one side is NaN. *)
Definition float_ltb (a b : float) : bool :=
  match a, b with
  | NaN, _ | _, NaN => false
  | _, NegInf => false
  | NegInf, _ => true
  | PosInf, _ => false
  | Finite _, PosInf => true
  | Finite p, Finite q => negb (Qle_bool q p)
  end.

(** [a <= b]. *)
Definition float_leb (a b : float) : bool :=
  match a, b with
  | NaN, _ | _, NaN => false
  | NegInf, _ => true
  | _, NegInf => false
  | _, PosInf => true
  | PosInf, _ => false
  | Finite p, Finite q => Qle_bool p q
  end.

Definition float_lt (a b : float) : Prop := float_ltb a b = true.

Definition float_le (a b : float) : Prop := float_leb a b = true.

(** [bool(x)]: only zero is false; NaN and the infinities are true. *)
Definition nonzero (f : float) : bool :=
  match f with
  | Finite q => negb (Qeq_bool q 0)
  | _ => true
  end.

(** What [json.loads] produces: None, bool, int, float, str, list, dict.
    A str that UTF-8 cannot encode, because it holds a lone surrogate (the
    JSON text ["\ud800"] decodes to one), is a [JLone], with its text as
    the [surrogatepass] error handler encodes it; a [JStr] is text that can
    be encoded. *)
#[warnings="-register-all"]
Inductive json : Type :=
| JNull
| JBool (b : bool)
| JInt (n : Z)
| JFloat (f : float)
| JStr (s : string)
| JLone (s : string)
| JArr (items : list json)
| JObj (fields : list (string * json)).

(** [bool(v)]. *)
Definition truthy (v : json) : bool :=
  match v with
  | JNull => false
  | JBool b => b
  | JInt n => negb (n =? 0)%Z
  | JFloat f => nonzero f
  | JStr s | JLone s => negb (String.eqb s "")
  | JArr items => match items with [] => false | _ => true end
  | JObj fields => match fields with [] => false | _ => true end
  end.

Fixpoint assoc (key : string) (fields : list (string * json)) : option json :=
  match fields with
  | [] => None
  | (k, v) :: rest => if String.eqb k key then Some v else assoc key rest
  end.

(** [v.get(key, dflt)]: only a dict has [get]. *)
Definition py_get (v : json) (key : string) (dflt : json) : result json :=
  match v with
  | JObj fields => Ok (default dflt (assoc key fields))
  | _ => Raise AttributeError
  end.

Fixpoint chars (s : string) : list json :=
  match s with
  | EmptyString => []
  | String c rest => JStr (String c EmptyString) :: chars rest
  end.

(** The items a [for] loop over [v] visits: the elements of a list, the keys
    of a dict, the characters of a str; anything else is not iterable.  The
    characters are given byte by byte: the loops of the module ask them for
    [get], which none of them has. *)
Definition py_iter (v : json) : result (list json) :=
  match v with
  | JArr items => Ok items
  | JObj fields => Ok (map (fun kv => JStr (fst kv)) fields)
  | JStr s | JLone s => Ok (chars s)
  | _ => Raise TypeError
  end.

(** The two builtins that read a number out of a string; [None] stands for
    the ValueError they raise.  [float] reads ["nan"] and ["inf"], and reads
    a number beyond the range of a float as an infinity. *)
Class Python := {
  str_to_float : string -> option float;
  str_to_int : string -> option Z;
}.

(** The first integer [float] cannot convert: [2**1024 - 2**970] rounds to
    [2**1024], beyond the largest float. *)
Definition FLOAT_OVERFLOW : Z := 2 ^ 1024 - 2 ^ 970.

Section Builtins.
Context `{Python}.

(** [float(v)]. *)
Definition py_float (v : json) : result float :=
  match v with
  | JStr s => match str_to_float s with Some f => Ok f | None => Raise ValueError end
  | JLone _ => Raise ValueError
  | JInt n => if (Z.abs n <? FLOAT_OVERFLOW)%Z then Ok (Finite (inject_Z n))
              else Raise OverflowError
  | JFloat f => Ok f
  | JBool b => Ok (Finite (if b then 1 else 0))
  | JNull | JArr _ | JObj _ => Raise TypeError
  end.

(** [int(v)]: a float is truncated towards zero; NaN and the infinities
    have no integer. *)
Definition py_int (v : json) : result Z :=
  match v with
  | JStr s => match str_to_int s with Some n => Ok n | None => Raise ValueError end
  | JLone _ => Raise ValueError
  | JInt n => Ok n
  | JFloat (Finite q) => Ok (Z.quot (Qnum q) (Zpos (Qden q)))
  | JFloat NaN => Raise ValueError
  | JFloat _ => Raise OverflowError
  | JBool b => Ok (if b then 1 else 0)%Z
  | JNull | JArr _ | JObj _ => Raise TypeError
  end.
End Builtins.

(** [s.lower()].  The module compares lower-cased text with ASCII text
    only (the keys of [route_geometries], the word [json]).  For that, the
    ASCII letters and the Kelvin sign U+212A, whose lower case is the
    letter k, are mapped as Python maps them, and every other character is
    left as it is: its lower case has no ASCII letter, or, for U+0130, an i
    with a combining dot, which no ASCII text has. *)
Definition lower_ascii (c : ascii) : ascii :=
  let n := nat_of_ascii c in
  if (65 <=? n)%nat && (n <=? 90)%nat then ascii_of_nat (n + 32) else c.

(** The three bytes of U+212A in UTF-8. *)
Definition is_kelvin (a b c : ascii) : bool :=
  Nat.eqb (nat_of_ascii a) 226 && Nat.eqb (nat_of_ascii b) 132 &&
  Nat.eqb (nat_of_ascii c) 170.

Fixpoint lower (s : string) : string :=
  match s with
  | EmptyString => EmptyString
  | String c rest =>
      match rest with
      | String c1 (String c2 rest') =>
          if is_kelvin c c1 c2 then String "k" (lower rest')
          else String (lower_ascii c) (lower rest)
      | _ => String (lower_ascii c) (lower rest)
      end
  end.

(** ** Route geometry and snapping *)

(** [shapely.geometry.Point(x, y)]. *)
Record Point : Type := mkPoint { x : float; y : float }.

(** The shapely operations [filter_and_snap] calls on a line.  [distance]
    returns a float, which is an infinity when the computation overflows
    and NaN when a coordinate is; [project] and [interpolate] return
    [None] when they raise. *)
Class Shapely := {
  LineString : Type;
  line_is_empty : LineString -> bool;
  distance : Point -> LineString -> float;
  project : LineString -> Point -> option float;
  interpolate : LineString -> float -> option Point;
}.

(** A route geometry is a union of line features: a MultiLineString with
    its components [geoms], or a geometry of another [geom_type], a single
    line, which the snapper takes whole. *)
Inductive Geometry `{Shapely} : Type :=
| SingleLine (line : LineString)
| MultiLineString (geoms : list LineString).

(** The module-level dict [route_geometries], short route name to geometry
    or None, as the import of the module leaves it. *)
Class RouteIndex `{Shapely} := {
  route_geometries : gmap string (option Geometry);
}.

Section Snapper.
Context `{RouteIndex}.

(** [bool(geom)] is [not geom.is_empty]; a collection is empty when all
    its components are. *)
Definition geom_truthy (g : Geometry) : bool :=
  match g with
  | SingleLine line => negb (line_is_empty line)
  | MultiLineString geoms => negb (forallb line_is_empty geoms)
  end.

(** The loop over [geoms.geoms], carrying [closest_geom] and [min_distance]. *)
Fixpoint closest_loop (point : Point) (lines : list LineString)
    (closest_geom : option LineString) (min_distance : float)
    : option LineString * float :=
  match lines with
  | [] => (closest_geom, min_distance)
  | line :: rest =>
      let dist := distance point line in
      if float_ltb dist min_distance
      then closest_loop point rest (Some line) dist
      else closest_loop point rest closest_geom min_distance
  end.

Definition buffer_distance : float := Finite (3 # 10000).

Definition lookup_geometry (route_code : string) : option Geometry :=
  mjoin (route_geometries !! lower route_code).

(** [line.interpolate(line.project(point))], returned as [(y, x)]. *)
Definition nearest_point_on (line : LineString) (point : Point) : result (float * float) :=
  match project line point with
  | None => Raise GEOSException
  | Some d =>
      match interpolate line d with
      | None => Raise GEOSException
      | Some nearest_point => Ok (y nearest_point, x nearest_point)
      end
  end.

Definition filter_and_snap (route_code : string) (lat lon : float) : result (float * float) :=
  match lookup_geometry route_code with
  | None => Ok (lat, lon)
  | Some geoms =>
      if negb (geom_truthy geoms) then Ok (lat, lon) else
      let point := mkPoint lon lat in
      let '(closest_geom, min_distance) :=
        match geoms with
        | MultiLineString lines => closest_loop point lines None PosInf
        | SingleLine line => (Some line, distance point line)
        end in
      if float_leb min_distance buffer_distance then Ok (lat, lon) else
      match closest_geom with
      | None => Raise AttributeError
      | Some line => nearest_point_on line point
      end
  end.
End Snapper.

(** ** Position records, store rows, the outside world *)

(** The dict [fetch_route_positions] appends to [out], by key. *)
Record position : Type := mkPosition {
  p_rn : json;
  p_next_station : json;
  p_lat : option float;
  p_lon : option float;
  p_heading : option Z;
  p_arriving_now : Z;
  p_delayed : Z;
}.

(** A stored row, by column of [SCHEMA_SQL] ([id] is assigned by the store
    and not modelled).  [rn] and [next_station] have TEXT affinity: they hold
    NULL or text.  A REAL column holds NULL, a number or an infinity. *)
Record row : Type := mkRow {
  ts_utc : string;
  c_rn : option string;
  c_next_station : option string;
  c_lat : option float;
  c_lon : option float;
  c_heading : option Z;
  c_arriving_now : Z;
  c_delayed : Z;
}.

(** [requests.Response], as far as the fetcher reads it; [body] is what
    [r.json()] returns, [None] when it raises its decode error, which is a
    [RequestException]. *)
Record response : Type := mkResponse {
  status_code : Z;
  content_type : option string;
  text : string;
  body : option json;
}.

(** What [print] writes, one constructor per [print] of the source, with
    the values it formats. *)
Inductive message : Type :=
| MsgUnexpectedContentType (route_code ct : string)
| MsgTextHead (head : string)
| MsgCtaError (route_code : string) (errCd errNm : json)
| MsgRaw (route_code : string) (rn : json) (lat lon : option float) (heading : json)
| MsgAfterSnap (lat lon : option float)
| MsgRows (ts_iso rt_code : string) (n : nat)
| MsgRequestFailed (rt_code : string)
| MsgSnapshotComplete (ts_iso : string) (total : nat)
| MsgWritingTo (path : string)
| MsgPollingEvery (seconds : Z)
| MsgStopping.

(** What the process does to its surroundings, in order. *)
Inductive event : Type :=
| EvNow (ts_iso : string)
| EvGet (route_code : string)
| EvPrint (m : message)
| EvSleep (seconds : Q)
| EvExecutemany (table : string) (vals : list (string * position)).

(** The store (tables by name, rows in insertion order), what the process
    has done so far, and how often it has read the clock and called the
    feed.  Every table has the columns of [SCHEMA_SQL], and the unique index
    on [(ts_utc, rn)] unless its rows break it. *)
Record world : Type := mkWorld {
  db : gmap string (list row);
  trace : list event;
  clock_reads : nat;
  requests : nat;
}.

Definition set_db (d : gmap string (list row)) (w : world) : world :=
  mkWorld d (trace w) (clock_reads w) (requests w).

Definition add_event (e : event) (w : world) : world :=
  mkWorld (db w) (trace w ++ [e]) (clock_reads w) (requests w).

(** How [time.sleep] refuses a duration: it does not fit the C time type,
    whatever its sign, or the platform's sleep rejects it as invalid. *)
Inductive refusal : Set :=
| TooLarge
| Invalid.

(** The clock, the feed and the platform: the k-th reading of the UTC clock,
    the outcome of the k-th GET ([None]: the request raised a
    [requests.RequestException]), and whether [time.sleep] refuses a
    duration; it does not refuse a fifth of a second. *)
Class Outside := {
  clock : nat -> string;
  network : nat -> string -> option response;
  refuses_sleep : Q -> option refusal;
  pacing_accepted : refuses_sleep (2 # 10) = None;
}.

(** SQLite's rendering of a real stored in a TEXT column. *)
Class Sqlite := {
  real_text : float -> string;
}.

(** The settings read from the environment. *)
Class Config := {
  ENABLE_DEBUG : bool;
  POLL_SECONDS : Z;
}.

(** ** Computations: state passing with exceptions *)

Definition M (A : Type) : Type := world -> result A * world.

#[export] Instance M_ret : MRet M := fun _ a w => (Ok a, w).
#[export] Instance M_bind : MBind M := fun _ _ f m w =>
  match m w with
  | (Ok a, w') => f a w'
  | (Raise e, w') => (Raise e, w')
  end.

Definition lift {A} (r : result A) : M A := fun w => (r, w).

Definition emit (e : event) : M unit := fun w => (Ok tt, add_event e w).

(** What an f-string makes of [v] can be written to stdout, which encodes
    in UTF-8: a str goes in as it is, anything else as its [repr], which
    escapes what cannot be encoded. *)
Definition shown (v : json) : bool :=
  match v with
  | JLone _ => false
  | _ => true
  end.

(** The messages that format values of the feed are the ones that can fail
    to encode; route codes, timestamps, headers and the response text are
    encodable text. *)
Definition printable (m : message) : bool :=
  match m with
  | MsgCtaError _ errCd errNm => shown errCd && shown errNm
  | MsgRaw _ rn _ _ heading => shown rn && shown heading
  | _ => true
  end.

(** [print(...)]. *)
Definition print (m : message) : M unit :=
  if printable m then emit (EvPrint m) else lift (Raise UnicodeEncodeError).

(** [time.sleep(seconds)]: the duration is converted to the C time type,
    which raises OverflowError when it does not fit, then checked for its
    sign, then handed to the platform. *)
Definition sleep `{Outside} (seconds : Q) : M unit :=
  match refuses_sleep seconds with
  | Some TooLarge => lift (Raise OverflowError)
  | refused =>
      if negb (Qle_bool 0 seconds) then lift (Raise ValueError) else
      match refused with
      | Some _ => lift (Raise OSError)
      | None => emit (EvSleep seconds)
      end
  end.

(** [try: body  except <catches>: handler]. *)
Definition try_except {A} (body : M A) (catches : exn -> bool) (handler : M A) : M A :=
  fun w =>
    match body w with
    | (Raise e, w') => if catches e then handler w' else (Raise e, w')
    | done => done
    end.

(** ** Fetcher *)

(** [needle in hay]. *)
Fixpoint contains (needle hay : string) : bool :=
  String.prefix needle hay ||
  match hay with
  | EmptyString => false
  | String _ rest => contains needle rest
  end.

(** [bool(v)] for a float or None. *)
Definition float_truthy (v : option float) : bool :=
  match v with
  | Some f => nonzero f
  | None => false
  end.

(** [v == "1"]. *)
Definition is_one (v : json) : bool :=
  match v with
  | JStr s => String.eqb s "1"
  | _ => false
  end.

(** [errCd in (None, "0")]. *)
Definition no_error_code (errCd : json) : bool :=
  match errCd with
  | JNull => true
  | JStr s => String.eqb s "0"
  | _ => false
  end.

(** [r.raise_for_status()]: an HTTPError is a RequestException. *)
Definition raise_for_status (r : response) : result unit :=
  if (400 <=? status_code r)%Z && (status_code r <? 600)%Z
  then Raise RequestException else Ok tt.

(** [r.json()]: the decode error is a RequestException. *)
Definition response_json (r : response) : result json :=
  match body r with
  | Some data => Ok data
  | None => Raise RequestException
  end.

(** [except (ValueError, TypeError)]. *)
Definition value_or_type_error (e : exn) : bool :=
  match e with
  | ValueError | TypeError | UnicodeEncodeError => true
  | _ => false
  end.

Section Fetcher.
Context `{Python} `{RouteIndex} `{Outside} `{Config}.

(** [requests.get(BASE_URL, params=..., timeout=12)]. *)
Definition requests_get (route_code : string) : M response :=
  fun w =>
    let w' := mkWorld (db w) (trace w ++ [EvGet route_code])
                      (clock_reads w) (S (requests w)) in
    match network (requests w) route_code with
    | Some r => (Ok r, w')
    | None => (Raise RequestException, w')
    end.

(** [conv(t[key]) if t.get(key) else None]. *)
Definition convert_if_present {A} (conv : json -> result A) (t : json) (key : string)
    : result (option A) :=
  v ← py_get t key JNull;
  if truthy v then a ← conv v; mret (Some a) else mret None.

(** [if lat and lon: lat, lon = filter_and_snap(route_code, lat, lon)]. *)
Definition snap_if_present (route_code : string) (lat lon : option float)
    : result (option float * option float) :=
  match lat, lon with
  | Some la, Some lo =>
      if float_truthy lat && float_truthy lon
      then snapped ← filter_and_snap route_code la lo;
           mret (Some (fst snapped), Some (snd snapped))
      else mret (lat, lon)
  | _, _ => mret (lat, lon)
  end.

(** The body of the [try] block: one train entry to one record. *)
Definition train_entry (route_code : string) (t : json) : M position :=
  lat ← lift (convert_if_present py_float t "lat");
  lon ← lift (convert_if_present py_float t "lon");
  rn ← lift (py_get t "rn" JNull);
  raw_heading ← lift (py_get t "heading" JNull);
  print (MsgRaw route_code rn lat lon raw_heading);;
  coords ← lift (snap_if_present route_code lat lon);
  (if ENABLE_DEBUG then print (MsgAfterSnap (fst coords) (snd coords)) else mret tt);;
  next_station ← lift (py_get t "nextStaNm" JNull);
  heading ← lift (convert_if_present py_int t "heading");
  isApp ← lift (py_get t "isApp" JNull);
  isDly ← lift (py_get t "isDly" JNull);
  mret {| p_rn := rn;
          p_next_station := next_station;
          p_lat := fst coords;
          p_lon := snd coords;
          p_heading := heading;
          p_arriving_now := if is_one isApp then 1 else 0;
          p_delayed := if is_one isDly then 1 else 0 |}.

(** [for t in ...: try: ... out.append(...) except (ValueError, TypeError): continue]. *)
Fixpoint trains_loop (route_code : string) (trains : list json) (out : list position)
    : M (list position) :=
  match trains with
  | [] => mret out
  | t :: rest =>
      out' ← try_except (rec ← train_entry route_code t; mret (out ++ [rec]))
                        value_or_type_error (mret out);
      trains_loop route_code rest out'
  end.

(** [for block in ctatt.get("route", []): for t in block.get("train", []) or []: ...]. *)
Fixpoint blocks_loop (route_code : string) (blocks : list json) (out : list position)
    : M (list position) :=
  match blocks with
  | [] => mret out
  | block :: rest =>
      trains ← lift (v ← py_get block "train" (JArr []);
                     py_iter (if truthy v then v else JArr []));
      out' ← trains_loop route_code trains out;
      blocks_loop route_code rest out'
  end.

Definition fetch_route_positions (route_code : string) : M (list position) :=
  r ← requests_get route_code;
  lift (raise_for_status r);;
  let ct := lower (default "" (content_type r)) in
  if negb (contains "json" ct) then
    print (MsgUnexpectedContentType route_code ct);;
    print (MsgTextHead (String.substring 0 300 (text r)));;
    mret []
  else
    data ← lift (response_json r);
    ctatt ← lift (py_get data "ctatt" (JObj []));
    errCd ← lift (py_get ctatt "errCd" JNull);
    if negb (no_error_code errCd) then
      errNm ← lift (py_get ctatt "errNm" JNull);
      print (MsgCtaError route_code errCd errNm);;
      mret []
    else
      blocks ← lift (routes ← py_get ctatt "route" (JArr []); py_iter routes);
      blocks_loop route_code blocks [].
End Fetcher.

(** ** Snapshot store *)

Definition DB_PATH : string := "cta_trains.db".

Definition ROUTES : list (string * string) :=
  [("Red", "red"); ("Blue", "blue"); ("Brn", "brn"); ("G", "g");
   ("Org", "org"); ("P", "p"); ("Pink", "pink"); ("Y", "y")].

(** The unique index on [(ts_utc, rn)]: two rows collide when both columns
    are equal; as in every SQLite unique index, a NULL equals nothing. *)
Definition collides (new old : row) : bool :=
  String.eqb (ts_utc new) (ts_utc old) &&
  match c_rn new, c_rn old with
  | Some a, Some b => String.eqb a b
  | _, _ => false
  end.

(** [INSERT OR IGNORE] of one row. *)
Definition insert_or_ignore (rows : list row) (new : row) : list row :=
  if existsb (collides new) rows then rows else rows ++ [new].

(** The rows can carry the unique index: no two of them collide. *)
Fixpoint unique_rows (rows : list row) : bool :=
  match rows with
  | [] => true
  | r :: rest => negb (existsb (collides r) rest) && unique_rows rest
  end.

(** [INSERT OR IGNORE] of a batch.  Under the unique index a row that
    collides with a stored one, or with an earlier one of the batch, is
    skipped; a table whose rows break the index has none, and takes every
    row. *)
Definition insert_rows (rows news : list row) : list row :=
  if unique_rows rows then foldl insert_or_ignore rows news else rows ++ news.

(** What SQLite takes as an INTEGER: 64 bits, signed. *)
Definition int64 (n : Z) : bool := (- 2 ^ 63 <=? n)%Z && (n <? 2 ^ 63)%Z.

Section Store.
Context `{Sqlite}.

(** Binding a Python value to a TEXT column: None is NULL, as is NaN;
    numbers are stored as their text, an int only if it has 64 bits; a str
    must encode in UTF-8; a list or dict cannot be bound. *)
Definition bind_text (v : json) : result (option string) :=
  match v with
  | JNull => Ok None
  | JStr s => Ok (Some s)
  | JLone _ => Raise UnicodeEncodeError
  | JBool b => Ok (Some (if b then "1" else "0"))
  | JInt n => if int64 n then Ok (Some (pretty n)) else Raise OverflowError
  | JFloat NaN => Ok None
  | JFloat f => Ok (Some (real_text f))
  | JArr _ | JObj _ => Raise SqliteError
  end.

(** Binding a float or None to a REAL column: NaN is stored as NULL. *)
Definition bind_real (v : option float) : option float :=
  match v with
  | Some NaN => None
  | _ => v
  end.

(** Binding an int or None to an INTEGER column. *)
Definition bind_integer (v : option Z) : result (option Z) :=
  match v with
  | Some n => if int64 n then Ok (Some n) else Raise OverflowError
  | None => Ok None
  end.

(** The parameters of one row, bound in the order of the statement. *)
Definition bind_row (val : string * position) : result row :=
  let '(ts_iso, r) := val in
  rn ← bind_text (p_rn r);
  next_station ← bind_text (p_next_station r);
  heading ← bind_integer (p_heading r);
  mret {| ts_utc := ts_iso;
          c_rn := rn;
          c_next_station := next_station;
          c_lat := bind_real (p_lat r);
          c_lon := bind_real (p_lon r);
          c_heading := heading;
          c_arriving_now := p_arriving_now r;
          c_delayed := p_delayed r |}.

Fixpoint bind_rows (vals : list (string * position)) : result (list row) :=
  match vals with
  | [] => mret []
  | val :: rest => new ← bind_row val; news ← bind_rows rest; mret (new :: news)
  end.

(** [with conn: conn.executemany(sql, vals)]: the rows go in one by one;
    any error rolls the whole batch back. *)
Definition executemany (table : string) (vals : list (string * position)) : M unit :=
  fun w =>
    let w' := add_event (EvExecutemany table vals) w in
    match db w !! table with
    | None => (Raise SqliteError, w')
    | Some rows =>
        match bind_rows vals with
        | Raise e => (Raise e, w')
        | Ok news => (Ok tt, set_db (<[table := insert_rows rows news]> (db w)) w')
        end
    end.

Definition insert_snapshot (table ts_iso : string) (rows : list position) : M unit :=
  match rows with
  | [] => mret tt
  | _ => executemany table (map (fun r => (ts_iso, r)) rows)
  end.

(** [CREATE TABLE IF NOT EXISTS] followed by [CREATE UNIQUE INDEX IF NOT
    EXISTS]: a new table is empty and indexed; on a table that is there the
    index is there too, or is created now, which fails when two of its rows
    collide. *)
Definition create_table (table : string) : M unit :=
  fun w =>
    match db w !! table with
    | Some rows => if unique_rows rows then (Ok tt, w) else (Raise SqliteError, w)
    | None => (Ok tt, set_db (<[table := []]> (db w)) w)
    end.

Fixpoint create_tables (tables : list string) : M unit :=
  match tables with
  | [] => mret tt
  | t :: rest => create_table t;; create_tables rest
  end.

Definition ensure_db : M unit := create_tables (map snd ROUTES).
End Store.

(** ** Poller *)

Definition is_request_exception (e : exn) : bool :=
  match e with
  | RequestException => true
  | _ => false
  end.

Section Poller.
Context `{Python} `{RouteIndex} `{Outside} `{Config} `{Sqlite}.

(** [datetime.now(timezone.utc).isoformat(timespec="seconds")]. *)
Definition now : M string :=
  fun w =>
    let ts_iso := clock (clock_reads w) in
    (Ok ts_iso, mkWorld (db w) (trace w ++ [EvNow ts_iso]) (S (clock_reads w)) (requests w)).

(** The body of [for rt_code, table in ROUTES.items()]. *)
Definition route_step (ts_iso rt_code table : string) (total : nat) : M nat :=
  try_except
    (rows ← fetch_route_positions rt_code;
     insert_snapshot table ts_iso rows;;
     print (MsgRows ts_iso rt_code (length rows));;
     sleep (2 # 10);;
     mret (total + length rows)%nat)
    is_request_exception
    (print (MsgRequestFailed rt_code);; mret total).

Fixpoint routes_loop (ts_iso : string) (routes : list (string * string)) (total : nat)
    : M nat :=
  match routes with
  | [] => mret total
  | (rt_code, table) :: rest =>
      total' ← route_step ts_iso rt_code table total;
      routes_loop ts_iso rest total'
  end.

(** One pass of the [while True] body. *)
Definition poll_cycle : M unit :=
  ts_iso ← now;
  total ← routes_loop ts_iso ROUTES 0%nat;
  print (MsgSnapshotComplete ts_iso total);;
  sleep (inject_Z POLL_SECONDS).

(** [main], stopped by the interrupt after [cycles] full passes. *)
Fixpoint poll_cycles (cycles : nat) : M unit :=
  match cycles with
  | O => mret tt
  | S n => poll_cycle;; poll_cycles n
  end.

Definition main (cycles : nat) : M unit :=
  print (MsgWritingTo DB_PATH);;
  print (MsgPollingEvery POLL_SECONDS);;
  ensure_db;;
  poll_cycles cycles;;
  print MsgStopping.
End Poller.

(** ** Route geometry index

    What the import of the module does with the GeoJSON data before any
    function runs: one entry per short route name, the union of the
    geometries of the features that name the route. *)

Definition NAME_MAP : list (string * string) :=
  [("Red", "red"); ("Blue", "blue"); ("Brown", "brn"); ("Green", "g");
   ("Orange", "org"); ("Purple", "p"); ("Pink", "pink"); ("Yellow", "y")].

(** [NAME_MAP.get(route_name)]. *)
Fixpoint name_lookup (route_name : string) (names : list (string * string)) : option string :=
  match names with
  | [] => None
  | (name, short) :: rest =>
      if String.eqb name route_name then Some short else name_lookup route_name rest
  end.

(** [s.split(",")]. *)
Fixpoint split_comma (s : string) : list string :=
  match s with
  | EmptyString => [EmptyString]
  | String c rest =>
      if Ascii.eqb c "," then EmptyString :: split_comma rest
      else match split_comma rest with
           | [] => [String c EmptyString]
           | first :: others => String c first :: others
           end
  end.

(** [c.isspace()] for the characters of one byte: tab to carriage return,
    the four separators, the space. *)
Definition is_space (c : ascii) : bool :=
  let n := nat_of_ascii c in
  ((9 <=? n)%nat && (n <=? 13)%nat) || ((28 <=? n)%nat && (n <=? 32)%nat).

(** The white space of two bytes in UTF-8: U+0085 and U+00A0. *)
Definition is_space2 (a b : ascii) : bool :=
  (nat_of_ascii a =? 194)%nat &&
  ((nat_of_ascii b =? 133)%nat || (nat_of_ascii b =? 160)%nat).

(** The white space of three bytes: U+1680, U+2000 to U+200A, U+2028,
    U+2029, U+202F, U+205F and U+3000. *)
Definition is_space3 (a b c : ascii) : bool :=
  let i := nat_of_ascii a in
  let j := nat_of_ascii b in
  let k := nat_of_ascii c in
  ((i =? 225) && (j =? 154) && (k =? 128))%nat ||
  ((i =? 226) && (j =? 128) &&
   (((128 <=? k) && (k <=? 138)) || (k =? 168) || (k =? 169) || (k =? 175)))%nat ||
  ((i =? 226) && (j =? 129) && (k =? 159))%nat ||
  ((i =? 227) && (j =? 128) && (k =? 128))%nat.

(** [s.lstrip()]. *)
Fixpoint lstrip (s : string) : string :=
  match s with
  | EmptyString => EmptyString
  | String a rest1 =>
      if is_space a then lstrip rest1 else
      match rest1 with
      | EmptyString => s
      | String b rest2 =>
          if is_space2 a b then lstrip rest2 else
          match rest2 with
          | EmptyString => s
          | String c rest3 => if is_space3 a b c then lstrip rest3 else s
          end
      end
  end.

Fixpoint reverse_onto (s acc : string) : string :=
  match s with
  | EmptyString => acc
  | String c rest => reverse_onto rest (String c acc)
  end.

Definition reverse (s : string) : string := reverse_onto s EmptyString.

(** [lstrip] on the reversed text: the bytes of a character come last
    first. *)
Fixpoint lstrip_reversed (s : string) : string :=
  match s with
  | EmptyString => EmptyString
  | String c rest1 =>
      if is_space c then lstrip_reversed rest1 else
      match rest1 with
      | EmptyString => s
      | String b rest2 =>
          if is_space2 b c then lstrip_reversed rest2 else
          match rest2 with
          | EmptyString => s
          | String a rest3 => if is_space3 a b c then lstrip_reversed rest3 else s
          end
      end
  end.

(** [s.rstrip()]. *)
Definition rstrip (s : string) : string := reverse (lstrip_reversed (reverse s)).

(** [s.strip()]: the white space of Unicode is removed at both ends. *)
Definition strip (s : string) : string := rstrip (lstrip s).

(** The shapely operations the import calls: [shape] on the geometry member
    of a feature, which raises on what it cannot read, and [union]. *)
Class ShapelyImport `{Shapely} := {
  shape : json -> result Geometry;
  union : Geometry -> Geometry -> Geometry;
}.

(** What stops the import: an exception of the kinds above, or the KeyError
    of a subscript on a missing key. *)
Inductive import_error : Set :=
| Py (e : exn)
| KeyError.

Inductive imported (A : Type) : Type :=
| Imported (a : A)
| ImportFailed (e : import_error).
Arguments Imported {A} a.
Arguments ImportFailed {A} e.

#[export] Instance imported_ret : MRet imported := fun _ a => Imported a.
#[export] Instance imported_bind : MBind imported := fun _ _ f r =>
  match r with
  | Imported a => f a
  | ImportFailed e => ImportFailed e
  end.

Definition of_result {A} (r : result A) : imported A :=
  match r with
  | Ok a => Imported a
  | Raise e => ImportFailed (Py e)
  end.

(** The text of a str, encodable or not. *)
Definition str_text (v : json) : option string :=
  match v with
  | JStr s | JLone s => Some s
  | _ => None
  end.

Section GeometryImport.
Context `{ShapelyImport}.

(** [{short: None for short in NAME_MAP.values()}]. *)
Definition no_geometries : gmap string (option Geometry) :=
  list_to_map (map (fun name => (snd name, None)) NAME_MAP).

(** The assignment to [route_geometries[short_name]], after the subscript
    that reads it. *)
Definition add_geometry (index : gmap string (option Geometry)) (short_name : string)
    (geom : Geometry) : imported (gmap string (option Geometry)) :=
  match index !! short_name with
  | None => ImportFailed KeyError
  | Some None => Imported (<[short_name := Some geom]> index)
  | Some (Some known) => Imported (<[short_name := Some (union known geom)]> index)
  end.

(** [for route_name in lines.split(","): ...]. *)
Fixpoint names_loop (names : list string) (geom : Geometry)
    (index : gmap string (option Geometry)) : imported (gmap string (option Geometry)) :=
  match names with
  | [] => Imported index
  | route_name :: rest =>
      match name_lookup (strip route_name) NAME_MAP with
      | Some short_name =>
          if negb (String.eqb short_name "")
          then index' ← add_geometry index short_name geom; names_loop rest geom index'
          else names_loop rest geom index
      | None => names_loop rest geom index
      end
  end.

(** [for feature in geojson_data.get("features", []): ...]. *)
Fixpoint features_loop (features : list json) (index : gmap string (option Geometry))
    : imported (gmap string (option Geometry)) :=
  match features with
  | [] => Imported index
  | feature :: rest =>
      props ← of_result (py_get feature "properties" (JObj []));
      lines ← of_result (py_get props "lines" (JStr ""));
      geometry ← of_result (py_get feature "geometry" JNull);
      geom ← of_result (shape geometry);
      index' ← (if truthy lines && geom_truthy geom
                then match str_text lines with
                     | Some s => names_loop (split_comma s) geom index
                     | None => ImportFailed (Py AttributeError)
                     end
                else Imported index);
      features_loop rest index'
  end.

(** The index the import leaves in [route_geometries]. *)
Definition build_route_geometries (geojson_data : json)
    : imported (gmap string (option Geometry)) :=
  features ← of_result (found ← py_get geojson_data "features" (JArr []); py_iter found);
  features_loop features no_geometries.
End GeometryImport.

(** ** A reference instance

    Executable stand-ins for the interfaces: east-west tracks as geometry,
    plain decimal notation for the number builtins, a fixed feed.  The
    examples run the pipeline on them. *)

Module Reference.

(** Beyond this difference in latitude the square in the distance
    overflows. *)
Definition FAR : Q := inject_Z (2 ^ 512).

(** A track along the parallel [y = c], measured from the meridian [x = 0]:
    the distance of a point is its difference in latitude, an infinity when
    that is too large and NaN when the latitude is; its projection is its
    own longitude, and needs both coordinates to be numbers. *)
Definition tracks : Shapely := {|
  LineString := Q;
  line_is_empty := fun _ => false;
  distance := fun p c =>
    match y p with
    | Finite v => if Qle_bool FAR (Qabs (v - c)) then PosInf else Finite (Qabs (v - c))
    | NaN => NaN
    | _ => PosInf
    end;
  project := fun _ p =>
    match x p, y p with
    | NaN, _ | _, NaN => None
    | d, _ => Some d
    end;
  interpolate := fun c d => match d with NaN => None | _ => Some (mkPoint d (Finite c)) end;
|}.

Definition track (c : Q) : @LineString tracks := c.

Definition red_tracks : list (@LineString tracks) := [track (41 # 1); track (42 # 1)].

(** red: two parallel tracks; blue: one track; brn: listed without geometry. *)
Definition geometries : gmap string (option (@Geometry tracks)) :=
  <["red" := Some (@MultiLineString tracks red_tracks)]>
  (<["blue" := Some (@SingleLine tracks (track (40 # 1)))]>
  (<["brn" := None]> ∅)).

Definition index : @RouteIndex tracks := {| route_geometries := geometries |}.

Definition digit (c : ascii) : option Z :=
  let n := nat_of_ascii c in
  if (48 <=? n)%nat && (n <=? 57)%nat then Some (Z.of_nat (n - 48)) else None.

Fixpoint read_digits (s : string) (acc : Z) : option Z :=
  match s with
  | EmptyString => Some acc
  | String c rest =>
      match digit c with
      | Some d => read_digits rest (10 * acc + d)%Z
      | None => None
      end
  end.

Definition read_unsigned (s : string) : option Z :=
  match s with
  | EmptyString => None
  | _ => read_digits s 0%Z
  end.

Definition read_int (s : string) : option Z :=
  match s with
  | String "-" rest => Z.opp <$> read_unsigned rest
  | _ => read_unsigned s
  end.

(** Splits at the first ["."]. *)
Fixpoint split_point (s : string) : string * option string :=
  match s with
  | EmptyString => (EmptyString, None)
  | String "." rest => (EmptyString, Some rest)
  | String c rest => let '(whole, frac) := split_point rest in (String c whole, frac)
  end.

Definition read_unsigned_decimal (s : string) : option Q :=
  let '(whole, frac) := split_point s in
  match frac with
  | None => inject_Z <$> read_unsigned whole
  | Some f =>
      match read_unsigned whole, read_unsigned f with
      | Some w, Some n =>
          let scale := (10 ^ Z.of_nat (String.length f))%Z in
          Some (Qred (Qmake (w * scale + n) (Z.to_pos scale)))
      | _, _ => None
      end
  end.

Definition read_decimal (s : string) : option Q :=
  match s with
  | String "-" rest => Qopp <$> read_unsigned_decimal rest
  | _ => read_unsigned_decimal s
  end.

(** Decimal notation, and the three names of what is not a number. *)
Definition read_float (s : string) : option float :=
  if String.eqb s "nan" then Some NaN
  else if String.eqb s "inf" then Some PosInf
  else if String.eqb s "-inf" then Some NegInf
  else Finite <$> read_decimal s.

Definition builtins : Python := {|
  str_to_float := read_float;
  str_to_int := read_int;
|}.

Definition sqlite : Sqlite := {|
  real_text := fun f =>
    match f with
    | Finite q => pretty (Qnum q) +:+ "/" +:+ pretty (Zpos (Qden q))
    | PosInf => "Inf"
    | NegInf => "-Inf"
    | NaN => ""
    end;
|}.

Definition config : Config := {| ENABLE_DEBUG := false; POLL_SECONDS := 30 |}.

(** A configuration with a negative polling interval. *)
Definition config_negative : Config := {| ENABLE_DEBUG := false; POLL_SECONDS := -1 |}.

Definition entry (rn lat lon heading : json) : json :=
  JObj [("rn", rn); ("nextStaNm", JStr "Howard"); ("lat", lat); ("lon", lon);
        ("heading", heading); ("isApp", JStr "1"); ("isDly", JStr "0")].

Definition feed (trains : list json) : response := {|
  status_code := 200;
  content_type := Some "application/json; charset=utf-8";
  text := "";
  body := Some (JObj [("ctatt", JObj [("errCd", JStr "0"); ("errNm", JNull);
                                       ("route", JArr [JObj [("train", JArr trains)]])])]);
|}.

(** A response whose status block reports [errCd] with [errNm]. *)
Definition feed_reporting (errCd errNm : json) : response := {|
  status_code := 200;
  content_type := Some "application/json";
  text := "";
  body := Some (JObj [("ctatt", JObj [("errCd", errCd); ("errNm", errNm)])]);
|}.

Definition feed_error : response := feed_reporting (JStr "101") (JStr "Invalid API key").

Definition clock_at (k : nat) : string := "2025-03-01T12:00:0" +:+ pretty k +:+ "+00:00".

(** A platform whose time type holds up to 9223372036 seconds, and whose
    sleep takes every wait that fits. *)
Definition patience (seconds : Q) : option refusal :=
  if Qle_bool (Qabs seconds) 9223372036 then None else Some TooLarge.

(** The Red request times out; Blue reports one train; every other route
    reports none. *)
Definition outside : Outside := {|
  clock := clock_at;
  network := fun _ route_code =>
    if String.eqb route_code "Red" then None
    else if String.eqb route_code "Blue"
    then Some (feed [entry (JStr "101") (JStr "40.5") (JStr "-87.65") (JStr "90")])
    else Some (feed []);
  refuses_sleep := patience;
  pacing_accepted := eq_refl;
|}.


(** A feed that gives the same answer to every request. *)
Definition answering (answer : option response) : Outside := {|
  clock := clock_at;
  network := fun _ _ => answer;
  refuses_sleep := patience;
  pacing_accepted := eq_refl;
|}.

Definition empty_world : world := mkWorld ∅ [] 0 0.

(** A store with the red table, empty. *)
Definition red_world : world := mkWorld {["red" := []]} [] 0 0.

Definition noon : string := "2025-03-01T12:00:00+00:00".

Definition run_101 : position := {|
  p_rn := JStr "101"; p_next_station := JStr "Howard";
  p_lat := Some (Finite (41 # 1)); p_lon := Some (Finite (-1753 # 20));
  p_heading := Some 90%Z; p_arriving_now := 1; p_delayed := 0 |}.

Definition run_101_blue : position := {|
  p_rn := JStr "101"; p_next_station := JStr "Howard";
  p_lat := Some (Finite (40 # 1)); p_lon := Some (Finite (-1753 # 20));
  p_heading := Some 90%Z; p_arriving_now := 1; p_delayed := 0 |}.

(** A record of a train that reported no run number. *)
Definition no_run : position := {|
  p_rn := JNull; p_next_station := JStr "Howard";
  p_lat := Some (Finite (41 # 1)); p_lon := Some (Finite (-1753 # 20));
  p_heading := Some 90%Z; p_arriving_now := 1; p_delayed := 0 |}.

(** The row the store keeps for [run_101_blue] at [noon]. *)
Definition row_101_blue : row := {|
  ts_utc := noon; c_rn := Some "101"; c_next_station := Some "Howard";
  c_lat := Some (Finite (40 # 1)); c_lon := Some (Finite (-1753 # 20));
  c_heading := Some 90%Z; c_arriving_now := 1; c_delayed := 0 |}.

(** Geometry members of the reference dataset: [{"parallel": c}] is the
    track along [y = c], [{"parallels": [c, ...]}] several of them. *)
Definition parallel_of (v : json) : option (@LineString tracks) :=
  match v with
  | JInt c => Some (track (inject_Z c))
  | _ => None
  end.

Definition shape_tracks (v : json) : result (@Geometry tracks) :=
  match v with
  | JObj fields =>
      match assoc "parallel" fields, assoc "parallels" fields with
      | Some (JInt c), _ => Ok (@SingleLine tracks (track (inject_Z c)))
      | _, Some (JArr items) => Ok (@MultiLineString tracks (omap parallel_of items))
      | _, _ => Raise ValueError
      end
  | _ => Raise AttributeError
  end.

Definition tracks_of (g : @Geometry tracks) : list (@LineString tracks) :=
  match g with
  | SingleLine line => [line]
  | MultiLineString geoms => geoms
  end.

Definition union_tracks (a b : @Geometry tracks) : @Geometry tracks :=
  @MultiLineString tracks (tracks_of a ++ tracks_of b).

Definition import_tracks : @ShapelyImport tracks := {|
  shape := shape_tracks;
  union := union_tracks;
|}.

Definition feature (lines : json) (geometry : json) : json :=
  JObj [("type", JStr "Feature"); ("properties", JObj [("lines", lines)]);
        ("geometry", geometry)].

(** A no-break space, U+00A0, in UTF-8. *)
Definition NBSP : string := String (ascii_of_nat 194) (String (ascii_of_nat 160) EmptyString).

(** The lone surrogate U+D800, passed through into UTF-8. *)
Definition SURROGATE : string :=
  String (ascii_of_nat 237) (String (ascii_of_nat 160) (String (ascii_of_nat 128) EmptyString)).

(** The Kelvin sign, U+212A, in UTF-8. *)
Definition KELVIN : string :=
  String (ascii_of_nat 226) (String (ascii_of_nat 132) (String (ascii_of_nat 170) EmptyString)).

(** Two tracks shared by Red and Purple, the second one named after a
    no-break space, one Blue track, a feature for a line that is not
    polled, and a feature without route names. *)
Definition dataset : json :=
  JObj [("type", JStr "FeatureCollection");
        ("features", JArr [
           feature (JStr "Red, Purple") (JObj [("parallel", JInt 41)]);
           feature (JStr "Blue") (JObj [("parallel", JInt 40)]);
           feature (JStr ("Purple," +:+ NBSP +:+ "Red")) (JObj [("parallel", JInt 42)]);
           feature (JStr "Silver") (JObj [("parallel", JInt 50)]);
           feature (JStr "") (JObj [("parallel", JInt 60)])])].


(** A JSON response with nothing in it. *)
Definition empty_object : response := {|
  status_code := 200;
  content_type := Some "application/json";
  text := "{}";
  body := Some (JObj []);
|}.

(** The feed with one train on the route, given as an object, not a list. *)
Definition feed_single_train (train : json) : response := {|
  status_code := 200;
  content_type := Some "application/json";
  text := "";
  body := Some (JObj [("ctatt", JObj [("errCd", JStr "0"); ("errNm", JNull);
                                       ("route", JArr [JObj [("train", train)]])])]);
|}.

(** A record whose run number is a list: it cannot be bound. *)
Definition unbindable : position := {|
  p_rn := JArr [JStr "101"]; p_next_station := JStr "Howard";
  p_lat := None; p_lon := None; p_heading := None;
  p_arriving_now := 0; p_delayed := 0 |}.

(** A record whose heading does not fit 64 bits. *)
Definition heading_overflow : position := {|
  p_rn := JStr "102"; p_next_station := JStr "Howard";
  p_lat := None; p_lon := None; p_heading := Some (2 ^ 63)%Z;
  p_arriving_now := 0; p_delayed := 0 |}.

(** The row of [run_101] as stored at [noon]. *)
Definition row_101 : row := {|
  ts_utc := noon; c_rn := Some "101"; c_next_station := Some "Howard";
  c_lat := Some (Finite (41 # 1)); c_lon := Some (Finite (-1753 # 20));
  c_heading := Some 90%Z; c_arriving_now := 1; c_delayed := 0 |}.

(** Run 101 reported again for the same instant, somewhere else. *)
Definition run_101_moved : position := {|
  p_rn := JStr "101"; p_next_station := JStr "Wilson";
  p_lat := Some (Finite (42 # 1)); p_lon := Some (Finite (-1753 # 20));
  p_heading := Some 270%Z; p_arriving_now := 0; p_delayed := 1 |}.

(** A store whose red table holds the same row twice: it was made without
    the unique index. *)
Definition doubled_world : world :=
  mkWorld {["red" := [row_101; row_101]]} [] 0 0.

(** The index the import builds from [dataset]. *)
Definition built_index : gmap string (option (@Geometry tracks)) :=
  match @build_route_geometries tracks import_tracks dataset with
  | Imported built => built
  | ImportFailed _ => ∅
  end.

End Reference.

(** ** Vocabulary of the properties *)

(** The first byte of a text. *)
Definition head_code (s : string) : option nat :=
  match s with
  | EmptyString => None
  | String c _ => Some (nat_of_ascii c)
  end.

(** The lines a geometry consists of. *)
Definition components `{Shapely} (g : Geometry) : list LineString :=
  match g with
  | SingleLine line => [line]
  | MultiLineString geoms => geoms
  end.


(** [evs] appended to the trace, nothing else touched. *)
Definition add_events (evs : list event) (w : world) : world :=
  mkWorld (db w) (trace w ++ evs) (clock_reads w) (requests w).

Definition is_print (e : event) : Prop :=
  match e with
  | EvPrint _ => True
  | _ => False
  end.

(** A computation that only prints: its result and its output are the same
    in every world. *)
Definition prints_only {A} (m : M A) : Prop :=
  exists r evs, Forall is_print evs /\ forall w, m w = (r, add_events evs w).

(** A computation that raises nothing outside [allowed]. *)
Definition raises_only {A} (allowed : exn -> bool) (m : M A) : Prop :=
  forall w e w', m w = (Raise e, w') -> allowed e = true.

(** The world right after the GET for [route_code] went out. *)
Definition after_get (route_code : string) (w : world) : world :=
  mkWorld (db w) (trace w ++ [EvGet route_code]) (clock_reads w) (S (requests w)).

(** What the [try] body makes of a train entry: a record or an exception.
    The body only prints, so the world it runs in plays no part. *)
Definition entry_result `{Python} `{RouteIndex} `{Config}
    (route_code : string) (t : json) : result position :=
  fst (train_entry route_code t (mkWorld ∅ [] 0 0)).

(** The record of an entry, if the body makes one. *)
Definition entry_record `{Python} `{RouteIndex} `{Config}
    (route_code : string) (t : json) : option position :=
  match entry_result route_code t with
  | Ok rec => Some rec
  | Raise _ => None
  end.

(** The body returns on the entry, or raises what the [except] clause
    catches. *)
Definition handled `{Python} `{RouteIndex} `{Config}
    (route_code : string) (t : json) : Prop :=
  forall e, entry_result route_code t = Raise e -> value_or_type_error e = true.



(** A response that gets the fetcher as far as its loops: no HTTP error, a
    JSON content type, a body with a status block that reports no error, and
    [blocks] under ["route"]. *)
Definition carries_blocks (r : response) (blocks : list json) : Prop :=
  raise_for_status r = Ok tt /\
  contains "json" (lower (default "" (content_type r))) = true /\
  exists data ctatt errCd routes,
    body r = Some data /\
    py_get data "ctatt" (JObj []) = Ok ctatt /\
    py_get ctatt "errCd" JNull = Ok errCd /\
    no_error_code errCd = true /\
    py_get ctatt "route" (JArr []) = Ok routes /\
    py_iter routes = Ok blocks.

(** The items the inner loop visits in [block]: those of its ["train"]
    value, none when that is missing or falsy. *)
Definition holds_trains (block : json) (trains : list json) : Prop :=
  exists v, py_get block "train" (JArr []) = Ok v /\
            py_iter (if truthy v then v else JArr []) = Ok trains.

(** The row carries the timestamp [ts_iso] and the run number [k]. *)
Definition has_key (ts_iso k : string) (r : row) : bool :=
  String.eqb (ts_utc r) ts_iso &&
  match c_rn r with
  | Some k' => String.eqb k' k
  | None => false
  end.

(** How many rows of a table carry [(ts_iso, k)]. *)
Definition count_key (ts_iso k : string) (rows : list row) : nat :=
  length (List.filter (has_key ts_iso k) rows).

(** No two rows of a table share a timestamp and a run number. *)
Definition unique_index (rows : list row) : Prop :=
  forall i j r1 r2 k,
    rows !! i = Some r1 -> rows !! j = Some r2 ->
    ts_utc r1 = ts_utc r2 -> c_rn r1 = Some k -> c_rn r2 = Some k ->
    i = j.

Definition db_unique (d : gmap string (list row)) : Prop :=
  forall table rows, d !! table = Some rows -> unique_index rows.

(** The route tables that are there can carry the unique index. *)
Definition routes_indexable (d : gmap string (list row)) : Prop :=
  forall table rows, table ∈ map snd ROUTES -> d !! table = Some rows -> unique_index rows.

(** The table holds the row, or a row that took its place: an earlier one
    with the same timestamp and run number. *)
Definition holds_row (stored : list row) (new : row) : Prop :=
  new ∈ stored \/
  exists r k, r ∈ stored /\ ts_utc r = ts_utc new /\ c_rn r = Some k /\ c_rn new = Some k.

(** What ends the conversion of an entry: the exceptions of [.get],
    [float], [int], [print] and the snapper. *)
Definition entry_error (e : exn) : bool :=
  match e with
  | AttributeError | ValueError | TypeError | OverflowError | UnicodeEncodeError
  | GEOSException => true
  | _ => false
  end.

(** What gets out of the loops: what [entry_error] holds and the [except]
    clause does not catch, and the TypeError of a loop over something that
    is not iterable. *)
Definition parse_error (e : exn) : bool :=
  match e with
  | AttributeError | TypeError | OverflowError | GEOSException => true
  | _ => false
  end.

(** Every run of the computation relates the world before to the world
    after, whatever the result. *)
Definition respects {A} (S : world -> world -> Prop) (m : M A) : Prop :=
  forall w r w', m w = (r, w') -> S w w'.

Definition keeps_unique (w w' : world) : Prop :=
  db_unique (db w) -> db_unique (db w').

(** The routes requested, in order. *)
Fixpoint gets (evs : list event) : list string :=
  match evs with
  | [] => []
  | EvGet route_code :: rest => route_code :: gets rest
  | _ :: rest => gets rest
  end.

(** [w'] is reached from [w] without a request going out. *)
Definition quiet (w w' : world) : Prop :=
  exists evs, trace w' = trace w ++ evs /\ gets evs = [].

Definition not_request_exception (e : exn) : bool := negb (is_request_exception e).

(** What the store raises: a database error, an int that does not fit, a
    str that does not encode. *)
Definition store_error (e : exn) : bool :=
  match e with
  | SqliteError | OverflowError | UnicodeEncodeError => true
  | _ => false
  end.

(** What gets out of the fetcher. *)
Definition fetch_error (e : exn) : bool :=
  match e with
  | RequestException | AttributeError | TypeError | OverflowError | GEOSException
  | UnicodeEncodeError => true
  | _ => false
  end.

(** What gets out of a route's turn in the cycle: what the fetcher or the
    store raises, request failures apart. *)
Definition step_error (e : exn) : bool :=
  match e with
  | AttributeError | TypeError | OverflowError | GEOSException | UnicodeEncodeError
  | SqliteError => true
  | _ => false
  end.

(** The steps of [route_step] after a fetch that returned [rows]. *)
Definition persist `{Outside} `{Sqlite} (ts_iso rt_code table : string) (total : nat)
    (rows : list position) : M nat :=
  insert_snapshot table ts_iso rows;;
  print (MsgRows ts_iso rt_code (length rows));;
  sleep (2 # 10);;
  mret (total + length rows)%nat.

(** An event of a cycle stamped [ts_iso]: no further clock reading, and
    every tuple handed to the store carries [ts_iso]. *)
Definition stamped (ts_iso : string) (e : event) : Prop :=
  match e with
  | EvNow _ => False
  | EvExecutemany _ vals => Forall (fun val => fst val = ts_iso) vals
  | _ => True
  end.

(** [w'] is reached from [w] inside a cycle stamped [ts_iso]: the clock is
    not read, the events are stamped, and every row of the store was there
    in [w] or carries [ts_iso]. *)
Definition within_cycle (ts_iso : string) (w w' : world) : Prop :=
  clock_reads w' = clock_reads w /\
  (exists evs, trace w' = trace w ++ evs /\ Forall (stamped ts_iso) evs) /\
  (forall table rows', db w' !! table = Some rows' ->
     exists rows, db w !! table = Some rows /\
       forall r, r ∈ rows' -> r ∈ rows \/ ts_utc r = ts_iso).

(** What a cycle does for [routes] when every request fails. *)
Definition outage_events (routes : list (string * string)) : list event :=
  flat_map (fun route => [EvGet (fst route); EvPrint (MsgRequestFailed (fst route))]) routes.

(** [w'] keeps every table of [w], with the rows of [w] first and as
    they were. *)
Definition append_only (w w' : world) : Prop :=
  forall table old, db w !! table = Some old ->
    exists new, db w' !! table = Some new /\ old `prefix_of` new.

(** Neither the clock was read nor a request sent between [w] and [w']. *)
Definition same_counters (w w' : world) : Prop :=
  clock_reads w' = clock_reads w /\ requests w' = requests w.

(** The index has exactly the short route names as keys. *)
Definition keyed_by_short_names `{Shapely} (index : gmap string (option Geometry)) : Prop :=
  forall k, is_Some (index !! k) <-> k ∈ map snd NAME_MAP.

(** The features of a dataset, as the import walks them. *)
Definition features_of (geojson_data : json) : result (list json) :=
  found ← py_get geojson_data "features" (JArr []); py_iter found.

(** The feature has named routes and a non-empty geometry [geom]: the
    guard [if lines and geom] lets it through with the names in [s]. *)
Definition contributes `{ShapelyImport} (feature : json) (s : string) (geom : Geometry) : Prop :=
  exists props geometry lines,
    py_get feature "properties" (JObj []) = Ok props /\
    py_get props "lines" (JStr "") = Ok lines /\
    str_text lines = Some s /\
    s <> "" /\
    py_get feature "geometry" JNull = Ok geometry /\
    shape geometry = Ok geom /\
    geom_truthy geom = true.

Definition lists_route (s short_name : string) : Prop :=
  exists route_name, route_name ∈ split_comma s /\
    name_lookup (strip route_name) NAME_MAP = Some short_name.

(** * Properties *)

(** ** Floats *)

Lemma Qle_bool_false p q : Qle_bool p q = false <-> (q < p)%Q.
Proof.
  split.
  - intros Hf. apply Qnot_le_lt. intros Hle. apply Qle_bool_iff in Hle. congruence.
  - intros Hlt. destruct (Qle_bool p q) eqn:Hle; [|reflexivity].
    apply Qle_bool_iff in Hle. lra.
Qed.

Ltac float_cases :=
  unfold float_lt, float_le, float_ltb, float_leb in *;
  repeat match goal with
         | f : float |- _ => destruct f
         end;
  try discriminate; try congruence; try tauto;
  repeat match goal with
         | H : negb _ = true |- _ => apply negb_true_iff in H
         | H : negb _ = false |- _ => apply negb_false_iff in H
         | H : Qle_bool _ _ = true |- _ => apply Qle_bool_iff in H
         | H : Qle_bool _ _ = false |- _ => apply Qle_bool_false in H
         | H : ~ (negb _ = true) |- _ => rewrite negb_true_iff in H
         | H : ~ (Qle_bool _ _ = false) |- _ => rewrite Qle_bool_false in H
         | H : ~ (Qle_bool _ _ = true) |- _ => rewrite Qle_bool_iff in H
         | |- negb _ = true => apply negb_true_iff
         | |- Qle_bool _ _ = true => apply Qle_bool_iff
         | |- Qle_bool _ _ = false => apply Qle_bool_false
         | |- ~ (negb _ = true) => rewrite negb_true_iff
         | |- ~ (Qle_bool _ _ = false) => rewrite Qle_bool_false
         | |- ~ (Qle_bool _ _ = true) => rewrite Qle_bool_iff
         end;
  try lra.

Lemma PosInf_not_nan : PosInf <> NaN.
Proof. discriminate. Qed.

Lemma float_lt_not_nan a b : float_lt a b -> a <> NaN /\ b <> NaN.
Proof. intros Hlt. split; intros ->; float_cases. Qed.

Lemma float_le_not_nan a b : float_le a b -> a <> NaN /\ b <> NaN.
Proof. intros Hle. split; intros ->; float_cases. Qed.

Lemma float_le_trans a b c : float_le a b -> float_le b c -> float_le a c.
Proof. intros Hab Hbc. float_cases. Qed.

Lemma float_lt_le a b : float_lt a b -> float_le a b.
Proof. intros Hab. float_cases. Qed.

Lemma float_le_not_lt a b : float_le a b -> ~ float_lt b a.
Proof. intros Hab Hba. float_cases. Qed.

Lemma float_lt_not_le a b : float_lt a b -> ~ float_le b a.
Proof. intros Hab Hba. float_cases. Qed.

Lemma float_not_lt_le a b : ~ float_lt a b -> a <> NaN -> b <> NaN -> float_le b a.
Proof. intros Hab Ha Hb. float_cases. Qed.

Lemma float_not_le_lt a b : ~ float_le a b -> a <> NaN -> b <> NaN -> float_lt b a.
Proof. intros Hab Ha Hb. float_cases. Qed.

Lemma float_lt_le_trans a b c : float_lt a b -> float_le b c -> float_lt a c.
Proof. intros Hab Hbc. float_cases. Qed.

Lemma float_lt_irrefl a : ~ float_lt a a.
Proof. intros Haa. float_cases. Qed.

(** ** Builtins *)

Lemma lower_ascii_idempotent c : lower_ascii (lower_ascii c) = lower_ascii c.
Proof. destruct c as [[] [] [] [] [] [] [] []]; reflexivity. Qed.

(** Lower-casing leaves the bytes of other characters alone. *)
Lemma lower_ascii_high c n :
  nat_of_ascii (lower_ascii c) = n -> (128 <= n)%nat -> nat_of_ascii c = n.
Proof.
  destruct c as [[] [] [] [] [] [] [] []]; vm_compute; intros <- Hn;
    first [reflexivity | exfalso; repeat (apply le_S_n in Hn); inversion Hn].
Qed.

Lemma lower_cons c rest :
  (forall c1 c2 rest', rest = String c1 (String c2 rest') -> is_kelvin c c1 c2 = false) ->
  lower (String c rest) = String (lower_ascii c) (lower rest).
Proof.
  intros Hno. destruct rest as [|c1 [|c2 rest']]; try reflexivity.
  cbn [lower]. rewrite (Hno c1 c2 rest' eq_refl). reflexivity.
Qed.

Lemma lower_head s n :
  head_code (lower s) = Some n -> (128 <= n)%nat -> head_code s = Some n.
Proof.
  destruct s as [|c [|c1 [|c2 rest']]]; try discriminate; cbn [lower head_code].
  - intros [= Hc] Hn. f_equal. apply lower_ascii_high; assumption.
  - intros [= Hc] Hn. f_equal. apply lower_ascii_high; assumption.
  - destruct (is_kelvin c c1 c2); cbn [head_code].
    + intros [= <-] Hn. exfalso. change (128 <= 107)%nat in Hn. lia.
    + intros [= Hc] Hn. f_equal. apply lower_ascii_high; assumption.
Qed.

Lemma lower_idempotent_upto n : forall s, (String.length s <= n)%nat -> lower (lower s) = lower s.
Proof.
  induction n as [|n IH]; intros s Hlen.
  - destruct s; [reflexivity | simpl in Hlen; lia].
  - destruct s as [|c rest]; [reflexivity|].
    assert (Hplain : (forall c1 c2 rest', rest = String c1 (String c2 rest') ->
                        is_kelvin c c1 c2 = false) ->
                     lower (lower (String c rest)) = lower (String c rest)).
    { intros Hno. rewrite (lower_cons c rest Hno).
      rewrite lower_cons.
      - rewrite lower_ascii_idempotent, IH by (simpl in Hlen; lia). reflexivity.
      - intros d1 d2 t Hd.
        destruct (is_kelvin (lower_ascii c) d1 d2) eqn:Hk; [exfalso | reflexivity].
        unfold is_kelvin in Hk.
        apply andb_prop in Hk as [Hk H2]. apply andb_prop in Hk as [H0 H1].
        apply Nat.eqb_eq in H0, H1, H2.
        apply lower_ascii_high in H0; [|lia].
        assert (Hh1 : head_code rest = Some 132).
        { apply lower_head; [rewrite Hd; cbn; congruence | lia]. }
        destruct rest as [|c1 rest1]; [discriminate Hh1|].
        injection Hh1 as Hc1.
        assert (Hrest : lower (String c1 rest1) = String (lower_ascii c1) (lower rest1)).
        { apply lower_cons. intros e1 e2 t' _. unfold is_kelvin. rewrite Hc1. reflexivity. }
        rewrite Hrest in Hd. injection Hd as _ Hd.
        assert (Hh2 : head_code rest1 = Some 170).
        { apply lower_head; [rewrite Hd; cbn; congruence | lia]. }
        destruct rest1 as [|c2 rest2]; [discriminate Hh2|].
        injection Hh2 as Hc2.
        specialize (Hno c1 c2 rest2 eq_refl). unfold is_kelvin in Hno.
        rewrite H0, Hc1, Hc2 in Hno. discriminate Hno. }
    destruct rest as [|c1 [|c2 rest']]; try (apply Hplain; intros; discriminate).
    destruct (is_kelvin c c1 c2) eqn:Hk.
    + cbn [lower]. rewrite Hk.
      rewrite lower_cons by (intros; reflexivity).
      rewrite IH by (simpl in Hlen; lia). reflexivity.
    + apply Hplain. intros d1 d2 t [= <- <- <-]. exact Hk.
Qed.

Lemma lower_idempotent s : lower (lower s) = lower s.
Proof. apply (lower_idempotent_upto (String.length s)). lia. Qed.

(** ** Snapper *)

Section SnapperProperties.
Context `{RouteIndex}.

(** What the loop leaves in [closest_geom] and [min_distance]: no line it
    has seen is nearer, the distance it started from is not smaller, and
    the distance is that of the line it kept. *)
Lemma closest_loop_spec point lines : forall c0 m0 c m,
  m0 <> NaN ->
  closest_loop point lines c0 m0 = (c, m) ->
  m <> NaN /\
  float_le m m0 /\
  (forall line, line ∈ lines -> ~ float_lt (distance point line) m) /\
  ((c, m) = (c0, m0) \/
   exists line, line ∈ lines /\ c = Some line /\ m = distance point line).
Proof.
  induction lines as [|line rest IH]; intros c0 m0 c m Hm0 Hloop; simpl in Hloop.
  - inversion Hloop; subst. split; [assumption|]. split; [|split].
    + apply float_not_lt_le; [apply float_lt_irrefl | assumption..].
    + intros line Hin. inversion Hin.
    + left. reflexivity.
  - destruct (float_ltb (distance point line) m0) eqn:Hlt.
    + assert (Hd : distance point line <> NaN) by exact (proj1 (float_lt_not_nan _ _ Hlt)).
      destruct (IH _ _ _ _ Hd Hloop) as (Hm & Hle & Hall & Hkept).
      split; [assumption|]. split; [|split].
      * eapply float_le_trans; [exact Hle | apply float_lt_le, Hlt].
      * intros l Hin. apply elem_of_cons in Hin as [-> | Hin]; [|apply Hall, Hin].
        apply float_le_not_lt, Hle.
      * right. destruct Hkept as [Heq | (l & Hin & Hc & Hm')].
        -- inversion Heq; subst. exists line. split; [left | split; reflexivity].
        -- exists l. split; [right; assumption | split; assumption].
    + destruct (IH _ _ _ _ Hm0 Hloop) as (Hm & Hle & Hall & Hkept).
      split; [assumption|]. split; [assumption|]. split.
      * intros l Hin. apply elem_of_cons in Hin as [-> | Hin]; [|apply Hall, Hin].
        intros Hnear. assert (Hlt' : float_lt (distance point line) m0)
          by (eapply float_lt_le_trans; eassumption).
        unfold float_lt in Hlt'. congruence.
      * destruct Hkept as [Heq | (l & Hin & Hc & Hm')].
        -- left. assumption.
        -- right. exists l. split; [right; assumption | split; assumption].
Qed.


(** The loop over a list in which [line] comes before every line that is
    as near or nearer. *)
Lemma closest_loop_first point line after : forall before c0 m0,
  (forall l, l ∈ before -> ~ float_le (distance point l) (distance point line)) ->
  (forall l, l ∈ after -> ~ float_lt (distance point l) (distance point line)) ->
  float_lt (distance point line) m0 ->
  closest_loop point (before ++ line :: after) c0 m0 =
  (Some line, distance point line).
Proof.
  induction before as [|l before IH]; intros c0 m0 Hbefore Hafter Hm0; simpl.
  - rewrite Hm0. clear Hbefore Hm0 c0 m0.
    induction after as [|a after IHa]; [reflexivity|]. simpl.
    destruct (float_ltb (distance point a) (distance point line)) eqn:Hlt.
    + exfalso. apply (Hafter a); [left | exact Hlt].
    + apply IHa. intros l0 Hl0. apply Hafter. right. exact Hl0.
  - assert (Hl : ~ float_le (distance point l) (distance point line)) by (apply Hbefore; left).
    destruct (float_ltb (distance point l) m0) eqn:Hlt.
    + apply IH; [intros l0 Hl0; apply Hbefore; right; exact Hl0 | exact Hafter|].
      apply float_not_le_lt;
        [exact Hl | exact (proj1 (float_lt_not_nan _ _ Hlt))
        | exact (proj1 (float_lt_not_nan _ _ Hm0))].
    + apply IH; [intros l0 Hl0; apply Hbefore; right; exact Hl0 | exact Hafter | exact Hm0].
Qed.

(** A line within the tolerance leaves the coordinate as it is. *)
Lemma snap_near_unchanged route_code lat lon g line :
  lookup_geometry route_code = Some g ->
  line ∈ components g ->
  float_le (distance (mkPoint lon lat) line) buffer_distance ->
  filter_and_snap route_code lat lon = Ok (lat, lon).
Proof.
  intros Hg Hin Hnear. unfold filter_and_snap. rewrite Hg.
  destruct (geom_truthy g); simpl; [|reflexivity].
  destruct g as [l | geoms]; simpl in Hin.
  - apply list_elem_of_singleton in Hin as ->.
    unfold float_le in Hnear. rewrite Hnear. reflexivity.
  - destruct (closest_loop (mkPoint lon lat) geoms None PosInf) as [c m] eqn:Hloop.
    destruct (closest_loop_spec _ _ _ _ _ _ PosInf_not_nan Hloop) as (Hm & _ & Hall & _).
    assert (Hle : float_le m buffer_distance).
    { eapply float_le_trans; [|exact Hnear].
      apply float_not_lt_le;
        [apply Hall, Hin | exact (proj1 (float_le_not_nan _ _ Hnear)) | exact Hm]. }
    unfold float_le in Hle. rewrite Hle. reflexivity.
Qed.


(** The ways out of the snapper: the coordinate as it came, the nearest
    point on a component beyond the tolerance, or the AttributeError of a
    loop that kept no component. *)
Lemma snap_cases route_code lat lon :
  filter_and_snap route_code lat lon = Ok (lat, lon) \/
  (exists g line,
     lookup_geometry route_code = Some g /\
     line ∈ components g /\
     ~ float_le (distance (mkPoint lon lat) line) buffer_distance /\
     filter_and_snap route_code lat lon = nearest_point_on line (mkPoint lon lat)) \/
  (exists lines,
     lookup_geometry route_code = Some (MultiLineString lines) /\
     (forall line, line ∈ lines -> ~ float_lt (distance (mkPoint lon lat) line) PosInf) /\
     filter_and_snap route_code lat lon = Raise AttributeError).
Proof.
  unfold filter_and_snap.
  destruct (lookup_geometry route_code) as [g|] eqn:Hg; [|left; reflexivity].
  destruct (geom_truthy g) eqn:Htruthy; simpl; [|left; reflexivity].
  destruct g as [l | lines].
  - destruct (float_leb (distance (mkPoint lon lat) l) buffer_distance) eqn:Hle;
      [left; reflexivity|].
    right. left. exists (SingleLine l), l.
    split; [reflexivity|]. split; [left|]. split; [|reflexivity].
    unfold float_le. congruence.
  - destruct (closest_loop (mkPoint lon lat) lines None PosInf) as [c m] eqn:Hloop.
    destruct (closest_loop_spec _ _ _ _ _ _ PosInf_not_nan Hloop)
      as (Hm & _ & Hall & Hkept).
    destruct (float_leb m buffer_distance) eqn:Hle; [left; reflexivity|].
    right. destruct Hkept as [Heq | (line & Hin & -> & ->)].
    + right. inversion Heq; subst. exists lines.
      split; [reflexivity|]. split; [exact Hall | reflexivity].
    + left. exists (MultiLineString lines), line.
      split; [reflexivity|]. split; [exact Hin|]. split; [|reflexivity].
      unfold float_le. congruence.
Qed.

(** C9: a route without a known geometry in the index (no entry, a None
    entry, or an empty geometry) gets back exactly the coordinate it gave. *)
Theorem filter_and_snap_no_geometry (route_code : string) (lat lon : float) :
  (forall g, lookup_geometry route_code = Some g -> geom_truthy g = false) ->
  filter_and_snap route_code lat lon = Ok (lat, lon).
Proof.
  intros Hnone. unfold filter_and_snap.
  destruct (lookup_geometry route_code) as [g|]; [|reflexivity].
  rewrite (Hnone g eq_refl). reflexivity.
Qed.

(** C3: when the route has a geometry and some line of it is within the
    tolerance of 0.0003 degrees of the input point (the minimum distance is
    within tolerance), the input coordinate comes back unchanged. *)
Theorem filter_and_snap_within_tolerance
    (route_code : string) (lat lon : float) (g : Geometry) :
  lookup_geometry route_code = Some g ->
  (exists line, line ∈ components g /\
     float_le (distance (mkPoint lon lat) line) (Finite (3 # 10000))) ->
  filter_and_snap route_code lat lon = Ok (lat, lon).
Proof.
  intros Hg (line & Hin & Hnear).
  eapply snap_near_unchanged; eassumption.
Qed.



(** X1: the snapper has three ways out.  It returns the coordinate it was
    given; or what [interpolate(project(point))] gives on a line of the
    route's geometry that is not within the tolerance; or it raises the
    AttributeError of [None.interpolate], which happens only for a
    MultiLineString none of whose lines is at a distance below infinity.
    It raises nothing but that AttributeError and what the shapely call
    raises. *)
Theorem filter_and_snap_input_or_projection (route_code : string) (lat lon : float) :
  (filter_and_snap route_code lat lon = Ok (lat, lon) \/
   (exists g line,
      lookup_geometry route_code = Some g /\
      line ∈ components g /\
      ~ float_le (distance (mkPoint lon lat) line) buffer_distance /\
      filter_and_snap route_code lat lon = nearest_point_on line (mkPoint lon lat)) \/
   (exists lines,
      lookup_geometry route_code = Some (MultiLineString lines) /\
      (forall line, line ∈ lines -> ~ float_lt (distance (mkPoint lon lat) line) PosInf) /\
      filter_and_snap route_code lat lon = Raise AttributeError)) /\
  forall e, filter_and_snap route_code lat lon = Raise e ->
    e = AttributeError \/ e = GEOSException.
Proof.
  split; [apply snap_cases|].
  intros e Hraise.
  destruct (snap_cases route_code lat lon)
    as [Hsame | [(g & line & _ & _ & _ & Hproj) | (lines & _ & _ & Hattr)]].
  - congruence.
  - right. rewrite Hproj in Hraise. unfold nearest_point_on in Hraise.
    destruct (project line _) as [d|]; [|congruence].
    destruct (interpolate line d); [discriminate | congruence].
  - left. congruence.
Qed.

(** X2: among the components of a MultiLineString the comparison is strict,
    so of several components at the same, smallest distance the one that
    comes first is used: a point farther than the tolerance from a
    component, and not infinitely far, that no earlier component is as near
    as, and no later one nearer than, is projected onto that component. *)
Theorem filter_and_snap_first_of_equals
    (route_code : string) (lat lon : float) (before after : list LineString)
    (line : LineString) :
  lookup_geometry route_code = Some (MultiLineString (before ++ line :: after)) ->
  geom_truthy (MultiLineString (before ++ line :: after)) = true ->
  (forall l, l ∈ before ->
     ~ float_le (distance (mkPoint lon lat) l) (distance (mkPoint lon lat) line)) ->
  (forall l, l ∈ after ->
     ~ float_lt (distance (mkPoint lon lat) l) (distance (mkPoint lon lat) line)) ->
  float_lt (Finite (3 # 10000)) (distance (mkPoint lon lat) line) ->
  float_lt (distance (mkPoint lon lat) line) PosInf ->
  filter_and_snap route_code lat lon = nearest_point_on line (mkPoint lon lat).
Proof.
  intros Hg Htruthy Hbefore Hafter Hfar Hfinite.
  unfold filter_and_snap. rewrite Hg, Htruthy. cbn [negb].
  rewrite (closest_loop_first _ _ _ _ None PosInf Hbefore Hafter Hfinite).
  destruct (float_leb (distance (mkPoint lon lat) line) buffer_distance) eqn:Hle;
    [|reflexivity].
  exfalso. apply (float_lt_not_le _ _ Hfar). exact Hle.
Qed.

(** X3: the route code is matched without regard to case: a code and its
    lower-case form are snapped alike. *)
Theorem filter_and_snap_ignores_case (route_code : string) (lat lon : float) :
  filter_and_snap (lower route_code) lat lon = filter_and_snap route_code lat lon.
Proof.
  unfold filter_and_snap, lookup_geometry. rewrite lower_idempotent. reflexivity.
Qed.

(** X4: when [interpolate] returns points within the tolerance of its line,
    snapping is idempotent: the coordinate the snapper returns is returned
    unchanged when it is snapped again. *)
Theorem filter_and_snap_idempotent (route_code : string) (lat lon lat' lon' : float) :
  (forall g line d nearest_point,
     lookup_geometry route_code = Some g -> line ∈ components g ->
     interpolate line d = Some nearest_point ->
     float_le (distance nearest_point line) (Finite (3 # 10000))) ->
  filter_and_snap route_code lat lon = Ok (lat', lon') ->
  filter_and_snap route_code lat' lon' = Ok (lat', lon').
Proof.
  intros Hon Hsnap.
  destruct (snap_cases route_code lat lon)
    as [Hsame | [(g & line & Hg & Hin & _ & Hproj) | (lines & _ & _ & Hattr)]].
  - rewrite Hsame in Hsnap. injection Hsnap as <- <-. exact Hsame.
  - rewrite Hproj in Hsnap. unfold nearest_point_on in Hsnap.
    destruct (project line _) as [d|]; [|discriminate].
    destruct (interpolate line d) as [[px py]|] eqn:Hq; [|discriminate].
    injection Hsnap as <- <-.
    apply (snap_near_unchanged _ _ _ g line Hg Hin).
    apply (Hon g line d _ Hg Hin Hq).
  - congruence.
Qed.
End SnapperProperties.

(** ** Computations *)

Lemma add_events_nil w : add_events [] w = w.
Proof. destruct w. unfold add_events. simpl. rewrite app_nil_r. reflexivity. Qed.

Lemma add_events_app evs1 evs2 w :
  add_events evs2 (add_events evs1 w) = add_events (evs1 ++ evs2) w.
Proof. unfold add_events. simpl. rewrite app_assoc. reflexivity. Qed.

Lemma bind_Ok_inv {A B} (m : M A) (f : A -> M B) w b w' :
  (m ≫= f) w = (Ok b, w') ->
  exists a w1, m w = (Ok a, w1) /\ f a w1 = (Ok b, w').
Proof.
  unfold mbind, M_bind. destruct (m w) as [[a|e] w1]; [eauto | discriminate].
Qed.

Lemma bind_Raise_inv {A B} (m : M A) (f : A -> M B) w e w' :
  (m ≫= f) w = (Raise e, w') ->
  m w = (Raise e, w') \/ exists a w1, m w = (Ok a, w1) /\ f a w1 = (Raise e, w').
Proof.
  unfold mbind, M_bind. destruct (m w) as [[a|e1] w1]; [eauto|].
  intros [= -> ->]. left. reflexivity.
Qed.

Lemma bind_Ok {A B} (m : M A) (f : A -> M B) w a w1 :
  m w = (Ok a, w1) -> (m ≫= f) w = f a w1.
Proof. unfold mbind, M_bind. intros ->. reflexivity. Qed.

Lemma bind_Raise {A B} (m : M A) (f : A -> M B) w e w1 :
  m w = (Raise e, w1) -> (m ≫= f) w = (Raise e, w1).
Proof. unfold mbind, M_bind. intros ->. reflexivity. Qed.


Lemma lift_inv {A} (r : result A) w r' w' :
  lift r w = (r', w') -> r = r' /\ w' = w.
Proof. unfold lift. intros [= -> ->]. split; reflexivity. Qed.

Lemma ret_inv {A} (a : A) w r' w' :
  (mret a : M A) w = (r', w') -> r' = Ok a /\ w' = w.
Proof. unfold mret, M_ret. intros [= <- <-]. split; reflexivity. Qed.

(** [print] writes the message, or raises and writes nothing. *)
Lemma print_cases m w :
  (printable m = true /\ print m w = (Ok tt, add_event (EvPrint m) w)) \/
  (printable m = false /\ print m w = (Raise UnicodeEncodeError, w)).
Proof. unfold print. destruct (printable m); [left | right]; split; reflexivity. Qed.

Lemma print_printable m w :
  printable m = true -> print m w = (Ok tt, add_event (EvPrint m) w).
Proof. unfold print. intros ->. reflexivity. Qed.

(** [sleep] waits, or raises and does nothing. *)
Lemma sleep_cases `{Outside} seconds w r w' :
  sleep seconds w = (r, w') ->
  (r = Ok tt /\ w' = add_event (EvSleep seconds) w /\
   (0 <= seconds)%Q /\ refuses_sleep seconds = None) \/
  (w' = w /\ (r = Raise OverflowError \/ r = Raise ValueError \/ r = Raise OSError)).
Proof.
  unfold sleep.
  destruct (refuses_sleep seconds) as [[]|] eqn:Hrefused;
    [intros [= <- <-]; right; split; [reflexivity | tauto] | |];
    (destruct (Qle_bool 0 seconds) eqn:Hsign; cbn [negb];
     [|intros [= <- <-]; right; split; [reflexivity | tauto]]).
  - intros [= <- <-]. right. split; [reflexivity | tauto].
  - intros [= <- <-]. left. apply Qle_bool_iff in Hsign. repeat split; assumption.
Qed.

Lemma sleep_accepted `{Outside} seconds w :
  (0 <= seconds)%Q -> refuses_sleep seconds = None ->
  sleep seconds w = (Ok tt, add_event (EvSleep seconds) w).
Proof.
  intros Hsign Hrefused. unfold sleep.
  apply Qle_bool_iff in Hsign. rewrite Hsign, Hrefused. reflexivity.
Qed.

Lemma sleep_pacing `{Outside} w :
  sleep (2 # 10) w = (Ok tt, add_event (EvSleep (2 # 10)) w).
Proof. apply sleep_accepted; [discriminate | apply pacing_accepted]. Qed.

Lemma prints_only_ret {A} (a : A) : prints_only (mret a).
Proof.
  exists (Ok a), []. split; [constructor|].
  intros w. rewrite add_events_nil. reflexivity.
Qed.

Lemma prints_only_lift {A} (r : result A) : prints_only (lift r).
Proof.
  exists r, []. split; [constructor|].
  intros w. rewrite add_events_nil. reflexivity.
Qed.

Lemma prints_only_print m : prints_only (print m).
Proof.
  unfold print. destruct (printable m); [|apply prints_only_lift].
  exists (Ok tt), [EvPrint m]. split; [repeat constructor|].
  intros w. reflexivity.
Qed.

Lemma prints_only_bind {A B} (m : M A) (f : A -> M B) :
  prints_only m -> (forall a, prints_only (f a)) -> prints_only (m ≫= f).
Proof.
  intros (r & evs & Hevs & Hm) Hf. destruct r as [a|e].
  - destruct (Hf a) as (r' & evs' & Hevs' & Hfa).
    exists r', (evs ++ evs'). split; [apply Forall_app; split; assumption|].
    intros w. unfold mbind, M_bind. rewrite Hm, Hfa. rewrite add_events_app. reflexivity.
  - exists (Raise e), evs. split; [assumption|].
    intros w. unfold mbind, M_bind. rewrite Hm. reflexivity.
Qed.

Lemma prints_only_try {A} (body handler : M A) catches :
  prints_only body -> prints_only handler -> prints_only (try_except body catches handler).
Proof.
  intros (r & evs & Hevs & Hb) (r' & evs' & Hevs' & Hh). destruct r as [a|e].
  - exists (Ok a), evs. split; [assumption|].
    intros w. unfold try_except. rewrite Hb. reflexivity.
  - destruct (catches e) eqn:Hc.
    + exists r', (evs ++ evs'). split; [apply Forall_app; split; assumption|].
      intros w. unfold try_except. rewrite Hb, Hc, Hh, add_events_app. reflexivity.
    + exists (Raise e), evs. split; [assumption|].
      intros w. unfold try_except. rewrite Hb, Hc. reflexivity.
Qed.

(** The result of a printing computation does not depend on the world. *)
Lemma prints_only_result {A} (m : M A) w1 w2 :
  prints_only m -> fst (m w1) = fst (m w2).
Proof. intros (r & evs & _ & Hm). rewrite !Hm. reflexivity. Qed.

Ltac prints_only_step :=
  match goal with
  | |- prints_only (mret _) => apply prints_only_ret
  | |- prints_only (lift _) => apply prints_only_lift
  | |- prints_only (print _) => apply prints_only_print
  | |- prints_only (_ ≫= _) => apply prints_only_bind; [|intros ?]
  | |- prints_only (try_except _ _ _) => apply prints_only_try
  | |- prints_only (match ?v with _ => _ end) => destruct v
  end.

Lemma raises_only_ret {A} allowed (a : A) : raises_only allowed (mret a).
Proof. intros w e w' Hrun. apply ret_inv in Hrun as [[=] _]. Qed.

Lemma raises_only_lift {A} allowed (r : result A) :
  (forall e, r = Raise e -> allowed e = true) -> raises_only allowed (lift r).
Proof. intros Hr w e w' [Hr' _]%lift_inv. apply Hr, Hr'. Qed.

Lemma raises_only_print allowed m :
  (printable m = false -> allowed UnicodeEncodeError = true) ->
  raises_only allowed (print m).
Proof.
  intros Hm w e w'. destruct (print_cases m w) as [[_ ->] | [Hp ->]]; [discriminate|].
  intros [= <- _]. apply Hm, Hp.
Qed.

Lemma raises_only_bind {A B} allowed (m : M A) (f : A -> M B) :
  raises_only allowed m -> (forall a, raises_only allowed (f a)) ->
  raises_only allowed (m ≫= f).
Proof.
  intros Hm Hf w e w' [Hrun | (a & w1 & _ & Hrun)]%bind_Raise_inv.
  - eapply Hm, Hrun.
  - eapply Hf, Hrun.
Qed.

Lemma raises_only_weaken {A} (allowed allowed' : exn -> bool) (m : M A) :
  (forall e, allowed e = true -> allowed' e = true) ->
  raises_only allowed m -> raises_only allowed' m.
Proof. intros Himp Hm w e w' Hrun. eapply Himp, Hm, Hrun. Qed.

(** What the body raises and the clause does not catch, and what the
    handler raises. *)
Lemma raises_only_try {A} (raised allowed : exn -> bool) (body handler : M A) catches :
  raises_only raised body ->
  (forall e, raised e = true -> catches e = false -> allowed e = true) ->
  raises_only allowed handler ->
  raises_only allowed (try_except body catches handler).
Proof.
  intros Hb Hrest Hh w e w'. unfold try_except.
  destruct (body w) as [[a|e1] w1] eqn:Hrun; [discriminate|].
  destruct (catches e1) eqn:Hc.
  - intros Hrun'. eapply Hh, Hrun'.
  - intros [= <- <-]. apply Hrest; [eapply Hb, Hrun | exact Hc].
Qed.

Lemma py_get_raises v key dflt e : py_get v key dflt = Raise e -> e = AttributeError.
Proof. destruct v; simpl; congruence. Qed.

Lemma py_iter_raises v e : py_iter v = Raise e -> e = TypeError.
Proof. destruct v; simpl; congruence. Qed.

(** ** Fetcher *)

Section FetcherProperties.
Context `{Python} `{RouteIndex} `{Outside} `{Config}.

Lemma train_entry_prints_only route_code t : prints_only (train_entry route_code t).
Proof. unfold train_entry. repeat prints_only_step. Qed.

(** The body prints and returns [entry_result], in any world. *)
Lemma train_entry_run route_code t :
  exists evs, Forall is_print evs /\
    forall w, train_entry route_code t w = (entry_result route_code t, add_events evs w).
Proof.
  destruct (train_entry_prints_only route_code t) as (r & evs & Hevs & Hrun).
  exists evs. split; [exact Hevs|]. intros w.
  unfold entry_result. rewrite !Hrun. reflexivity.
Qed.

Lemma trains_loop_prints_only route_code trains :
  forall out, prints_only (trains_loop route_code trains out).
Proof.
  induction trains as [|t rest IH]; intros out; simpl.
  - apply prints_only_ret.
  - apply prints_only_bind; [|intros out'; apply IH].
    apply prints_only_try; [|apply prints_only_ret].
    apply prints_only_bind; [apply train_entry_prints_only | intros ?; apply prints_only_ret].
Qed.

Lemma blocks_loop_prints_only route_code blocks :
  forall out, prints_only (blocks_loop route_code blocks out).
Proof.
  induction blocks as [|block rest IH]; intros out; simpl.
  - apply prints_only_ret.
  - apply prints_only_bind; [apply prints_only_lift|]. intros trains.
    apply prints_only_bind; [apply trains_loop_prints_only | intros out'; apply IH].
Qed.

(** After the request, the fetcher only prints. *)
Lemma fetch_route_positions_after_get route_code :
  exists parse : response -> M (list position),
    fetch_route_positions route_code = (requests_get route_code ≫= parse) /\
    forall r, prints_only (parse r).
Proof.
  eexists. split; [reflexivity|]. intros r. simpl.
  apply prints_only_bind; [apply prints_only_lift | intros _].
  destruct (negb (contains _ _)); [repeat prints_only_step|].
  apply prints_only_bind; [apply prints_only_lift | intros data].
  apply prints_only_bind; [apply prints_only_lift | intros ctatt].
  apply prints_only_bind; [apply prints_only_lift | intros errCd].
  destruct (negb (no_error_code errCd)); [repeat prints_only_step|].
  apply prints_only_bind; [apply prints_only_lift | intros blocks].
  apply blocks_loop_prints_only.
Qed.

(** The fetcher issues one GET, prints, and touches nothing else. *)
Lemma fetch_route_positions_frame route_code w res w' :
  fetch_route_positions route_code w = (res, w') ->
  exists evs, Forall is_print evs /\ w' = add_events evs (after_get route_code w).
Proof.
  destruct (fetch_route_positions_after_get route_code) as (parse & -> & Hparse).
  unfold mbind, M_bind, requests_get.
  destruct (network (requests w) route_code) as [r|].
  - destruct (Hparse r) as (res' & evs & Hevs & Hrun). rewrite Hrun.
    intros Heq. exists evs. split; [assumption|].
    destruct res'; inversion Heq; reflexivity.
  - intros [= <- <-]. exists []. split; [constructor|].
    rewrite add_events_nil. reflexivity.
Qed.

Lemma py_float_raises v e : py_float v = Raise e -> entry_error e = true.
Proof.
  destruct v as [| | n | | s | | |]; simpl; try (intros [= <-]; reflexivity); try discriminate.
  - destruct (_ <? _)%Z; [discriminate | intros [= <-]; reflexivity].
  - destruct (str_to_float s); [discriminate | intros [= <-]; reflexivity].
Qed.

Lemma py_int_raises v e : py_int v = Raise e -> entry_error e = true.
Proof.
  destruct v as [| | | f | s | | |]; simpl; try (intros [= <-]; reflexivity); try discriminate.
  - destruct f; try discriminate; intros [= <-]; reflexivity.
  - destruct (str_to_int s); [discriminate | intros [= <-]; reflexivity].
Qed.

Lemma convert_if_present_raises {A} (conv : json -> result A) t key e :
  (forall v e', conv v = Raise e' -> entry_error e' = true) ->
  convert_if_present conv t key = Raise e ->
  entry_error e = true.
Proof.
  intros Hconv. unfold convert_if_present.
  destruct (py_get t key JNull) as [v|e1] eqn:Hget; simpl.
  - destruct (truthy v); [|discriminate].
    destruct (conv v) as [a|e'] eqn:Hc; simpl; [discriminate|].
    intros [= <-]. eapply Hconv, Hc.
  - intros [= <-]. apply py_get_raises in Hget as ->. reflexivity.
Qed.


Lemma snap_if_present_raises route_code lat lon e :
  snap_if_present route_code lat lon = Raise e -> e = AttributeError \/ e = GEOSException.
Proof.
  unfold snap_if_present. destruct lat as [la|], lon as [lo|]; try discriminate.
  destruct (_ && _); [|discriminate].
  destruct (filter_and_snap route_code la lo) as [snapped|e'] eqn:Hsnap; simpl;
    [discriminate|].
  intros [= <-].
  destruct (snap_cases route_code la lo)
    as [Hsame | [(g & line & _ & _ & _ & Hproj) | (lines & _ & _ & Hattr)]].
  - congruence.
  - right. rewrite Hproj in Hsnap. unfold nearest_point_on in Hsnap.
    destruct (project line _) as [d|]; [|congruence].
    destruct (interpolate line d); [discriminate | congruence].
  - left. congruence.
Qed.

(** The [try] body raises nothing but the exceptions of its conversions,
    its print and the snapper. *)
Lemma train_entry_raises route_code t :
  raises_only entry_error (train_entry route_code t).
Proof.
  unfold train_entry.
  apply raises_only_bind; [apply raises_only_lift; intros e;
    apply convert_if_present_raises, py_float_raises | intros lat].
  apply raises_only_bind; [apply raises_only_lift; intros e;
    apply convert_if_present_raises, py_float_raises | intros lon].
  apply raises_only_bind;
    [apply raises_only_lift; intros e ->%py_get_raises; reflexivity | intros rn].
  apply raises_only_bind;
    [apply raises_only_lift; intros e ->%py_get_raises; reflexivity | intros raw].
  apply raises_only_bind; [apply raises_only_print; reflexivity | intros _].
  apply raises_only_bind.
  { apply raises_only_lift. intros e [-> | ->]%snap_if_present_raises; reflexivity. }
  intros coords.
  apply raises_only_bind.
  { destruct ENABLE_DEBUG; [apply raises_only_print; reflexivity | apply raises_only_ret]. }
  intros _.
  apply raises_only_bind;
    [apply raises_only_lift; intros e ->%py_get_raises; reflexivity | intros ns].
  apply raises_only_bind; [apply raises_only_lift; intros e;
    apply convert_if_present_raises, py_int_raises | intros heading].
  apply raises_only_bind;
    [apply raises_only_lift; intros e ->%py_get_raises; reflexivity | intros isApp].
  apply raises_only_bind;
    [apply raises_only_lift; intros e ->%py_get_raises; reflexivity | intros isDly].
  apply raises_only_ret.
Qed.

Lemma trains_loop_raises route_code trains : forall out,
  raises_only parse_error (trains_loop route_code trains out).
Proof.
  induction trains as [|t rest IH]; intros out; simpl.
  - apply raises_only_ret.
  - apply raises_only_bind; [|intros out'; apply IH].
    eapply raises_only_try; [| |apply raises_only_ret].
    + apply raises_only_bind; [apply train_entry_raises | intros rec; apply raises_only_ret].
    + intros [] He Hc; try reflexivity; discriminate.
Qed.

Lemma blocks_loop_raises route_code blocks : forall out,
  raises_only parse_error (blocks_loop route_code blocks out).
Proof.
  induction blocks as [|block rest IH]; intros out; simpl.
  - apply raises_only_ret.
  - apply raises_only_bind.
    + apply raises_only_lift. intros e.
      destruct (py_get block "train" (JArr [])) as [v|e1] eqn:Hget; simpl.
      * intros ->%py_iter_raises. reflexivity.
      * intros [= <-]. apply py_get_raises in Hget as ->. reflexivity.
    + intros trains. apply raises_only_bind; [apply trains_loop_raises|].
      intros out'. apply IH.
Qed.

(** What the fetcher raises once it has a decoded body. *)
Lemma parse_body_raises route_code data :
  raises_only (fun e => parse_error e || match e with UnicodeEncodeError => true | _ => false end)
    (ctatt ← lift (py_get data "ctatt" (JObj []));
     errCd ← lift (py_get ctatt "errCd" JNull);
     if negb (no_error_code errCd) then
       errNm ← lift (py_get ctatt "errNm" JNull);
       print (MsgCtaError route_code errCd errNm);;
       mret []
     else
       blocks ← lift (routes ← py_get ctatt "route" (JArr []); py_iter routes);
       blocks_loop route_code blocks []).
Proof.
  apply raises_only_bind;
    [apply raises_only_lift; intros e0 ->%py_get_raises; reflexivity | intros ctatt].
  apply raises_only_bind;
    [apply raises_only_lift; intros e0 ->%py_get_raises; reflexivity | intros errCd].
  destruct (negb (no_error_code errCd)).
  - apply raises_only_bind;
      [apply raises_only_lift; intros e0 ->%py_get_raises; reflexivity | intros errNm].
    apply raises_only_bind; [apply raises_only_print; reflexivity | intros _].
    apply raises_only_ret.
  - apply raises_only_bind.
    + apply raises_only_lift; intros e0;
        destruct (py_get ctatt "route" (JArr [])) as [v|e1] eqn:Hget; simpl;
        [intros ->%py_iter_raises; reflexivity
        | intros [= <-]; apply py_get_raises in Hget as ->; reflexivity].
    + intros blocks. eapply raises_only_weaken; [|apply blocks_loop_raises].
      intros e ->. reflexivity.
Qed.

(** A response that carries blocks is handed to the loops. *)
Lemma fetch_route_positions_blocks route_code w r blocks :
  network (requests w) route_code = Some r ->
  carries_blocks r blocks ->
  fetch_route_positions route_code w =
  blocks_loop route_code blocks [] (after_get route_code w).
Proof.
  intros Hnet (Hstatus & Hct & data & ctatt & errCd & routes &
               Hbody & Hctatt & HerrCd & Hcode & Hroutes & Hiter).
  unfold fetch_route_positions.
  erewrite bind_Ok; [|unfold requests_get; rewrite Hnet; reflexivity].
  erewrite bind_Ok; [|unfold lift; rewrite Hstatus; reflexivity].
  fold (after_get route_code w).
  rewrite Hct. cbn [negb].
  erewrite bind_Ok; [|unfold lift, response_json; rewrite Hbody; reflexivity].
  erewrite bind_Ok; [|unfold lift; rewrite Hctatt; reflexivity].
  erewrite bind_Ok; [|unfold lift; rewrite HerrCd; reflexivity].
  rewrite Hcode. cbn [negb].
  erewrite bind_Ok; [reflexivity|].
  unfold lift. rewrite Hroutes. simpl. rewrite Hiter. reflexivity.
Qed.

(** *** The loops, entry by entry *)

(** One pass of the inner loop: a record is appended, a caught exception
    skips the entry, any other ends the loop. *)
Lemma trains_loop_step route_code t rest out w :
  fst (trains_loop route_code (t :: rest) out w) =
  match entry_result route_code t with
  | Ok rec => fst (trains_loop route_code rest (out ++ [rec]) w)
  | Raise e => if value_or_type_error e
               then fst (trains_loop route_code rest out w)
               else Raise e
  end.
Proof.
  destruct (train_entry_run route_code t) as (evs & _ & Hrun).
  cbn [trains_loop]. unfold mbind at 1, M_bind at 1, try_except.
  unfold mbind at 1, M_bind at 1. rewrite Hrun.
  destruct (entry_result route_code t) as [rec|e].
  - cbn. apply prints_only_result, trains_loop_prints_only.
  - destruct (value_or_type_error e); [|reflexivity].
    cbn. apply prints_only_result, trains_loop_prints_only.
Qed.

Lemma trains_loop_handled route_code trains : forall out w,
  Forall (handled route_code) trains ->
  fst (trains_loop route_code trains out w) =
  Ok (out ++ omap (entry_record route_code) trains).
Proof.
  induction trains as [|t rest IH]; intros out w Hall.
  - simpl. rewrite app_nil_r. reflexivity.
  - apply Forall_cons in Hall as [Ht Hrest].
    rewrite trains_loop_step. cbn [omap list_omap]. unfold entry_record at 1.
    unfold handled in Ht.
    destruct (entry_result route_code t) as [rec|e].
    + rewrite IH by exact Hrest. simpl. rewrite <- app_assoc. reflexivity.
    + rewrite (Ht e eq_refl). apply IH, Hrest.
Qed.

Lemma trains_loop_escapes route_code t post e : forall pre out w,
  Forall (handled route_code) pre ->
  entry_result route_code t = Raise e ->
  value_or_type_error e = false ->
  fst (trains_loop route_code (pre ++ t :: post) out w) = Raise e.
Proof.
  induction pre as [|p pre IH]; intros out w Hall Ht He; simpl app.
  - rewrite trains_loop_step, Ht, He. reflexivity.
  - apply Forall_cons in Hall as [Hp Hrest].
    rewrite trains_loop_step. unfold handled in Hp.
    destruct (entry_result route_code p) as [rec|e'].
    + apply IH; assumption.
    + rewrite (Hp e' eq_refl). apply IH; assumption.
Qed.

Lemma trains_loop_app route_code first : forall rest out w,
  fst (trains_loop route_code (first ++ rest) out w) =
  match fst (trains_loop route_code first out w) with
  | Ok out' => fst (trains_loop route_code rest out' w)
  | Raise e => Raise e
  end.
Proof.
  induction first as [|t first IH]; intros rest out w; [reflexivity|].
  simpl app. rewrite !trains_loop_step.
  destruct (entry_result route_code t) as [rec|e]; [apply IH|].
  destruct (value_or_type_error e); [apply IH | reflexivity].
Qed.

(** The two loops visit the entries of the blocks as one list. *)
Lemma blocks_loop_flat route_code blocks : forall trainss out w,
  Forall2 holds_trains blocks trainss ->
  fst (blocks_loop route_code blocks out w) =
  fst (trains_loop route_code (concat trainss) out w).
Proof.
  induction blocks as [|block rest IH]; intros trainss out w Hholds.
  - apply Forall2_nil_inv_l in Hholds as ->. reflexivity.
  - apply Forall2_cons_inv_l in Hholds as (trains & trainss' & (v & Hget & Hiter) & Hrest & ->).
    cbn [blocks_loop concat]. rewrite Hget. simpl. rewrite Hiter.
    unfold mbind at 1, M_bind at 1, lift at 1.
    rewrite trains_loop_app. unfold mbind at 1, M_bind at 1.
    destruct (trains_loop route_code trains out w) as [[out'|e] w1]; [|reflexivity].
    simpl. rewrite (IH trainss' out' w1 Hrest).
    apply prints_only_result, trains_loop_prints_only.
Qed.

(** *** One entry *)

(** The record of an entry whose fields convert, whose message can be
    written and whose coordinates the snapper, if called, returns. *)
Lemma entry_result_converts route_code fields lat lon heading coords :
  convert_if_present py_float (JObj fields) "lat" = Ok lat ->
  convert_if_present py_float (JObj fields) "lon" = Ok lon ->
  convert_if_present py_int (JObj fields) "heading" = Ok heading ->
  shown (default JNull (assoc "rn" fields)) = true ->
  shown (default JNull (assoc "heading" fields)) = true ->
  snap_if_present route_code lat lon = Ok coords ->
  entry_result route_code (JObj fields) =
  Ok {| p_rn := default JNull (assoc "rn" fields);
        p_next_station := default JNull (assoc "nextStaNm" fields);
        p_lat := fst coords;
        p_lon := snd coords;
        p_heading := heading;
        p_arriving_now := if is_one (default JNull (assoc "isApp" fields)) then 1 else 0;
        p_delayed := if is_one (default JNull (assoc "isDly" fields)) then 1 else 0 |}.
Proof.
  intros Hlat Hlon Hheading Hrn Hraw Hsnap.
  unfold entry_result, train_entry.
  erewrite bind_Ok by (unfold lift; rewrite Hlat; reflexivity).
  erewrite bind_Ok by (unfold lift; rewrite Hlon; reflexivity).
  erewrite bind_Ok by reflexivity.
  erewrite bind_Ok by reflexivity.
  erewrite bind_Ok
    by (apply print_printable; unfold printable; rewrite Hrn, Hraw; reflexivity).
  erewrite bind_Ok by (unfold lift; rewrite Hsnap; reflexivity).
  destruct ENABLE_DEBUG.
  all: erewrite bind_Ok by reflexivity.
  all: erewrite bind_Ok by reflexivity.
  all: erewrite bind_Ok by (unfold lift; rewrite Hheading; reflexivity).
  all: reflexivity.
Qed.




(** A loop that returns has skipped what it did not convert. *)
Lemma trains_loop_returns route_code trains : forall out0 w out,
  fst (trains_loop route_code trains out0 w) = Ok out ->
  out = out0 ++ omap (entry_record route_code) trains.
Proof.
  induction trains as [|t rest IH]; intros out0 w out.
  - simpl. intros [= <-]. rewrite app_nil_r. reflexivity.
  - rewrite trains_loop_step. cbn [omap list_omap]. unfold entry_record at 1.
    destruct (entry_result route_code t) as [rec|e].
    + intros Hrest%IH. rewrite Hrest, <- app_assoc. reflexivity.
    + destruct (value_or_type_error e); [apply IH | discriminate].
Qed.

(** C1, as the code has it.  Take a response that carries blocks of trains
    and for which the fetcher returns.  What it returns are the records of
    the entries, in the order of the feed.  For an entry whose latitude,
    longitude and heading convert and whose run number and heading can be
    logged: when both coordinates are present and not zero, the snapper is
    called on them and, if it returns, the entry's record is among the
    records returned and carries the snapper's result; when either
    coordinate is missing, or is zero, the snapper is not called and the
    record carries the coordinates as parsed, the missing ones null. *)
Theorem fetch_snaps_present_coordinates
    (route_code : string) (w : world) (r : response) (blocks : list json)
    (trainss : list (list json)) (out : list position)
    (fields : list (string * json)) (lat lon : option float) (heading : option Z) :
  network (requests w) route_code = Some r ->
  carries_blocks r blocks ->
  Forall2 holds_trains blocks trainss ->
  fst (fetch_route_positions route_code w) = Ok out ->
  JObj fields ∈ concat trainss ->
  convert_if_present py_float (JObj fields) "lat" = Ok lat ->
  convert_if_present py_float (JObj fields) "lon" = Ok lon ->
  convert_if_present py_int (JObj fields) "heading" = Ok heading ->
  shown (default JNull (assoc "rn" fields)) = true ->
  shown (default JNull (assoc "heading" fields)) = true ->
  out = omap (entry_record route_code) (concat trainss) /\
  (forall la lo la' lo',
     lat = Some la -> lon = Some lo -> nonzero la = true -> nonzero lo = true ->
     filter_and_snap route_code la lo = Ok (la', lo') ->
     exists rec, rec ∈ out /\ entry_record route_code (JObj fields) = Some rec /\
       p_rn rec = default JNull (assoc "rn" fields) /\
       p_heading rec = heading /\
       p_lat rec = Some la' /\ p_lon rec = Some lo') /\
  (lat = None \/ lon = None \/ float_truthy lat = false \/ float_truthy lon = false ->
     exists rec, rec ∈ out /\ entry_record route_code (JObj fields) = Some rec /\
       p_rn rec = default JNull (assoc "rn" fields) /\
       p_heading rec = heading /\
       p_lat rec = lat /\ p_lon rec = lon).
Proof.
  intros Hnet Hr Hholds Hfetch Hin Hlat Hlon Hheading Hrn Hraw.
  rewrite (fetch_route_positions_blocks _ _ _ _ Hnet Hr) in Hfetch.
  rewrite (blocks_loop_flat _ _ _ _ _ Hholds) in Hfetch.
  apply trains_loop_returns in Hfetch. simpl in Hfetch.
  split; [exact Hfetch|].
  assert (Hyield : forall coords, snap_if_present route_code lat lon = Ok coords ->
    exists rec, rec ∈ out /\ entry_record route_code (JObj fields) = Some rec /\
      p_rn rec = default JNull (assoc "rn" fields) /\
      p_heading rec = heading /\
      p_lat rec = fst coords /\ p_lon rec = snd coords).
  { intros coords Hsnap.
    pose proof (entry_result_converts route_code fields lat lon heading coords
                  Hlat Hlon Hheading Hrn Hraw Hsnap) as Hrec.
    eexists. split; [|split; [unfold entry_record; rewrite Hrec; reflexivity|]].
    - rewrite Hfetch. apply list_elem_of_omap. exists (JObj fields).
      split; [exact Hin|]. unfold entry_record. rewrite Hrec. reflexivity.
    - repeat split; reflexivity. }
  split.
  - intros la lo la' lo' -> -> Hla Hlo Hsnap.
    apply (Hyield (Some la', Some lo')).
    unfold snap_if_present, float_truthy. rewrite Hla, Hlo, Hsnap. reflexivity.
  - intros Hmissing. apply (Hyield (lat, lon)).
    unfold snap_if_present. destruct lat as [la|], lon as [lo|]; try reflexivity.
    destruct Hmissing as [? | [? | [Hz | Hz]]]; try discriminate; rewrite Hz;
      [reflexivity | rewrite andb_false_r; reflexivity].
Qed.


(** C8, as the code has it: when the response is JSON whose status block
    reports an error code that is neither null nor ["0"], the fetcher
    prints the code and the message and returns the empty list, without
    raising, provided both can be written; if one of them is a str that
    cannot be encoded, the print raises and nothing is returned. *)
Theorem fetch_error_code_returns_empty
    (route_code : string) (w : world) (r : response) (data ctatt errCd : json) :
  network (requests w) route_code = Some r ->
  raise_for_status r = Ok tt ->
  contains "json" (lower (default "" (content_type r))) = true ->
  body r = Some data ->
  py_get data "ctatt" (JObj []) = Ok ctatt ->
  py_get ctatt "errCd" JNull = Ok errCd ->
  errCd <> JNull ->
  errCd <> JStr "0" ->
  exists errNm,
    py_get ctatt "errNm" JNull = Ok errNm /\
    fetch_route_positions route_code w =
    if shown errCd && shown errNm
    then (Ok [], add_events [EvPrint (MsgCtaError route_code errCd errNm)]
                   (after_get route_code w))
    else (Raise UnicodeEncodeError, after_get route_code w).
Proof.
  intros Hnet Hstatus Hct Hbody Hctatt HerrCd Hnull Hzero.
  assert (Hcode : no_error_code errCd = false).
  { destruct errCd; try reflexivity; [congruence|].
    simpl. apply String.eqb_neq. congruence. }
  destruct ctatt as [| | | | | | |fields]; try discriminate HerrCd.
  exists (default JNull (assoc "errNm" fields)). split; [reflexivity|].
  unfold fetch_route_positions.
  erewrite bind_Ok; [|unfold requests_get; rewrite Hnet; reflexivity].
  erewrite bind_Ok; [|unfold lift; rewrite Hstatus; reflexivity].
  fold (after_get route_code w).
  rewrite Hct. cbn [negb].
  erewrite bind_Ok; [|unfold lift, response_json; rewrite Hbody; reflexivity].
  erewrite bind_Ok; [|unfold lift; rewrite Hctatt; reflexivity].
  erewrite bind_Ok; [|unfold lift; rewrite HerrCd; reflexivity].
  rewrite Hcode. cbn [negb].
  erewrite bind_Ok by reflexivity.
  unfold mbind, M_bind, print, printable.
  destruct (shown errCd && shown _); reflexivity.
Qed.


(** X6: the fetcher raises a RequestException in exactly three cases: the
    request itself fails, the status is an HTTP error (400 to 599), or a
    response announced as JSON has a body that does not decode.  Nothing in
    the parsing of a decoded body raises one. *)
Theorem fetch_request_exception_iff (route_code : string) (w : world) :
  fst (fetch_route_positions route_code w) = Raise RequestException <->
  match network (requests w) route_code with
  | None => True
  | Some r =>
      (400 <= status_code r < 600)%Z \/
      (contains "json" (lower (default "" (content_type r))) = true /\ body r = None)
  end.
Proof.
  unfold fetch_route_positions, mbind at 1, M_bind at 1, requests_get.
  destruct (network (requests w) route_code) as [r|]; [|simpl; tauto].
  unfold mbind at 1, M_bind at 1, lift at 1, raise_for_status.
  destruct (400 <=? status_code r)%Z eqn:Hlo; destruct (status_code r <? 600)%Z eqn:Hhi;
    simpl andb; cbv iota.
  { simpl. split; [intros _; left|reflexivity].
    apply Z.leb_le in Hlo. apply Z.ltb_lt in Hhi. split; assumption. }
  all: assert (Hstatus : ~ (400 <= status_code r < 600)%Z)
    by (intros [Ha Hb]; try (apply Z.leb_le in Ha; congruence);
        apply Z.ltb_lt in Hb; congruence).
  all: destruct (contains "json" (lower (default "" (content_type r)))) eqn:Hct;
    cbn [negb];
    [|split; [discriminate | intros [? | [? _]]; [contradiction | discriminate]]].
  all: unfold mbind at 1, M_bind at 1, lift at 1, response_json;
    destruct (body r) as [data|] eqn:Hbody;
    [|simpl; split; [intros _; right; split; reflexivity | reflexivity]].
  all: split; [|intros [? | [_ ?]]; [contradiction | discriminate]].
  all: match goal with |- fst (?m ?w0) = _ -> _ =>
         destruct (m w0) as [[out|e] w1] eqn:Hrun; [discriminate|]
       end.
  all: intros [= ->]; apply parse_body_raises in Hrun; discriminate Hrun.
Qed.

(** X7: whatever the feed answers, and whether the fetcher returns or raises,
    a call sends exactly one request and otherwise only prints: the store
    and the clock are not touched. *)
Theorem fetch_sends_one_request (route_code : string) (w : world) :
  let w' := snd (fetch_route_positions route_code w) in
  db w' = db w /\
  clock_reads w' = clock_reads w /\
  requests w' = S (requests w) /\
  exists prints, Forall is_print prints /\ trace w' = trace w ++ EvGet route_code :: prints.
Proof.
  intros w'. subst w'.
  destruct (fetch_route_positions route_code w) as [res w'] eqn:Hrun.
  apply fetch_route_positions_frame in Hrun as (evs & Hevs & ->). simpl.
  repeat (split; [reflexivity|]).
  exists evs. split; [exact Hevs|]. rewrite <- app_assoc. reflexivity.
Qed.

(** X8: the keys the fetcher reads all have defaults: a decoded body without
    a status block, or with a status block that has neither an error code
    nor routes, gives the empty list, without a message and without an
    exception. *)
Theorem fetch_missing_keys_empty
    (route_code : string) (w : world) (r : response) (data : json)
    (status_block : list (string * json)) :
  network (requests w) route_code = Some r ->
  raise_for_status r = Ok tt ->
  contains "json" (lower (default "" (content_type r))) = true ->
  body r = Some data ->
  py_get data "ctatt" (JObj []) = Ok (JObj status_block) ->
  assoc "errCd" status_block = None ->
  assoc "route" status_block = None ->
  fetch_route_positions route_code w = (Ok [], after_get route_code w).
Proof.
  intros Hnet Hstatus Hct Hbody Hctatt HerrCd Hroute.
  rewrite (fetch_route_positions_blocks route_code w r [] Hnet); [reflexivity|].
  split; [exact Hstatus|]. split; [exact Hct|].
  exists data, (JObj status_block), JNull, (JArr []).
  split; [exact Hbody|]. split; [exact Hctatt|].
  simpl. rewrite HerrCd, Hroute. repeat split; reflexivity.
Qed.

(** X9: for a response that carries blocks of trains, the fetcher goes
    through the entries in the order of the feed: blocks in order, the
    entries of a block in order, a block without trains contributing
    nothing.  When the [try] body returns or raises a ValueError or a
    TypeError on every entry, the fetcher returns one record for each entry
    the body returns on and nothing for the others.  Otherwise it raises
    what the body raises on the first entry whose exception the [except]
    clause does not catch, and returns nothing. *)
Theorem fetch_returns_records_in_feed_order
    (route_code : string) (w : world) (r : response)
    (blocks : list json) (trainss : list (list json)) :
  network (requests w) route_code = Some r ->
  carries_blocks r blocks ->
  Forall2 holds_trains blocks trainss ->
  (Forall (handled route_code) (concat trainss) ->
   fst (fetch_route_positions route_code w) =
   Ok (omap (entry_record route_code) (concat trainss))) /\
  (forall pre t post e,
     concat trainss = pre ++ t :: post ->
     Forall (handled route_code) pre ->
     entry_result route_code t = Raise e ->
     value_or_type_error e = false ->
     fst (fetch_route_positions route_code w) = Raise e).
Proof.
  intros Hnet Hr Hholds.
  rewrite (fetch_route_positions_blocks _ _ _ _ Hnet Hr).
  rewrite (blocks_loop_flat _ _ _ _ _ Hholds).
  split.
  - intros Hall. apply (trains_loop_handled route_code _ [] _ Hall).
  - intros pre t post e -> Hpre Ht He. apply trains_loop_escapes; assumption.
Qed.
End FetcherProperties.

(** ** Snapshot store *)

Lemma collides_true new old :
  collides new old = true <->
  ts_utc new = ts_utc old /\ exists k, c_rn new = Some k /\ c_rn old = Some k.
Proof.
  unfold collides. rewrite andb_true_iff, String.eqb_eq. split.
  - intros [Hts Hrn]. split; [assumption|].
    destruct (c_rn new) as [a|], (c_rn old) as [b|]; try discriminate.
    apply String.eqb_eq in Hrn as ->. eauto.
  - intros [Hts (k & -> & ->)]. split; [assumption | apply String.eqb_refl].
Qed.

Lemma insert_or_ignore_cases rows new :
  (insert_or_ignore rows new = rows /\
   exists old, old ∈ rows /\ collides new old = true) \/
  (insert_or_ignore rows new = rows ++ [new] /\
   forall old, old ∈ rows -> collides new old = false).
Proof.
  unfold insert_or_ignore. destruct (existsb (collides new) rows) eqn:Hex.
  - left. split; [reflexivity|].
    apply existsb_exists in Hex as (old & Hin & Hc).
    exists old. split; [apply list_elem_of_In, Hin | assumption].
  - right. split; [reflexivity|]. intros old Hin.
    destruct (collides new old) eqn:Hc; [|reflexivity].
    rewrite <- Hex. symmetry. apply existsb_exists.
    exists old. split; [apply list_elem_of_In, Hin | assumption].
Qed.

Lemma insert_or_ignore_unique rows new :
  unique_index rows -> unique_index (insert_or_ignore rows new).
Proof.
  intros Huniq.
  destruct (insert_or_ignore_cases rows new) as [[-> _] | [-> Hfree]]; [assumption|].
  assert (Hclash : forall i r k, rows !! i = Some r -> ts_utc r = ts_utc new ->
                     c_rn r = Some k -> c_rn new = Some k -> False).
  { intros i r k Hi Hts Hr Hn.
    assert (Hc : collides new r = true) by (apply collides_true; eauto).
    rewrite Hfree in Hc; [discriminate|]. eapply list_elem_of_lookup_2, Hi. }
  intros i j r1 r2 k Hi Hj Hts H1 H2.
  apply lookup_snoc_Some in Hi as [[Hlti Hi] | [-> <-]];
    apply lookup_snoc_Some in Hj as [[Hltj Hj] | [-> <-]].
  - eapply Huniq; eassumption.
  - exfalso. eapply Hclash; eassumption.
  - exfalso. eapply Hclash; [eassumption | symmetry | |]; eassumption.
  - reflexivity.
Qed.

Lemma foldl_insert_unique news : forall rows,
  unique_index rows -> unique_index (foldl insert_or_ignore rows news).
Proof.
  induction news as [|new news IH]; intros rows Huniq; simpl; [assumption|].
  apply IH, insert_or_ignore_unique, Huniq.
Qed.

(** Rows are never removed, and what is added comes from the batch. *)
Lemma insert_or_ignore_keeps rows new r :
  r ∈ rows -> r ∈ insert_or_ignore rows new.
Proof.
  intros Hin. destruct (insert_or_ignore_cases rows new) as [[-> _] | [-> _]];
    [assumption | apply elem_of_app; left; assumption].
Qed.

Lemma foldl_insert_keeps news : forall rows r,
  r ∈ rows -> r ∈ foldl insert_or_ignore rows news.
Proof.
  induction news as [|new news IH]; intros rows r Hin; simpl; [assumption|].
  apply IH, insert_or_ignore_keeps, Hin.
Qed.

(** After the batch, every row of it is in the table, or a row with its
    timestamp and run number is. *)
Lemma foldl_insert_holds news : forall rows new,
  new ∈ news -> holds_row (foldl insert_or_ignore rows news) new.
Proof.
  induction news as [|n news IH]; intros rows new Hin; [inversion Hin|].
  simpl. apply elem_of_cons in Hin as [-> | Hin]; [|apply IH, Hin].
  destruct (insert_or_ignore_cases rows n) as [[-> (old & Hold & Hc)] | [-> _]].
  - apply collides_true in Hc as [Hts (k & Hn & Ho)].
    right. exists old, k. split; [apply foldl_insert_keeps, Hold|].
    split; [symmetry; assumption | split; assumption].
  - left. apply foldl_insert_keeps, elem_of_app. right. left.
Qed.

(** After the batch, every run number in it is in the table under its
    timestamp. *)
Lemma foldl_insert_present news rows new k :
  new ∈ news -> c_rn new = Some k ->
  exists r, r ∈ foldl insert_or_ignore rows news /\
            ts_utc r = ts_utc new /\ c_rn r = Some k.
Proof.
  intros Hin Hk. destruct (foldl_insert_holds news rows new Hin) as [Hnew | (r & k' & Hr & Hts & Hrk & Hnk)].
  - exists new. split; [assumption | split; [reflexivity | assumption]].
  - exists r. split; [assumption | split; [assumption | congruence]].
Qed.

Lemma foldl_insert_appends news : forall rows,
  exists added, foldl insert_or_ignore rows news = rows ++ added /\
                added `sublist_of` news.
Proof.
  induction news as [|new news IH]; intros rows; simpl.
  - exists []. split; [symmetry; apply app_nil_r | constructor].
  - destruct (IH (insert_or_ignore rows new)) as (added & -> & Hsub).
    destruct (insert_or_ignore_cases rows new) as [[-> _] | [-> _]].
    + exists added. split; [reflexivity | apply sublist_cons, Hsub].
    + exists (new :: added). split; [rewrite <- app_assoc; reflexivity|].
      apply sublist_skip, Hsub.
Qed.

Lemma has_key_true ts_iso k r :
  has_key ts_iso k r = true <-> ts_utc r = ts_iso /\ c_rn r = Some k.
Proof.
  unfold has_key. rewrite andb_true_iff, String.eqb_eq. split.
  - intros [Hts Hrn]. split; [assumption|].
    destruct (c_rn r) as [k'|]; [|discriminate]. apply String.eqb_eq in Hrn as ->. reflexivity.
  - intros [Hts ->]. split; [assumption | apply String.eqb_refl].
Qed.

Lemma unique_index_tail r rows : unique_index (r :: rows) -> unique_index rows.
Proof.
  intros Huniq i j r1 r2 k Hi Hj Hts H1 H2.
  assert (S i = S j) as [= ->]; [|reflexivity].
  eapply (Huniq (S i) (S j)); eassumption.
Qed.

(** Under the unique index, a key that is stored is stored exactly once. *)
Lemma unique_index_count ts_iso k rows :
  unique_index rows ->
  (exists r, r ∈ rows /\ ts_utc r = ts_iso /\ c_rn r = Some k) ->
  count_key ts_iso k rows = 1%nat.
Proof.
  unfold count_key. induction rows as [|r rows IH]; intros Huniq (r0 & Hin & Hts & Hk).
  - inversion Hin.
  - simpl. destruct (has_key ts_iso k r) eqn:Hr.
    + simpl. f_equal.
      destruct (List.filter (has_key ts_iso k) rows) as [|r' rest] eqn:Hf; [reflexivity|].
      exfalso.
      assert (Hr' : In r' (List.filter (has_key ts_iso k) rows)) by (rewrite Hf; left; reflexivity).
      apply filter_In in Hr' as [Hin' Hkey'].
      apply list_elem_of_In, list_elem_of_lookup_1 in Hin' as (j & Hj).
      apply has_key_true in Hr as [Hts1 Hk1]. apply has_key_true in Hkey' as [Hts2 Hk2].
      assert (0 = S j)%nat; [|discriminate].
      eapply (Huniq 0%nat (S j) r r' k); [reflexivity | exact Hj | congruence | assumption..].
    + apply IH; [eapply unique_index_tail, Huniq|].
      apply elem_of_cons in Hin as [-> | Hin].
      * assert (has_key ts_iso k r = true) by (apply has_key_true; split; assumption).
        congruence.
      * exists r0. split; [assumption | split; assumption].
Qed.

(** [unique_rows] decides [unique_index]. *)
Lemma unique_rows_spec rows : unique_rows rows = true <-> unique_index rows.
Proof.
  induction rows as [|r rows IH]; simpl.
  - split; [|reflexivity]. intros _ i j r1 r2 k Hi. rewrite lookup_nil in Hi. discriminate.
  - rewrite andb_true_iff, negb_true_iff, IH. split.
    + intros [Hfree Huniq] i j r1 r2 k Hi Hj Hts H1 H2.
      assert (Hclash : forall n r', rows !! n = Some r' -> ts_utc r = ts_utc r' ->
                         c_rn r = Some k -> c_rn r' = Some k -> False).
      { intros n r' Hn Hts' Hr Hr'.
        assert (Hc : existsb (collides r) rows = true); [|congruence].
        apply existsb_exists. exists r'. split.
        - apply list_elem_of_In. eapply list_elem_of_lookup_2, Hn.
        - apply collides_true. eauto. }
      destruct i as [|i], j as [|j]; simpl in Hi, Hj.
      * reflexivity.
      * injection Hi as <-. exfalso. eapply Hclash; eassumption.
      * injection Hj as <-. exfalso. eapply Hclash; [eassumption | symmetry | |]; eassumption.
      * f_equal. eapply Huniq; eassumption.
    + intros Huniq. split; [|eapply unique_index_tail, Huniq].
      destruct (existsb (collides r) rows) eqn:Hex; [|reflexivity].
      apply existsb_exists in Hex as (r' & Hin & Hc).
      apply list_elem_of_In, list_elem_of_lookup_1 in Hin as (n & Hn).
      apply collides_true in Hc as [Hts (k & Hr & Hr')].
      assert (0 = S n)%nat; [|discriminate].
      eapply (Huniq 0%nat (S n) r r' k); [reflexivity | exact Hn | assumption..].
Qed.

Lemma insert_rows_unique rows news :
  unique_index rows -> insert_rows rows news = foldl insert_or_ignore rows news.
Proof.
  intros Huniq%unique_rows_spec. unfold insert_rows. rewrite Huniq. reflexivity.
Qed.

Lemma insert_rows_appends rows news :
  exists added, insert_rows rows news = rows ++ added /\ added `sublist_of` news.
Proof.
  unfold insert_rows. destruct (unique_rows rows); [apply foldl_insert_appends|].
  exists news. split; reflexivity.
Qed.

Lemma insert_rows_origin rows news r :
  r ∈ insert_rows rows news -> r ∈ rows \/ r ∈ news.
Proof.
  destruct (insert_rows_appends rows news) as (added & -> & Hsub).
  intros [Hin | Hin]%elem_of_app; [left; exact Hin | right].
  eapply elem_of_sublist; eassumption.
Qed.

Lemma insert_rows_holds rows news new :
  new ∈ news -> holds_row (insert_rows rows news) new.
Proof.
  intros Hin. unfold insert_rows. destruct (unique_rows rows).
  - apply foldl_insert_holds, Hin.
  - left. apply elem_of_app. right. exact Hin.
Qed.

Section StoreProperties.
Context `{Sqlite}.

Lemma bind_text_raises v e :
  bind_text v = Raise e ->
  e = SqliteError \/ e = OverflowError \/ e = UnicodeEncodeError.
Proof.
  destruct v as [| | n | f | | | |]; simpl; try discriminate; try (intros [= <-]; tauto).
  - destruct (int64 n); [discriminate | intros [= <-]; tauto].
  - destruct f; discriminate.
Qed.

Lemma bind_integer_raises v e : bind_integer v = Raise e -> e = OverflowError.
Proof.
  destruct v as [n|]; simpl; [|discriminate].
  destruct (int64 n); [discriminate | congruence].
Qed.

(** What a row that binds looks like. *)
Lemma bind_row_inv ts_iso r new :
  bind_row (ts_iso, r) = Ok new ->
  ts_utc new = ts_iso /\ bind_text (p_rn r) = Ok (c_rn new).
Proof.
  cbn [bind_row]. unfold mbind, result_bind, mret, result_ret.
  destruct (bind_text (p_rn r)) as [rn|]; [|discriminate].
  destruct (bind_text (p_next_station r)) as [ns|]; [|discriminate].
  destruct (bind_integer (p_heading r)) as [h|]; [|discriminate].
  intros [= <-]. split; reflexivity.
Qed.

Lemma bind_row_raises val e :
  bind_row val = Raise e ->
  e = SqliteError \/ e = OverflowError \/ e = UnicodeEncodeError.
Proof.
  destruct val as [ts_iso r]. cbn [bind_row]. unfold mbind, result_bind, mret, result_ret.
  destruct (bind_text (p_rn r)) as [rn|e1] eqn:Hrn;
    [|intros [= <-]; eapply bind_text_raises, Hrn].
  destruct (bind_text (p_next_station r)) as [ns|e2] eqn:Hns;
    [|intros [= <-]; eapply bind_text_raises, Hns].
  destruct (bind_integer (p_heading r)) as [h|e3] eqn:Hh; [discriminate|].
  intros [= <-]. apply bind_integer_raises in Hh as ->. tauto.
Qed.

Lemma bind_rows_cons val vals news :
  bind_rows (val :: vals) = Ok news ->
  exists new rest, bind_row val = Ok new /\ bind_rows vals = Ok rest /\ news = new :: rest.
Proof.
  cbn [bind_rows]. unfold mbind, result_bind, mret, result_ret.
  destruct (bind_row val) as [new|]; [|discriminate].
  destruct (bind_rows vals) as [rest|]; [|discriminate].
  intros [= <-]. eauto.
Qed.

Lemma bind_rows_raises vals e :
  bind_rows vals = Raise e ->
  e = SqliteError \/ e = OverflowError \/ e = UnicodeEncodeError.
Proof.
  induction vals as [|val vals IH]; [discriminate|].
  cbn [bind_rows]. unfold mbind, result_bind, mret, result_ret.
  destruct (bind_row val) as [new|e1] eqn:Hrow;
    [|intros [= <-]; eapply bind_row_raises, Hrow].
  destruct (bind_rows vals) as [news|e3]; [discriminate|].
  intros [= <-]. apply IH. reflexivity.
Qed.

Lemma bind_rows_length vals : forall news,
  bind_rows vals = Ok news -> length news = length vals.
Proof.
  induction vals as [|val vals IH]; intros news.
  - intros [= <-]. reflexivity.
  - intros (new & rest & _ & Hrest & ->)%bind_rows_cons.
    simpl. f_equal. apply IH, Hrest.
Qed.

Lemma bind_rows_stamp ts_iso rows : forall news,
  bind_rows (map (fun r => (ts_iso, r)) rows) = Ok news ->
  (forall new, new ∈ news -> ts_utc new = ts_iso) /\
  (forall r k, r ∈ rows -> bind_text (p_rn r) = Ok (Some k) ->
     exists new, new ∈ news /\ c_rn new = Some k).
Proof.
  induction rows as [|r rows IH]; intros news Hbind; cbn [List.map] in Hbind.
  - injection Hbind as <-. split; [intros new Hin | intros r k Hin]; inversion Hin.
  - apply bind_rows_cons in Hbind as (new & rest & Hrow & Hrest & ->).
    apply bind_row_inv in Hrow as [Hts Hrn].
    destruct (IH _ Hrest) as [Hstamp Hrun]. split.
    + intros new' [-> | Hin]%elem_of_cons; [exact Hts | apply Hstamp, Hin].
    + intros r0 k [-> | Hin]%elem_of_cons Hk.
      * exists new. split; [left | congruence].
      * destruct (Hrun _ _ Hin Hk) as (new' & Hnew & Hkey).
        exists new'. split; [right; assumption | assumption].
Qed.

(** What a batch that binds does to its table. *)
Lemma insert_snapshot_table table ts_iso rows w old news :
  db w !! table = Some old ->
  bind_rows (map (fun r => (ts_iso, r)) rows) = Ok news ->
  fst (insert_snapshot table ts_iso rows w) = Ok tt /\
  db (snd (insert_snapshot table ts_iso rows w)) !! table =
    Some (match rows with [] => old | _ => insert_rows old news end).
Proof.
  intros Hold Hbind. destruct rows as [|r rows].
  - split; [reflexivity | assumption].
  - unfold insert_snapshot, executemany. rewrite Hold, Hbind. simpl.
    split; [reflexivity | apply lookup_insert_eq].
Qed.

(** Under the unique index the rows go in one by one, each unless it collides. *)
Lemma insert_snapshot_indexed table ts_iso rows w old news :
  db w !! table = Some old ->
  unique_index old ->
  bind_rows (map (fun r => (ts_iso, r)) rows) = Ok news ->
  db (snd (insert_snapshot table ts_iso rows w)) !! table =
    Some (foldl insert_or_ignore old news).
Proof.
  intros Hold Huniq Hbind.
  destruct (insert_snapshot_table _ _ _ _ _ _ Hold Hbind) as [_ ->].
  destruct rows as [|r rows]; [injection Hbind as <-; reflexivity|].
  rewrite insert_rows_unique by exact Huniq. reflexivity.
Qed.

(** Whatever the batch, the store keeps its unique index. *)
Lemma insert_snapshot_keeps_unique table ts_iso rows w :
  db_unique (db w) -> db_unique (db (snd (insert_snapshot table ts_iso rows w))).
Proof.
  intros Huniq. destruct rows as [|r0 rows]; [exact Huniq|].
  unfold insert_snapshot, executemany.
  destruct (db w !! table) as [old|] eqn:Hold; [|exact Huniq].
  destruct (bind_rows _) as [news|]; [|exact Huniq].
  intros t rows' Hrows'. simpl in Hrows'.
  apply lookup_insert_Some in Hrows' as [[<- <-] | [_ Hrows']].
  - rewrite insert_rows_unique by (eapply Huniq, Hold).
    apply foldl_insert_unique. eapply Huniq, Hold.
  - eapply Huniq, Hrows'.
Qed.

(** C10: with an empty record list [insert_snapshot] returns at once: the
    world, its store and its trace of store operations included, is left as
    it was, for every table name and timestamp.  Only a non-empty list
    reaches the store: its [executemany] is the one event added. *)
Theorem insert_snapshot_empty_is_noop (table ts_iso : string) (w : world) :
  insert_snapshot table ts_iso [] w = (Ok tt, w) /\
  forall rows, rows <> [] ->
    trace (snd (insert_snapshot table ts_iso rows w)) =
    trace w ++ [EvExecutemany table (map (fun r => (ts_iso, r)) rows)].
Proof.
  split; [reflexivity|].
  intros [|r rows] Hrows; [contradiction|].
  unfold insert_snapshot, executemany.
  destruct (db w !! table); [destruct (bind_rows _)|]; reflexivity.
Qed.

(** X10: a batch that fails leaves no trace in the store.  [insert_snapshot]
    raises only for a non-empty batch, and only a database error, when the
    table does not exist or a value is a list or a dict, an OverflowError,
    when an int does not fit 64 bits, or a UnicodeEncodeError, when a str
    cannot be encoded; the store is then as it was, the rows of the batch
    that came before the bad one included. *)
Theorem insert_snapshot_failure_stores_nothing
    (table ts_iso : string) (rows : list position) (w : world) (e : exn) :
  fst (insert_snapshot table ts_iso rows w) = Raise e ->
  (e = SqliteError \/ e = OverflowError \/ e = UnicodeEncodeError) /\
  db (snd (insert_snapshot table ts_iso rows w)) = db w /\
  rows <> [] /\
  ((db w !! table = None /\ e = SqliteError) \/
   bind_rows (map (fun r => (ts_iso, r)) rows) = Raise e).
Proof.
  destruct rows as [|r rows]; [discriminate|].
  unfold insert_snapshot, executemany.
  destruct (db w !! table) as [old|].
  - destruct (bind_rows _) as [news|e'] eqn:Hbind; [discriminate|].
    simpl. intros [= <-]. split; [eapply bind_rows_raises, Hbind|].
    repeat split; [discriminate | right; reflexivity].
  - simpl. intros [= <-]. split; [tauto|].
    repeat split; [discriminate | left; split; reflexivity].
Qed.

(** X11: the store only grows, and only in the table named: whatever the
    batch and the outcome, no table appears or disappears, every other table
    is as it was, and the table itself keeps its rows, in their order, in
    front of the rows added; those are at most as many as the batch has
    records and all carry the batch's timestamp. *)
Theorem insert_snapshot_only_appends
    (table ts_iso : string) (rows : list position) (w : world) (t : string) :
  let w' := snd (insert_snapshot table ts_iso rows w) in
  match db w !! t with
  | None => db w' !! t = None
  | Some old =>
      exists added,
        db w' !! t = Some (old ++ added) /\
        (t <> table -> added = []) /\
        length added <= length rows /\
        Forall (fun r => ts_utc r = ts_iso) added
  end.
Proof.
  intros w'. subst w'.
  assert (Hsame : db (snd (insert_snapshot table ts_iso rows w)) = db w ->
    match db w !! t with
    | None => db (snd (insert_snapshot table ts_iso rows w)) !! t = None
    | Some old =>
        exists added,
          db (snd (insert_snapshot table ts_iso rows w)) !! t = Some (old ++ added) /\
          (t <> table -> added = []) /\ length added <= length rows /\
          Forall (fun r => ts_utc r = ts_iso) added
    end).
  { intros ->. destruct (db w !! t) as [old|]; [|reflexivity].
    exists []. rewrite app_nil_r.
    split; [reflexivity|]. split; [reflexivity|]. split; [simpl; lia | constructor]. }
  destruct rows as [|r rows]; [apply Hsame; reflexivity|].
  revert Hsame. unfold insert_snapshot, executemany.
  destruct (db w !! table) as [old|] eqn:Hold; [|intros Hsame; apply Hsame; reflexivity].
  destruct (bind_rows _) as [news|e'] eqn:Hbind; [|intros Hsame; apply Hsame; reflexivity].
  intros _. simpl.
  destruct (decide (t = table)) as [-> | Hne].
  - rewrite Hold, lookup_insert_eq.
    destruct (insert_rows_appends old news) as (added & -> & Hsub).
    exists added. split; [reflexivity|]. split; [congruence|]. split.
    + apply sublist_length in Hsub. apply bind_rows_length in Hbind.
      rewrite length_map in Hbind. simpl in Hbind. lia.
    + apply Forall_forall. intros r0 Hr0.
      eapply (bind_rows_stamp ts_iso (r :: rows)); [exact Hbind|].
      eapply elem_of_sublist; eassumption.
  - rewrite lookup_insert_ne by congruence.
    destruct (db w !! t) as [old'|]; [|reflexivity].
    exists []. rewrite app_nil_r.
    split; [reflexivity|]. split; [reflexivity|]. split; [simpl; lia | constructor].
Qed.

(** X12: the first writer wins: once a table that keeps the unique index
    holds a row for a timestamp and a run number, no later batch replaces or
    doubles it; after any insert the only row of the table with that
    timestamp and run number is still that row, with the position it was
    stored with. *)
Theorem insert_snapshot_never_overwrites
    (table ts_iso : string) (rows : list position) (w : world)
    (old : list row) (kept : row) (k : string) :
  db w !! table = Some old ->
  unique_index old ->
  kept ∈ old ->
  c_rn kept = Some k ->
  exists stored,
    db (snd (insert_snapshot table ts_iso rows w)) !! table = Some stored /\
    kept ∈ stored /\
    forall r, r ∈ stored -> ts_utc r = ts_utc kept -> c_rn r = Some k -> r = kept.
Proof.
  intros Hold Huniq Hkept Hk.
  assert (Hgoal : forall stored, unique_index stored -> kept ∈ stored ->
    forall r, r ∈ stored -> ts_utc r = ts_utc kept -> c_rn r = Some k -> r = kept).
  { intros stored Hu Hin r Hr Hts Hrn.
    apply list_elem_of_lookup_1 in Hin as (i & Hi).
    apply list_elem_of_lookup_1 in Hr as (j & Hj).
    assert (j = i) as -> by (eapply Hu; eassumption).
    congruence. }
  destruct rows as [|r0 rows].
  { exists old. split; [exact Hold|]. split; [exact Hkept | apply Hgoal; assumption]. }
  unfold insert_snapshot, executemany. rewrite Hold.
  destruct (bind_rows _) as [news|e'];
    [|exists old; split; [exact Hold|]; split; [exact Hkept | apply Hgoal; assumption]].
  simpl. rewrite lookup_insert_eq, insert_rows_unique by exact Huniq.
  eexists. split; [reflexivity|].
  split; [apply foldl_insert_keeps, Hkept|].
  apply Hgoal; [apply foldl_insert_unique, Huniq | apply foldl_insert_keeps, Hkept].
Qed.

(** [create_table] changes nothing but the store, and the store only by an
    empty table under its name; it fails on a table whose rows collide. *)
Lemma create_table_spec table w r w' :
  create_table table w = (r, w') ->
  trace w' = trace w /\ clock_reads w' = clock_reads w /\ requests w' = requests w /\
  (forall t, db w' !! t = match db w !! t with
                          | Some rows => Some rows
                          | None => if decide (t = table) then
                                      match r with Ok _ => Some [] | Raise _ => None end
                                    else None
                          end) /\
  match r with
  | Ok _ => forall rows, db w !! table = Some rows -> unique_index rows
  | Raise e => e = SqliteError /\
               exists rows, db w !! table = Some rows /\ ~ unique_index rows
  end.
Proof.
  unfold create_table. destruct (db w !! table) as [rows0|] eqn:Ht0.
  - assert (Hsame : forall t, db w !! t = match db w !! t with
        | Some rows => Some rows
        | None => if decide (t = table)
                  then match r with Ok _ => Some [] | Raise _ => None end else None
        end).
    { intros t. destruct (db w !! t) eqn:Ht; [reflexivity|].
      destruct (decide (t = table)) as [-> |]; [congruence | reflexivity]. }
    destruct (unique_rows rows0) eqn:Hu; intros [= <- <-];
      (do 3 (split; [reflexivity|])); (split; [exact Hsame|]).
    + intros rows [= <-]. apply unique_rows_spec, Hu.
    + split; [reflexivity|]. exists rows0. split; [reflexivity|].
      intros Huniq%unique_rows_spec. congruence.
  - intros [= <- <-]. do 3 (split; [reflexivity|]). split; [|discriminate].
    intros t. simpl.
    destruct (decide (t = table)) as [-> | Hne].
    + rewrite lookup_insert_eq, Ht0. reflexivity.
    + rewrite lookup_insert_ne by congruence. destruct (db w !! t); reflexivity.
Qed.

(** The same for a list of tables: what was there stays, what is created is
    empty and among the names; all goes well exactly when no table that is
    there and named has colliding rows. *)
Lemma create_tables_spec tables : forall w r w',
  create_tables tables w = (r, w') ->
  trace w' = trace w /\ clock_reads w' = clock_reads w /\ requests w' = requests w /\
  (forall t rows, db w !! t = Some rows -> db w' !! t = Some rows) /\
  (forall t, db w !! t = None ->
     db w' !! t = None \/ (t ∈ tables /\ db w' !! t = Some [])) /\
  match r with
  | Ok _ =>
      (forall t rows, t ∈ tables -> db w !! t = Some rows -> unique_index rows) /\
      (forall t, t ∈ tables -> is_Some (db w' !! t))
  | Raise e =>
      e = SqliteError /\
      exists t rows, t ∈ tables /\ db w !! t = Some rows /\ ~ unique_index rows
  end.
Proof.
  induction tables as [|t0 tables IH]; intros w r w'.
  - simpl. intros [= <- <-]. do 3 (split; [reflexivity|]).
    split; [tauto|]. split; [left; assumption|].
    split; intros t; [intros rows Hin | intros Hin]; inversion Hin.
  - cbn [create_tables]. unfold mbind, M_bind.
    destruct (create_table t0 w) as [[[]|e] w1] eqn:Hstep;
      apply create_table_spec in Hstep as (Htr1 & Hcl1 & Hrq1 & Hdb1 & Hres1).
    + intros Hrest. apply IH in Hrest as (Htr & Hcl & Hrq & Hkeep & Hnew & Hres).
      split; [congruence|]. split; [congruence|]. split; [congruence|].
      assert (Hkeep1 : forall t rows, db w !! t = Some rows -> db w1 !! t = Some rows).
      { intros t rows Ht. rewrite Hdb1, Ht. reflexivity. }
      split; [intros t rows Ht; apply Hkeep, Hkeep1, Ht|]. split.
      * intros t Ht. specialize (Hdb1 t). rewrite Ht in Hdb1.
        destruct (decide (t = t0)) as [-> | Hne].
        -- right. split; [left | apply Hkeep, Hdb1].
        -- destruct (Hnew t Hdb1) as [Hnone | [Hin Hempty]];
             [left; exact Hnone | right; split; [right; exact Hin | exact Hempty]].
      * destruct r as [[]|e].
        -- destruct Hres as [Huniq Hsome]. split.
           ++ intros t rows [-> | Hin]%elem_of_cons Ht; [apply Hres1, Ht|].
              eapply Huniq; [exact Hin | apply Hkeep1, Ht].
           ++ intros t [-> | Hin]%elem_of_cons; [|apply Hsome, Hin].
              specialize (Hdb1 t0). destruct (db w !! t0) as [rows|].
              ** exists rows. apply Hkeep, Hdb1.
              ** rewrite decide_True in Hdb1 by reflexivity. exists []. apply Hkeep, Hdb1.
        -- destruct Hres as (-> & t & rows & Hin & Ht & Hdup). split; [reflexivity|].
           specialize (Hdb1 t). destruct (db w !! t) as [rows0|] eqn:Ht0.
           ++ exists t, rows0. split; [right; exact Hin|]. split; [exact Ht0|]. congruence.
           ++ exfalso. destruct (decide (t = t0)); [|congruence].
              assert (rows = []) as -> by congruence.
              apply Hdup. intros i j r1 r2 k Hi. rewrite lookup_nil in Hi. discriminate.
    + intros [= <- <-]. destruct Hres1 as (-> & rows & Ht0 & Hdup).
      split; [exact Htr1|]. split; [exact Hcl1|]. split; [exact Hrq1|].
      split; [intros t rows' Ht; rewrite Hdb1, Ht; reflexivity|].
      split.
      * intros t Ht. left. rewrite Hdb1, Ht. destruct (decide _); reflexivity.
      * split; [reflexivity|]. exists t0, rows. split; [left | split; assumption].
Qed.

(** On a store whose route tables can carry the index, [ensure_db]
    succeeds and leaves every route with a table. *)
Lemma ensure_db_indexable w :
  routes_indexable (db w) ->
  exists w', ensure_db w = (Ok tt, w') /\
    forall rt table, (rt, table) ∈ ROUTES -> is_Some (db w' !! table).
Proof.
  intros Hfits. unfold ensure_db.
  destruct (create_tables (map snd ROUTES) w) as [r w'] eqn:Hrun.
  pose proof (create_tables_spec _ _ _ _ Hrun) as (_ & _ & _ & _ & _ & Hres).
  destruct r as [[]|e].
  - exists w'. split; [reflexivity|]. intros rt table Hin.
    apply Hres, list_elem_of_fmap. exists (rt, table). split; [reflexivity | exact Hin].
  - exfalso. destruct Hres as (_ & t & rows & Hin & Ht & Hdup).
    apply Hdup. eapply Hfits; eassumption.
Qed.

(** X13: [ensure_db] is safe on every start of a store it has made: it
    succeeds exactly when no route table that is there has two rows with
    the same timestamp and run number, and otherwise raises a database
    error.  Either way it leaves every table that is there with the rows it
    has, creates only empty tables, and only under route names.  When it
    succeeds every route has a table, and running it again changes
    nothing. *)
Theorem ensure_db_creates_missing_tables_only (w : world) :
  let w' := snd (ensure_db w) in
  (fst (ensure_db w) = Ok tt <-> routes_indexable (db w)) /\
  (forall e, fst (ensure_db w) = Raise e -> e = SqliteError) /\
  (forall t rows, db w !! t = Some rows -> db w' !! t = Some rows) /\
  (forall t, db w !! t = None -> db w' !! t = None \/ db w' !! t = Some []) /\
  (forall t, t ∉ map snd ROUTES -> db w' !! t = db w !! t) /\
  (fst (ensure_db w) = Ok tt ->
   (forall rt table, (rt, table) ∈ ROUTES -> is_Some (db w' !! table)) /\
   ensure_db w' = (Ok tt, w')).
Proof.
  intros w'. subst w'. unfold ensure_db.
  destruct (create_tables (map snd ROUTES) w) as [r w1] eqn:Hrun.
  pose proof (create_tables_spec _ _ _ _ Hrun) as (Htr & Hcl & Hrq & Hkeep & Hnew & Hres).
  cbn [fst snd].
  split; [|split; [|split; [exact Hkeep | split; [|split]]]].
  - destruct r as [[]|e].
    + split; [intros _ | reflexivity]. intros table rows Hin Ht. eapply Hres; eassumption.
    + split; [discriminate|]. intros Hfits. exfalso.
      destruct Hres as (_ & t & rows & Hin & Ht & Hdup). apply Hdup. eapply Hfits; eassumption.
  - intros e ->. apply Hres.
  - intros t Ht. destruct (Hnew t Ht) as [Hnone | [_ Hempty]]; [left | right]; assumption.
  - intros t Hnin. destruct (db w !! t) as [rows|] eqn:Ht; [apply Hkeep, Ht|].
    destruct (Hnew t Ht) as [Hnone | [Hin _]]; [exact Hnone | contradiction].
  - intros ->. destruct Hres as [Huniq Hsome]. split.
    + intros rt table Hin. apply Hsome, list_elem_of_fmap.
      exists (rt, table). split; [reflexivity | exact Hin].
    + destruct (create_tables (map snd ROUTES) w1) as [r2 w2] eqn:Hrun2.
      pose proof (create_tables_spec _ _ _ _ Hrun2)
        as (Htr2 & Hcl2 & Hrq2 & Hkeep2 & Hnew2 & Hres2).
      assert (Hsame : db w2 = db w1).
      { apply map_eq. intros t. destruct (db w1 !! t) as [rows|] eqn:Ht; [apply Hkeep2, Ht|].
        destruct (Hnew2 t Ht) as [Hnone | [Hin _]]; [exact Hnone|].
        apply Hsome in Hin as [rows Hrows]. congruence. }
      assert (r2 = Ok tt) as ->.
      { destruct r2 as [[]|e]; [reflexivity|]. exfalso.
        destruct Hres2 as (_ & t & rows & Hin & Ht & Hdup). apply Hdup.
        destruct (db w !! t) as [rows0|] eqn:Ht0.
        - rewrite (Hkeep _ _ Ht0) in Ht. injection Ht as <-. eapply Huniq; eassumption.
        - destruct (Hnew t Ht0) as [Hnone | [_ Hempty]]; [congruence|].
          assert (rows = []) as -> by congruence.
          intros i j r1 r2 k Hi. rewrite lookup_nil in Hi. discriminate. }
      f_equal. destruct w1, w2. cbn [db trace clock_reads requests] in *. congruence.
Qed.
End StoreProperties.

(** ** Relations every run respects *)

Section Respects.
Context (S : world -> world -> Prop) `{!PreOrder S}.

Lemma respects_ret {A} (a : A) : respects S (mret a).
Proof. intros w r w' [_ ->]%ret_inv. reflexivity. Qed.

Lemma respects_bind {A B} (m : M A) (f : A -> M B) :
  respects S m -> (forall a, respects S (f a)) -> respects S (m ≫= f).
Proof.
  intros Hm Hf w r w'. unfold mbind, M_bind.
  destruct (m w) as [[a|e] w1] eqn:Hrun.
  - intros Hrun'. transitivity w1; [eapply Hm, Hrun | eapply Hf, Hrun'].
  - intros [= _ <-]. eapply Hm, Hrun.
Qed.

Lemma respects_try {A} (body handler : M A) catches :
  respects S body -> respects S handler -> respects S (try_except body catches handler).
Proof.
  intros Hb Hh w r w'. unfold try_except.
  destruct (body w) as [[a|e] w1] eqn:Hrun.
  - intros [= _ <-]. eapply Hb, Hrun.
  - destruct (catches e).
    + intros Hrun'. transitivity w1; [eapply Hb, Hrun | eapply Hh, Hrun'].
    + intros [= _ <-]. eapply Hb, Hrun.
Qed.

Lemma respects_print m :
  (forall w, S w (add_event (EvPrint m) w)) -> respects S (print m).
Proof.
  intros He w r w'. destruct (print_cases m w) as [[_ ->] | [_ ->]]; intros [= _ <-].
  - apply He.
  - reflexivity.
Qed.

Lemma respects_sleep `{Outside} seconds :
  (forall w, S w (add_event (EvSleep seconds) w)) -> respects S (sleep seconds).
Proof.
  intros He w r w' [(_ & -> & _) | [-> _]]%sleep_cases; [apply He | reflexivity].
Qed.
End Respects.

#[export] Instance keeps_unique_preorder : PreOrder keeps_unique.
Proof.
  split.
  - intros w Huniq. assumption.
  - intros w1 w2 w3 H12 H23 Huniq. apply H23, H12, Huniq.
Qed.

Lemma is_print_stamped ts_iso evs :
  Forall is_print evs -> Forall (stamped ts_iso) evs.
Proof.
  intros Hp. eapply Forall_impl; [exact Hp|].
  intros [] Hx; simpl in *; tauto.
Qed.

#[export] Instance within_cycle_preorder ts_iso : PreOrder (within_cycle ts_iso).
Proof.
  split.
  - intros w. split; [reflexivity|]. split.
    + exists []. split; [symmetry; apply app_nil_r | constructor].
    + intros table rows' Hrows'. exists rows'. split; [assumption | intros r Hr; left; assumption].
  - intros w1 w2 w3 (Hc12 & (evs12 & Ht12 & Hs12) & Hdb12) (Hc23 & (evs23 & Ht23 & Hs23) & Hdb23).
    split; [congruence|]. split.
    + exists (evs12 ++ evs23). split; [rewrite Ht23, Ht12, app_assoc; reflexivity|].
      apply Forall_app. split; assumption.
    + intros table rows3 Hrows3.
      destruct (Hdb23 _ _ Hrows3) as (rows2 & Hrows2 & H32).
      destruct (Hdb12 _ _ Hrows2) as (rows1 & Hrows1 & H21).
      exists rows1. split; [assumption|].
      intros r Hr. destruct (H32 _ Hr) as [Hr2 | Hts]; [apply H21, Hr2 | right; assumption].
Qed.

(** Events are appended and the store is untouched. *)
Lemma within_cycle_events ts_iso evs w w' :
  Forall (stamped ts_iso) evs ->
  db w' = db w -> clock_reads w' = clock_reads w -> trace w' = trace w ++ evs ->
  within_cycle ts_iso w w'.
Proof.
  intros Hevs Hdb Hclock Htrace. split; [assumption|]. split.
  - exists evs. split; assumption.
  - intros table rows' Hrows'. rewrite Hdb in Hrows'.
    exists rows'. split; [assumption | intros r Hr; left; assumption].
Qed.

#[export] Instance append_only_preorder : PreOrder append_only.
Proof.
  split.
  - intros w table old Hold. exists old. split; [assumption | reflexivity].
  - intros w1 w2 w3 H12 H23 table old Hold.
    destruct (H12 _ _ Hold) as (mid & Hmid & Hp1).
    destruct (H23 _ _ Hmid) as (new & Hnew & Hp2).
    exists new. split; [assumption | etransitivity; eassumption].
Qed.

Lemma append_only_same_db w w' : db w' = db w -> append_only w w'.
Proof.
  intros Hdb table old Hold. rewrite Hdb. exists old. split; [assumption | reflexivity].
Qed.

Lemma gets_app evs1 evs2 : gets (evs1 ++ evs2) = gets evs1 ++ gets evs2.
Proof.
  induction evs1 as [|e evs1 IH]; [reflexivity|].
  destruct e; simpl; rewrite IH; reflexivity.
Qed.

Lemma gets_prints evs : Forall is_print evs -> gets evs = [].
Proof.
  induction 1 as [|e evs He _ IH]; [reflexivity|].
  destruct e; simpl in *; try contradiction. exact IH.
Qed.

#[export] Instance quiet_preorder : PreOrder quiet.
Proof.
  split.
  - intros w. exists []. split; [symmetry; apply app_nil_r | reflexivity].
  - intros w1 w2 w3 (evs12 & Ht12 & Hg12) (evs23 & Ht23 & Hg23).
    exists (evs12 ++ evs23). split; [rewrite Ht23, Ht12, app_assoc; reflexivity|].
    rewrite gets_app, Hg12, Hg23. reflexivity.
Qed.

#[export] Instance same_counters_preorder : PreOrder same_counters.
Proof.
  split.
  - intros w. split; reflexivity.
  - intros w1 w2 w3 [Hc12 Hr12] [Hc23 Hr23]. split; congruence.
Qed.

(** A row that the table holds is held by every table that extends it. *)
Lemma holds_row_prefix old new r :
  old `prefix_of` new -> holds_row old r -> holds_row new r.
Proof.
  intros [more ->] [Hin | (r0 & k & Hin & Hrest)].
  - left. apply elem_of_app. left. exact Hin.
  - right. exists r0, k. split; [apply elem_of_app; left; exact Hin | exact Hrest].
Qed.

(** ** Poller *)

Section PollerProperties.
Context `{Python} `{RouteIndex} `{Outside} `{Config} `{Sqlite}.

Lemma fetch_keeps_unique route_code :
  respects keeps_unique (fetch_route_positions route_code).
Proof.
  intros w r w' Hrun. apply fetch_route_positions_frame in Hrun as (evs & _ & ->).
  intros Huniq. exact Huniq.
Qed.

Lemma fetch_within_cycle ts_iso route_code :
  respects (within_cycle ts_iso) (fetch_route_positions route_code).
Proof.
  intros w r w' Hrun. apply fetch_route_positions_frame in Hrun as (evs & Hevs & ->).
  apply within_cycle_events with (evs := EvGet route_code :: evs);
    [|reflexivity | reflexivity |].
  - constructor; [exact I | apply is_print_stamped, Hevs].
  - simpl. rewrite <- app_assoc. reflexivity.
Qed.

Lemma fetch_append_only route_code :
  respects append_only (fetch_route_positions route_code).
Proof.
  intros w r w' Hrun. apply fetch_route_positions_frame in Hrun as (evs & _ & ->).
  apply append_only_same_db. reflexivity.
Qed.

Lemma insert_snapshot_respects_unique table ts_iso rows :
  respects keeps_unique (insert_snapshot table ts_iso rows).
Proof.
  intros w r w' Hrun Huniq.
  replace w' with (snd (insert_snapshot table ts_iso rows w)) by (rewrite Hrun; reflexivity).
  apply insert_snapshot_keeps_unique, Huniq.
Qed.

Lemma insert_snapshot_within_cycle table ts_iso rows :
  respects (within_cycle ts_iso) (insert_snapshot table ts_iso rows).
Proof.
  intros w r w' Hrun. destruct rows as [|r0 rows].
  - injection Hrun as _ <-. reflexivity.
  - unfold insert_snapshot, executemany in Hrun.
    set (vals := map (fun r => (ts_iso, r)) (r0 :: rows)) in *.
    assert (Hvals : Forall (stamped ts_iso) [EvExecutemany table vals]).
    { constructor; [|constructor]. simpl. subst vals.
      apply Forall_forall. intros val Hin.
      apply list_elem_of_In, in_map_iff in Hin as (r1 & <- & _). reflexivity. }
    destruct (db w !! table) as [old|] eqn:Hold;
      [|injection Hrun as _ <-; eapply within_cycle_events; [exact Hvals | reflexivity..]].
    destruct (bind_rows vals) as [news|] eqn:Hbind; injection Hrun as _ <-;
      [|eapply within_cycle_events; [exact Hvals | reflexivity..]].
    split; [reflexivity|]. split; [exists [EvExecutemany table vals]; split; [reflexivity | exact Hvals]|].
    intros t rows' Hrows'. simpl in Hrows'.
    apply lookup_insert_Some in Hrows' as [[<- <-] | [_ Hrows']].
    + exists old. split; [assumption|]. intros r1 Hr1.
      apply insert_rows_origin in Hr1 as [Hr1 | Hr1]; [left; assumption | right].
      eapply bind_rows_stamp; eassumption.
    + exists rows'. split; [assumption | intros r1 Hr1; left; assumption].
Qed.

Lemma insert_snapshot_append_only table ts_iso rows :
  respects append_only (insert_snapshot table ts_iso rows).
Proof.
  intros w r w' Hrun. destruct rows as [|r0 rows].
  - injection Hrun as _ <-. reflexivity.
  - unfold insert_snapshot, executemany in Hrun.
    destruct (db w !! table) as [old|] eqn:Hold;
      [|injection Hrun as _ <-; apply append_only_same_db; reflexivity].
    destruct (bind_rows _) as [news|]; injection Hrun as _ <-;
      [|apply append_only_same_db; reflexivity].
    intros t old' Hold'. simpl.
    destruct (decide (t = table)) as [-> | Hne].
    + rewrite lookup_insert_eq. rewrite Hold in Hold'. injection Hold' as <-.
      destruct (insert_rows_appends old news) as (added & -> & _).
      eexists. split; [reflexivity | apply prefix_app_r; reflexivity].
    + rewrite lookup_insert_ne by congruence.
      exists old'. split; [exact Hold' | reflexivity].
Qed.

Lemma insert_snapshot_quiet table ts_iso rows :
  respects quiet (insert_snapshot table ts_iso rows).
Proof.
  intros w r w' Hrun. destruct rows as [|r0 rows].
  - injection Hrun as _ <-. reflexivity.
  - unfold insert_snapshot, executemany in Hrun.
    exists [EvExecutemany table (map (fun r => (ts_iso, r)) (r0 :: rows))].
    split; [|reflexivity].
    destruct (db w !! table); [destruct (bind_rows _)|]; injection Hrun as _ <-; reflexivity.
Qed.

Lemma insert_snapshot_same_counters table ts_iso rows :
  respects same_counters (insert_snapshot table ts_iso rows).
Proof.
  intros w r w' Hrun. destruct rows as [|r0 rows].
  - injection Hrun as _ <-. reflexivity.
  - unfold insert_snapshot, executemany in Hrun.
    destruct (db w !! table); [destruct (bind_rows _)|]; injection Hrun as _ <-;
      split; reflexivity.
Qed.

Lemma insert_snapshot_raises table ts_iso rows :
  raises_only store_error (insert_snapshot table ts_iso rows).
Proof.
  intros w e w' Hrun. destruct rows as [|r0 rows]; [discriminate Hrun|].
  unfold insert_snapshot, executemany in Hrun.
  destruct (db w !! table); [|injection Hrun as <- _; reflexivity].
  destruct (bind_rows _) as [news|e'] eqn:Hbind; [discriminate Hrun|].
  injection Hrun as <- _.
  apply bind_rows_raises in Hbind as [-> | [-> | ->]]; reflexivity.
Qed.

(** The prints and pauses of the poller change nothing but the trace. *)
Lemma print_within_cycle ts_iso m : respects (within_cycle ts_iso) (print m).
Proof.
  apply respects_print; [apply _|]. intros w.
  apply within_cycle_events with (evs := [EvPrint m]); [repeat constructor | reflexivity..].
Qed.

Lemma sleep_within_cycle ts_iso seconds : respects (within_cycle ts_iso) (sleep seconds).
Proof.
  apply respects_sleep; [apply _|]. intros w.
  apply within_cycle_events with (evs := [EvSleep seconds]); [repeat constructor | reflexivity..].
Qed.

Lemma print_keeps_unique m : respects keeps_unique (print m).
Proof. apply respects_print; [apply _|]. intros w Huniq. exact Huniq. Qed.

Lemma sleep_keeps_unique seconds : respects keeps_unique (sleep seconds).
Proof. apply respects_sleep; [apply _|]. intros w Huniq. exact Huniq. Qed.

Lemma print_append_only m : respects append_only (print m).
Proof. apply respects_print; [apply _|]. intros w. apply append_only_same_db. reflexivity. Qed.

Lemma sleep_append_only seconds : respects append_only (sleep seconds).
Proof. apply respects_sleep; [apply _|]. intros w. apply append_only_same_db. reflexivity. Qed.

Lemma print_quiet m : respects quiet (print m).
Proof.
  apply respects_print; [apply _|]. intros w. exists [EvPrint m]. split; reflexivity.
Qed.

Lemma sleep_quiet seconds : respects quiet (sleep seconds).
Proof.
  apply respects_sleep; [apply _|]. intros w. exists [EvSleep seconds]. split; reflexivity.
Qed.

Lemma print_same_counters m : respects same_counters (print m).
Proof. apply respects_print; [apply _|]. intros w. split; reflexivity. Qed.

Lemma sleep_same_counters seconds : respects same_counters (sleep seconds).
Proof. apply respects_sleep; [apply _|]. intros w. split; reflexivity. Qed.

(** One proof for the relations that the fetcher, the store, [print] and
    [sleep] respect. *)
Lemma route_step_respects (S : world -> world -> Prop) `{!PreOrder S} ts_iso :
  (forall route_code, respects S (fetch_route_positions route_code)) ->
  (forall table rows, respects S (insert_snapshot table ts_iso rows)) ->
  (forall m, respects S (print m)) ->
  (forall seconds, respects S (sleep seconds)) ->
  forall rt_code table total, respects S (route_step ts_iso rt_code table total).
Proof.
  intros Hfetch Hinsert Hprint Hsleep rt_code table total.
  unfold route_step. apply respects_try; [apply _ | |].
  - apply respects_bind; [apply _ | apply Hfetch | intros rows].
    apply respects_bind; [apply _ | apply Hinsert | intros _].
    apply respects_bind; [apply _ | apply Hprint | intros _].
    apply respects_bind; [apply _ | apply Hsleep | intros _].
    apply respects_ret, _.
  - apply respects_bind; [apply _ | apply Hprint | intros _].
    apply respects_ret, _.
Qed.

Lemma route_step_within_cycle ts_iso rt_code table total :
  respects (within_cycle ts_iso) (route_step ts_iso rt_code table total).
Proof.
  apply route_step_respects; [apply _ | intros; apply fetch_within_cycle
    | intros; apply insert_snapshot_within_cycle | intros; apply print_within_cycle
    | intros; apply sleep_within_cycle].
Qed.

Lemma route_step_append_only ts_iso rt_code table total :
  respects append_only (route_step ts_iso rt_code table total).
Proof.
  apply route_step_respects; [apply _ | intros; apply fetch_append_only
    | intros; apply insert_snapshot_append_only | intros; apply print_append_only
    | intros; apply sleep_append_only].
Qed.

Lemma routes_loop_respects (S : world -> world -> Prop) `{!PreOrder S} ts_iso :
  (forall rt_code table total, respects S (route_step ts_iso rt_code table total)) ->
  forall routes total, respects S (routes_loop ts_iso routes total).
Proof.
  intros Hstep routes. induction routes as [|[rt_code table] rest IH]; intros total; simpl.
  - apply respects_ret, _.
  - apply respects_bind; [apply _ | apply Hstep | intros total'; apply IH].
Qed.

Lemma poll_cycles_respects (S : world -> world -> Prop) `{!PreOrder S} :
  respects S poll_cycle -> forall cycles, respects S (poll_cycles cycles).
Proof.
  intros Hcycle cycles. induction cycles as [|n IH]; simpl.
  - apply respects_ret, _.
  - apply respects_bind; [apply _ | exact Hcycle | intros _; exact IH].
Qed.

Lemma poll_cycle_respects (S : world -> world -> Prop) `{!PreOrder S} :
  respects S now ->
  (forall route_code, respects S (fetch_route_positions route_code)) ->
  (forall table ts_iso rows, respects S (insert_snapshot table ts_iso rows)) ->
  (forall m, respects S (print m)) ->
  (forall seconds, respects S (sleep seconds)) ->
  respects S poll_cycle.
Proof.
  intros Hnow Hfetch Hinsert Hprint Hsleep.
  unfold poll_cycle. apply respects_bind; [apply _ | exact Hnow | intros ts_iso].
  apply respects_bind; [apply _ | | intros total].
  { apply routes_loop_respects; [apply _|]. apply route_step_respects; auto. }
  apply respects_bind; [apply _ | apply Hprint | intros _]. apply Hsleep.
Qed.

Lemma ensure_db_keeps_unique : respects keeps_unique ensure_db.
Proof.
  unfold ensure_db. induction (map snd ROUTES) as [|t tables IH]; simpl.
  - apply respects_ret, _.
  - apply respects_bind; [apply _ | | intros _; apply IH].
    intros w r w' Hrun Huniq. unfold create_table in Hrun.
    destruct (db w !! t) eqn:Ht.
    + destruct (unique_rows _); injection Hrun as _ <-; assumption.
    + injection Hrun as _ <-.
      intros table rows Hrows. simpl in Hrows.
      apply lookup_insert_Some in Hrows as [[<- <-] | [_ Hrows]].
      * intros i j r1 r2 k Hi. inversion Hi.
      * eapply Huniq, Hrows.
Qed.

Lemma ensure_db_append_only : respects append_only ensure_db.
Proof.
  intros w r w' Hrun table old Hold. unfold ensure_db in Hrun.
  apply create_tables_spec in Hrun as (_ & _ & _ & Hkeep & _).
  exists old. split; [apply Hkeep, Hold | reflexivity].
Qed.

Lemma main_respects (S : world -> world -> Prop) `{!PreOrder S} cycles :
  (forall m, respects S (print m)) ->
  respects S ensure_db ->
  respects S poll_cycle ->
  respects S (main cycles).
Proof.
  intros Hprint Hensure Hcycle. unfold main.
  apply respects_bind; [apply _ | apply Hprint | intros _].
  apply respects_bind; [apply _ | apply Hprint | intros _].
  apply respects_bind; [apply _ | apply Hensure | intros _].
  apply respects_bind; [apply _ | apply poll_cycles_respects; [apply _ | exact Hcycle] | intros _].
  apply Hprint.
Qed.

Lemma now_same_db (S : world -> world -> Prop) :
  (forall w w', db w' = db w -> S w w') -> respects S now.
Proof. intros HS w r w' [= _ <-]. apply HS. reflexivity. Qed.

Lemma poll_cycle_keeps_unique : respects keeps_unique poll_cycle.
Proof.
  apply poll_cycle_respects; [apply _ | | intros; apply fetch_keeps_unique
    | intros; apply insert_snapshot_respects_unique | intros; apply print_keeps_unique
    | intros; apply sleep_keeps_unique].
  apply now_same_db. intros w w' Hdb Huniq. rewrite Hdb. exact Huniq.
Qed.

Lemma poll_cycle_append_only : respects append_only poll_cycle.
Proof.
  apply poll_cycle_respects; [apply _ | | intros; apply fetch_append_only
    | intros; apply insert_snapshot_append_only | intros; apply print_append_only
    | intros; apply sleep_append_only].
  apply now_same_db. intros w w'. apply append_only_same_db.
Qed.

Lemma main_keeps_unique cycles : respects keeps_unique (main cycles).
Proof.
  apply main_respects; [apply _ | intros; apply print_keeps_unique
    | apply ensure_db_keeps_unique | apply poll_cycle_keeps_unique].
Qed.

Lemma main_append_only cycles : respects append_only (main cycles).
Proof.
  apply main_respects; [apply _ | intros; apply print_append_only
    | apply ensure_db_append_only | apply poll_cycle_append_only].
Qed.

Lemma persist_quiet ts_iso rt_code table total rows :
  respects quiet (persist ts_iso rt_code table total rows).
Proof.
  unfold persist.
  apply respects_bind; [apply _ | apply insert_snapshot_quiet | intros _].
  apply respects_bind; [apply _ | apply print_quiet | intros _].
  apply respects_bind; [apply _ | apply sleep_quiet | intros _].
  apply respects_ret, _.
Qed.

Lemma persist_same_counters ts_iso rt_code table total rows :
  respects same_counters (persist ts_iso rt_code table total rows).
Proof.
  unfold persist.
  apply respects_bind; [apply _ | apply insert_snapshot_same_counters | intros _].
  apply respects_bind; [apply _ | apply print_same_counters | intros _].
  apply respects_bind; [apply _ | apply sleep_same_counters | intros _].
  apply respects_ret, _.
Qed.

(** The pause between two routes is always taken. *)
Lemma raises_only_pacing allowed : raises_only allowed (sleep (2 # 10)).
Proof. intros w e w'. rewrite sleep_pacing. discriminate. Qed.

Lemma persist_raises ts_iso rt_code table total rows :
  raises_only store_error (persist ts_iso rt_code table total rows).
Proof.
  unfold persist.
  apply raises_only_bind; [apply insert_snapshot_raises | intros _].
  apply raises_only_bind; [apply raises_only_print; reflexivity | intros _].
  apply raises_only_bind; [apply raises_only_pacing | intros _].
  apply raises_only_ret.
Qed.

(** A fetch that returns: its rows are persisted under the cycle's timestamp. *)
Lemma route_step_fetched ts_iso rt_code table total w rows w1 :
  fetch_route_positions rt_code w = (Ok rows, w1) ->
  route_step ts_iso rt_code table total w = persist ts_iso rt_code table total rows w1.
Proof.
  intros Hfetch. unfold route_step, try_except.
  erewrite bind_Ok by exact Hfetch. fold (persist ts_iso rt_code table total rows).
  destruct (persist ts_iso rt_code table total rows w1) as [[n|e] w2] eqn:Hp; [reflexivity|].
  apply persist_raises in Hp. destruct e; try discriminate Hp; reflexivity.
Qed.

(** A fetch that raises: a request failure is caught and logged, anything
    else goes through. *)
Lemma route_step_raised ts_iso rt_code table total w e w1 :
  fetch_route_positions rt_code w = (Raise e, w1) ->
  route_step ts_iso rt_code table total w =
    if is_request_exception e
    then (Ok total, add_events [EvPrint (MsgRequestFailed rt_code)] w1)
    else (Raise e, w1).
Proof.
  intros Hfetch. unfold route_step, try_except.
  erewrite bind_Raise by exact Hfetch. reflexivity.
Qed.

(** Rows that bind into a table that is there are stored, and counted. *)
Lemma persist_stores ts_iso rt_code table total rows w old news :
  db w !! table = Some old ->
  bind_rows (map (fun r => (ts_iso, r)) rows) = Ok news ->
  exists w',
    persist ts_iso rt_code table total rows w = (Ok (total + length rows)%nat, w') /\
    exists stored, db w' !! table = Some stored /\
      old `prefix_of` stored /\
      forall new, new ∈ news -> ts_utc new = ts_iso /\ holds_row stored new.
Proof.
  intros Hold Hbind.
  destruct (insert_snapshot_table _ _ _ w _ _ Hold Hbind) as [Hres Hdb].
  destruct (insert_snapshot table ts_iso rows w) as [r w1] eqn:Hrun.
  simpl in Hres, Hdb. subst r.
  eexists. split.
  - unfold persist. erewrite bind_Ok by exact Hrun.
    erewrite bind_Ok by (apply print_printable; reflexivity).
    erewrite bind_Ok by apply sleep_pacing. reflexivity.
  - eexists. split; [exact Hdb|]. split.
    + destruct rows; [reflexivity|].
      destruct (insert_rows_appends old news) as (added & -> & _). apply prefix_app_r. reflexivity.
    + intros new Hnew. split; [eapply bind_rows_stamp; eassumption|].
      destruct rows as [|r0 rows]; [injection Hbind as <-; inversion Hnew|].
      apply insert_rows_holds, Hnew.
Qed.

(** Every pass through [route_step] sends exactly one request. *)
Lemma route_step_gets ts_iso rt_code table total w r w' :
  route_step ts_iso rt_code table total w = (r, w') ->
  exists evs, trace w' = trace w ++ evs /\ gets evs = [rt_code].
Proof.
  destruct (fetch_route_positions rt_code w) as [[rows|e] w1] eqn:Hfetch.
  - rewrite (route_step_fetched _ _ _ _ _ _ _ Hfetch). intros Hp.
    apply persist_quiet in Hp as (evs & Ht & Hg).
    apply fetch_route_positions_frame in Hfetch as (pevs & Hpevs & ->).
    exists (EvGet rt_code :: pevs ++ evs). split.
    + rewrite Ht. simpl. rewrite <- !app_assoc. reflexivity.
    + simpl. rewrite gets_app, Hg, (gets_prints _ Hpevs). reflexivity.
  - rewrite (route_step_raised _ _ _ _ _ _ _ Hfetch).
    apply fetch_route_positions_frame in Hfetch as (pevs & Hpevs & ->).
    destruct (is_request_exception e); intros [= _ <-].
    + exists (EvGet rt_code :: pevs ++ [EvPrint (MsgRequestFailed rt_code)]). split.
      * simpl. rewrite <- !app_assoc. reflexivity.
      * simpl. rewrite gets_app, (gets_prints _ Hpevs). reflexivity.
    + exists (EvGet rt_code :: pevs). split.
      * simpl. rewrite <- !app_assoc. reflexivity.
      * simpl. rewrite (gets_prints _ Hpevs). reflexivity.
Qed.

(** A loop that completes has requested every route, in order. *)
Lemma routes_loop_gets ts_iso routes : forall total w n w',
  routes_loop ts_iso routes total w = (Ok n, w') ->
  exists evs, trace w' = trace w ++ evs /\ gets evs = map fst routes.
Proof.
  induction routes as [|[rt_code table] rest IH]; intros total w n w' Hrun; simpl in Hrun.
  - apply ret_inv in Hrun as [_ ->]. exists []. split; [symmetry; apply app_nil_r | reflexivity].
  - apply bind_Ok_inv in Hrun as (total' & w1 & Hstep & Hrest).
    apply route_step_gets in Hstep as (evs1 & Ht1 & Hg1).
    apply IH in Hrest as (evs2 & Ht2 & Hg2).
    exists (evs1 ++ evs2). split; [rewrite Ht2, Ht1, app_assoc; reflexivity|].
    rewrite gets_app, Hg1, Hg2. reflexivity.
Qed.

(** The loop over a list of routes is the loop over its first part followed
    by the loop over the rest. *)
Lemma routes_loop_app ts_iso before after : forall total w,
  routes_loop ts_iso (before ++ after) total w =
  (routes_loop ts_iso before total ≫= routes_loop ts_iso after) w.
Proof.
  induction before as [|[rt_code table] before IH]; intros total w; [reflexivity|].
  cbn [app routes_loop]. unfold mbind, M_bind in *.
  destruct (route_step ts_iso rt_code table total w) as [[n|e] w1]; [apply IH | reflexivity].
Qed.

(** C5: when the fetch of one route fails with a RequestException inside a
    cycle stamped [ts_iso], [route_step] catches it, logs it, persists
    nothing and returns; the loop goes on with the remaining routes under
    the same timestamp.  Whatever it persists carries [ts_iso]; unless a
    later route aborts the cycle with another kind of error every
    remaining route is requested, in the fixed order; and a remaining route
    that the loop reaches, whose fetch returns rows that bind and whose
    table exists, has them counted and stored under [ts_iso]: at the end of
    the loop, however it ends, each of these rows is in the route's table,
    or a row with its timestamp and run number is there in its place. *)
Theorem request_failure_does_not_abort_cycle
    (ts_iso rt_code table : string) (rest : list (string * string)) (total : nat)
    (w : world) :
  fst (fetch_route_positions rt_code w) = Raise RequestException ->
  let w1 := add_events [EvPrint (MsgRequestFailed rt_code)]
              (snd (fetch_route_positions rt_code w)) in
  route_step ts_iso rt_code table total w = (Ok total, w1) /\
  db w1 = db w /\
  routes_loop ts_iso ((rt_code, table) :: rest) total w = routes_loop ts_iso rest total w1 /\
  (forall res w2, routes_loop ts_iso rest total w1 = (res, w2) ->
     within_cycle ts_iso w1 w2 /\
     (is_Ok res = true ->
      exists evs, trace w2 = trace w1 ++ evs /\ gets evs = map fst rest)) /\
  (forall before rt' table' after n w' rows news,
     rest = before ++ (rt', table') :: after ->
     routes_loop ts_iso before total w1 = (Ok n, w') ->
     fst (fetch_route_positions rt' w') = Ok rows ->
     is_Some (db w !! table') ->
     bind_rows (map (fun r => (ts_iso, r)) rows) = Ok news ->
     fst (route_step ts_iso rt' table' n w') = Ok (n + length rows)%nat /\
     exists stored,
       db (snd (routes_loop ts_iso ((rt_code, table) :: rest) total w)) !! table'
         = Some stored /\
       forall new, new ∈ news -> ts_utc new = ts_iso /\ holds_row stored new).
Proof.
  intros Hfail w1.
  destruct (fetch_route_positions rt_code w) as [r wf] eqn:Hfetch.
  simpl in Hfail. subst r. simpl in w1.
  assert (Hstep : route_step ts_iso rt_code table total w = (Ok total, w1)).
  { rewrite (route_step_raised _ _ _ _ _ _ _ Hfetch). reflexivity. }
  assert (Hdb : db w1 = db w).
  { apply fetch_route_positions_frame in Hfetch as (evs & _ & ->). reflexivity. }
  assert (Hloop : routes_loop ts_iso ((rt_code, table) :: rest) total w =
                  routes_loop ts_iso rest total w1).
  { simpl. erewrite bind_Ok by exact Hstep. reflexivity. }
  split; [exact Hstep|]. split; [exact Hdb|]. split; [exact Hloop|]. split.
  - intros res w2 Hrun. split.
    + eapply routes_loop_respects; [apply _ | apply route_step_within_cycle | exact Hrun].
    + destruct res as [n|e]; [|discriminate]. intros _.
      eapply routes_loop_gets, Hrun.
  - intros before rt' table' after n w' rows news -> Hbefore Hfetch' [old0 Hold0] Hbind.
    destruct (fetch_route_positions rt' w') as [r' wf'] eqn:Hrun'.
    simpl in Hfetch'. subst r'.
    assert (Hold : exists old, db wf' !! table' = Some old).
    { rewrite <- Hdb in Hold0.
      assert (Ha : append_only w1 w').
      { eapply routes_loop_respects; [apply _ | apply route_step_append_only | exact Hbefore]. }
      destruct (Ha _ _ Hold0) as (old & Hold & _).
      apply fetch_route_positions_frame in Hrun' as (evs & _ & ->).
      exists old. exact Hold. }
    destruct Hold as [old Hold].
    destruct (persist_stores ts_iso rt' table' n rows wf' old news Hold Hbind)
      as (w'' & Hpersist & stored & Hstored & _ & Hrows).
    assert (Hstep' : route_step ts_iso rt' table' n w' = (Ok (n + length rows)%nat, w'')).
    { rewrite (route_step_fetched _ _ _ _ _ _ _ Hrun'). exact Hpersist. }
    split; [rewrite Hstep'; reflexivity|].
    rewrite Hloop, routes_loop_app.
    erewrite bind_Ok by exact Hbefore. cbn [routes_loop].
    erewrite bind_Ok by exact Hstep'.
    destruct (routes_loop ts_iso after (n + length rows)%nat w'') as [res wend] eqn:Hafter.
    assert (Ha : append_only w'' wend).
    { eapply routes_loop_respects; [apply _ | apply route_step_append_only | exact Hafter]. }
    destruct (Ha _ _ Hstored) as (final & Hfinal & Hprefix).
    exists final. split; [exact Hfinal|].
    intros new Hnew. destruct (Hrows new Hnew) as [Hts Hheld].
    split; [exact Hts | eapply holds_row_prefix; eassumption].
Qed.

(** C6: a polling cycle reads the clock exactly once, as its first action,
    before any request goes out; every tuple it hands to the store carries
    that reading, and every row found in the store afterwards was there
    before the cycle or carries it.  A cycle that completes has requested
    every route after that reading. *)
Theorem poll_cycle_single_timestamp (w : world) :
  let ts_iso := clock (clock_reads w) in
  let w' := snd (poll_cycle w) in
  clock_reads w' = S (clock_reads w) /\
  (exists evs,
     trace w' = trace w ++ EvNow ts_iso :: evs /\
     Forall (stamped ts_iso) evs /\
     (is_Ok (fst (poll_cycle w)) = true -> gets evs = map fst ROUTES)) /\
  (forall table rows', db w' !! table = Some rows' ->
     exists rows, db w !! table = Some rows /\
       forall r, r ∈ rows' -> r ∈ rows \/ ts_utc r = ts_iso).
Proof.
  intros ts_iso w'.
  set (w0 := mkWorld (db w) (trace w ++ [EvNow ts_iso]) (S (clock_reads w)) (requests w)).
  set (rest := fun ts : string =>
    routes_loop ts ROUTES 0%nat ≫= fun total =>
    print (MsgSnapshotComplete ts total) ≫= fun _ => sleep (inject_Z POLL_SECONDS)).
  assert (Hcycle : poll_cycle w = rest ts_iso w0) by reflexivity.
  assert (Hin : within_cycle ts_iso w0 w').
  { subst w'. rewrite Hcycle. destruct (rest ts_iso w0) as [r w1] eqn:Hrun. simpl.
    revert Hrun. subst rest. cbv beta.
    apply respects_bind; [apply _ | | intros total].
    { apply routes_loop_respects; [apply _ | apply route_step_within_cycle]. }
    apply respects_bind; [apply _ | apply print_within_cycle | intros _].
    apply sleep_within_cycle. }
  destruct Hin as (Hclock & (evs & Htrace & Hevs) & Hdb).
  split; [exact Hclock|]. split; [|exact Hdb].
  exists evs. split; [rewrite Htrace; subst w0; simpl; rewrite <- app_assoc; reflexivity|].
  split; [exact Hevs|].
  intros Hok. subst w'. rewrite Hcycle in Hok, Htrace.
  destruct (rest ts_iso w0) as [[[]|e] w1] eqn:Hrun; [|discriminate]. simpl in Htrace.
  subst rest. cbv beta in Hrun.
  apply bind_Ok_inv in Hrun as (total & w2 & Hloop & Hrun).
  apply routes_loop_gets in Hloop as (evs1 & Ht1 & Hg1).
  apply bind_Ok_inv in Hrun as (? & w3 & [= _ <-] & Hsleep).
  apply sleep_cases in Hsleep as [(_ & -> & _) | [_ [[=] | [[=] | [=]]]]].
  simpl in Htrace. rewrite Ht1 in Htrace. subst w0. simpl in Htrace.
  rewrite <- !app_assoc in Htrace.
  do 2 apply app_inv_head in Htrace. subst evs.
  rewrite !gets_app, Hg1. reflexivity.
Qed.

(** C2, as the store has it: in a store that keeps the unique index, after a
    batch whose values bind has been inserted once, and again after it has
    been inserted a second time, the table holds exactly one row for the
    batch's timestamp and each run number of the batch that is not null;
    the unique index holds after both inserts and after any number of
    polling cycles: no two rows of a table share a timestamp and a (non-null)
    run number. *)
Theorem insert_snapshot_one_row_per_run
    (table ts_iso : string) (rows : list position) (r : position) (k : string)
    (w : world) (cycles : nat) :
  db_unique (db w) ->
  is_Some (db w !! table) ->
  is_Ok (bind_rows (map (fun r => (ts_iso, r)) rows)) = true ->
  r ∈ rows ->
  bind_text (p_rn r) = Ok (Some k) ->
  let w1 := snd (insert_snapshot table ts_iso rows w) in
  let w2 := snd (insert_snapshot table ts_iso rows w1) in
  (exists stored, db w1 !! table = Some stored /\ count_key ts_iso k stored = 1%nat) /\
  (exists stored, db w2 !! table = Some stored /\ count_key ts_iso k stored = 1%nat) /\
  db_unique (db w2) /\
  db_unique (db (snd (main cycles w))).
Proof.
  intros Huniq [old Hold] Hbind Hin Hk w1 w2.
  destruct (bind_rows _) as [news|] eqn:Hnews; [|discriminate].
  destruct (bind_rows_stamp _ _ _ Hnews) as [Hstamp Hrun].
  destruct (Hrun _ _ Hin Hk) as (new & Hnew & Hkey).
  assert (Honce : forall w0 old0, db_unique (db w0) -> db w0 !! table = Some old0 ->
    let w0' := snd (insert_snapshot table ts_iso rows w0) in
    db_unique (db w0') /\
    exists stored, db w0' !! table = Some stored /\ count_key ts_iso k stored = 1%nat).
  { intros w0 old0 Huniq0 Hold0 w0'. split.
    - apply insert_snapshot_keeps_unique, Huniq0.
    - eexists. split.
      + eapply insert_snapshot_indexed; [exact Hold0 | eapply Huniq0, Hold0 | exact Hnews].
      + apply unique_index_count.
        * apply foldl_insert_unique. eapply Huniq0, Hold0.
        * destruct (foldl_insert_present news old0 new k Hnew Hkey) as (r1 & Hr1 & Hts & Hrn).
          exists r1. split; [assumption|]. split; [|assumption].
          rewrite Hts. apply Hstamp, Hnew. }
  destruct (Honce w old Huniq Hold) as [Huniq1 Hone1].
  destruct Hone1 as (stored1 & Hstored1 & Hcount1).
  destruct (Honce w1 stored1 Huniq1 Hstored1) as [Huniq2 Hone2].
  split; [exists stored1; split; assumption|].
  split; [exact Hone2|]. split; [exact Huniq2|].
  destruct (main cycles w) as [rm wm] eqn:Hmain. simpl.
  eapply main_keeps_unique; eassumption.
Qed.

(** *** What stops a cycle and what does not *)

(** X14: when the feed gives a route's trains as one object instead of a
    list, the loop walks over the keys of that object, the first of which
    has no [get]: the fetcher raises AttributeError right after the request,
    [route_step] does not catch it, and the loop over the routes stops
    there, before it persists anything for this route or requests the next. *)
Theorem single_train_object_stops_the_cycle
    (route_code : string) (w : world) (r : response)
    (block : json) (after : list json) (fields : list (string * json))
    (ts_iso table : string) (total : nat) (rest : list (string * string)) :
  network (requests w) route_code = Some r ->
  carries_blocks r (block :: after) ->
  py_get block "train" (JArr []) = Ok (JObj fields) ->
  fields <> [] ->
  fetch_route_positions route_code w = (Raise AttributeError, after_get route_code w) /\
  route_step ts_iso route_code table total w = (Raise AttributeError, after_get route_code w) /\
  routes_loop ts_iso ((route_code, table) :: rest) total w =
    (Raise AttributeError, after_get route_code w).
Proof.
  intros Hnet Hr Hget Hfields.
  assert (Hfetch : fetch_route_positions route_code w =
                   (Raise AttributeError, after_get route_code w)).
  { rewrite (fetch_route_positions_blocks _ _ _ _ Hnet Hr).
    cbn [blocks_loop]. rewrite Hget.
    destruct fields as [|[key v] fields]; [contradiction|]. reflexivity. }
  assert (Hstep : route_step ts_iso route_code table total w =
                  (Raise AttributeError, after_get route_code w)).
  { rewrite (route_step_raised _ _ _ _ _ _ _ Hfetch). reflexivity. }
  split; [exact Hfetch|]. split; [exact Hstep|].
  cbn [routes_loop]. erewrite bind_Raise by exact Hstep. reflexivity.
Qed.

Lemma routes_loop_outage ts_iso routes : forall total w,
  (forall k rt, network k rt = None) ->
  routes_loop ts_iso routes total w =
  (Ok total, mkWorld (db w) (trace w ++ outage_events routes) (clock_reads w)
                     (requests w + length routes)).
Proof.
  induction routes as [|[rt table] rest IH]; intros total w Hdown.
  - simpl. unfold mret, M_ret. rewrite app_nil_r, Nat.add_0_r. destruct w; reflexivity.
  - assert (Hfetch : fetch_route_positions rt w = (Raise RequestException, after_get rt w)).
    { unfold fetch_route_positions. apply bind_Raise.
      unfold requests_get. rewrite Hdown. reflexivity. }
    cbn [routes_loop]. erewrite bind_Ok by (rewrite (route_step_raised _ _ _ _ _ _ _ Hfetch); reflexivity).
    rewrite (IH _ _ Hdown). unfold add_events, after_get. simpl.
    rewrite <- !app_assoc. simpl. f_equal. f_equal. lia.
Qed.

(** X15: a cycle in which every request fails runs to its end, provided
    the polling interval is one [time.sleep] takes, not negative and not
    refused by the platform: each route is requested once, in order, each
    failure is printed, no pause is taken between routes, the store is not
    touched, and the cycle reports a total of 0 and sleeps for the polling
    interval. *)
Theorem poll_cycle_survives_outage (w : world) :
  (forall k rt, network k rt = None) ->
  (0 <= POLL_SECONDS)%Z ->
  refuses_sleep (inject_Z POLL_SECONDS) = None ->
  let ts_iso := clock (clock_reads w) in
  poll_cycle w =
  (Ok tt,
   mkWorld (db w)
           (trace w ++ EvNow ts_iso :: outage_events ROUTES ++
              [EvPrint (MsgSnapshotComplete ts_iso 0); EvSleep (inject_Z POLL_SECONDS)])
           (S (clock_reads w))
           (requests w + length ROUTES)).
Proof.
  intros Hdown Hsign Hrefused ts_iso. unfold poll_cycle.
  erewrite bind_Ok by reflexivity.
  erewrite bind_Ok by (apply routes_loop_outage, Hdown).
  erewrite bind_Ok by (apply print_printable; reflexivity).
  rewrite sleep_accepted; [|change 0%Q with (inject_Z 0); rewrite <- Zle_Qle; exact Hsign | exact Hrefused].
  unfold add_event. cbn [db trace clock_reads requests].
  rewrite <- !app_assoc. reflexivity.
Qed.

Lemma routes_loop_gets_prefix ts_iso routes : forall total w r w',
  routes_loop ts_iso routes total w = (r, w') ->
  exists evs, trace w' = trace w ++ evs /\ gets evs `prefix_of` map fst routes.
Proof.
  induction routes as [|[rt table] rest IH]; intros total w r w' Hrun; cbn [routes_loop] in Hrun.
  - apply ret_inv in Hrun as [_ ->]. exists []. split; [symmetry; apply app_nil_r|].
    apply prefix_nil.
  - unfold mbind, M_bind in Hrun.
    destruct (route_step ts_iso rt table total w) as [[total'|e] w1] eqn:Hstep;
      apply route_step_gets in Hstep as (evs1 & Ht1 & Hg1).
    + apply IH in Hrun as (evs2 & Ht2 & Hg2).
      exists (evs1 ++ evs2). split; [rewrite Ht2, Ht1, app_assoc; reflexivity|].
      rewrite gets_app, Hg1. simpl. apply prefix_cons, Hg2.
    + injection Hrun as _ <-. exists evs1. split; [exact Ht1|].
      rewrite Hg1. simpl. apply prefix_cons, prefix_nil.
Qed.

(** X16: however a cycle ends, the requests it has sent are a beginning of
    the fixed route order: no route is requested twice or out of turn, and
    when a route stops the cycle the routes after it are not requested. *)
Theorem poll_cycle_requests_in_route_order (w : world) :
  exists evs,
    trace (snd (poll_cycle w)) = trace w ++ EvNow (clock (clock_reads w)) :: evs /\
    gets evs `prefix_of` map fst ROUTES.
Proof.
  unfold poll_cycle, mbind at 1, M_bind at 1, now. cbv beta iota.
  set (ts_iso := clock (clock_reads w)).
  set (w0 := mkWorld (db w) (trace w ++ [EvNow ts_iso]) (S (clock_reads w)) (requests w)).
  unfold mbind at 1, M_bind at 1.
  destruct (routes_loop ts_iso ROUTES 0 w0) as [[total|e] w1] eqn:Hloop;
    apply routes_loop_gets_prefix in Hloop as (evs & Ht & Hg).
  - destruct ((print (MsgSnapshotComplete ts_iso total) ≫=
                 fun _ => sleep (inject_Z POLL_SECONDS)) w1) as [r w2] eqn:Hend.
    assert (Hquiet : quiet w1 w2).
    { revert Hend. apply respects_bind; [apply _ | apply print_quiet | intros _; apply sleep_quiet]. }
    destruct Hquiet as (evs2 & Ht2 & Hg2).
    exists (evs ++ evs2). cbn [snd]. rewrite Ht2, Ht. subst w0. cbn [trace].
    rewrite <- !app_assoc. split; [reflexivity|].
    rewrite gets_app, Hg2, app_nil_r. exact Hg.
  - exists evs. cbn [snd]. rewrite Ht. subst w0. cbn [trace].
    rewrite <- app_assoc. split; [reflexivity | exact Hg].
Qed.

(** *** The run as a whole *)

(** X21: the store is an append-only log for the whole run: however many
    cycles [main] goes through and however it ends, every table that was
    there at the start is there at the end, and the rows it had come
    first, unchanged and in their order. *)
Theorem main_store_is_append_only
    (cycles : nat) (w : world) (table : string) (old : list row) :
  db w !! table = Some old ->
  exists new, db (snd (main cycles w)) !! table = Some new /\ old `prefix_of` new.
Proof.
  intros Hold. destruct (main cycles w) as [r w'] eqn:Hrun.
  exact (main_append_only cycles w r w' Hrun table old Hold).
Qed.

(** The two prints that open [main]. *)
Lemma main_start (cycles : nat) (w : world) :
  main cycles w =
  (ensure_db ≫= fun _ => poll_cycles cycles ≫= fun _ => print MsgStopping)
    (add_events [EvPrint (MsgWritingTo DB_PATH); EvPrint (MsgPollingEvery POLL_SECONDS)] w).
Proof.
  unfold main.
  erewrite bind_Ok by (apply print_printable; reflexivity).
  erewrite bind_Ok by (apply print_printable; reflexivity).
  unfold add_events, add_event. cbn [db trace clock_reads requests].
  rewrite <- app_assoc. reflexivity.
Qed.

(** X22: when the route tables the store holds can carry the unique index,
    as the tables made by [ensure_db] do, every route has its table after
    [main], however the run ends. *)
Theorem main_leaves_route_tables (cycles : nat) (w : world) :
  routes_indexable (db w) ->
  Forall (fun route => is_Some (db (snd (main cycles w)) !! snd route)) ROUTES.
Proof.
  intros Hfits. rewrite main_start.
  set (w2 := add_events _ w).
  destruct (ensure_db_indexable w2 Hfits) as (w3 & Hens & Htables).
  erewrite bind_Ok by exact Hens.
  destruct ((poll_cycles cycles ≫= fun _ => print MsgStopping) w3) as [r w'] eqn:Hrun.
  cbn [snd].
  assert (Hrest : respects append_only (poll_cycles cycles ≫= fun _ => print MsgStopping)).
  { apply respects_bind; [apply _ | | intros _; apply print_append_only].
    apply poll_cycles_respects; [apply _ | apply poll_cycle_append_only]. }
  apply Hrest in Hrun.
  apply Forall_forall. intros [rt table] Hin.
  destruct (Htables rt table Hin) as [rows Hrows].
  destruct (Hrun _ _ Hrows) as (new & Hnew & _). exists new. exact Hnew.
Qed.

(** *** What ends the run *)

Lemma fetch_raises route_code : raises_only fetch_error (fetch_route_positions route_code).
Proof.
  unfold fetch_route_positions.
  apply raises_only_bind.
  { intros w e w'. unfold requests_get.
    destruct (network _ _); [discriminate | intros [= <- _]; reflexivity]. }
  intros r. apply raises_only_bind.
  { apply raises_only_lift. unfold raise_for_status.
    intros e. destruct (_ && _); [intros [= <-]; reflexivity | discriminate]. }
  intros _. destruct (negb (contains _ _)).
  { apply raises_only_bind; [apply raises_only_print; reflexivity | intros _].
    apply raises_only_bind; [apply raises_only_print; reflexivity | intros _].
    apply raises_only_ret. }
  apply raises_only_bind.
  { apply raises_only_lift. unfold response_json.
    intros e. destruct (body r); [discriminate | intros [= <-]; reflexivity]. }
  intros data. eapply raises_only_weaken; [|apply parse_body_raises].
  intros []; simpl; congruence.
Qed.

Lemma route_step_raises ts_iso rt_code table total :
  raises_only step_error (route_step ts_iso rt_code table total).
Proof.
  unfold route_step.
  eapply (raises_only_try (fun e => fetch_error e || store_error e)).
  - apply raises_only_bind.
    + eapply raises_only_weaken; [|apply fetch_raises]. intros e ->. reflexivity.
    + intros rows. eapply raises_only_weaken; [|apply persist_raises].
      intros e ->. apply orb_true_r.
  - intros []; simpl; congruence.
  - apply raises_only_bind; [apply raises_only_print; reflexivity | intros _].
    apply raises_only_ret.
Qed.

Lemma routes_loop_raises ts_iso routes : forall total,
  raises_only step_error (routes_loop ts_iso routes total).
Proof.
  induction routes as [|[rt_code table] rest IH]; intros total; simpl.
  - apply raises_only_ret.
  - apply raises_only_bind; [apply route_step_raises | intros total'; apply IH].
Qed.

Lemma sleep_raises seconds : raises_only not_request_exception (sleep seconds).
Proof.
  intros w e w' [(Hr & _) | [_ [Hr | [Hr | Hr]]]]%sleep_cases;
    [discriminate Hr | ..]; injection Hr as ->; reflexivity.
Qed.

Lemma step_error_stops e : step_error e = true -> not_request_exception e = true.
Proof. destruct e; intros He; try discriminate He; reflexivity. Qed.

Lemma poll_cycle_raises : raises_only not_request_exception poll_cycle.
Proof.
  unfold poll_cycle.
  apply raises_only_bind; [intros w e w' [=] | intros ts_iso].
  apply raises_only_bind.
  { eapply raises_only_weaken; [apply step_error_stops | apply routes_loop_raises]. }
  intros total.
  apply raises_only_bind; [apply raises_only_print; reflexivity | intros _].
  apply sleep_raises.
Qed.

Lemma poll_cycles_raises cycles : raises_only not_request_exception (poll_cycles cycles).
Proof.
  induction cycles as [|n IH]; simpl.
  - apply raises_only_ret.
  - apply raises_only_bind; [apply poll_cycle_raises | intros _; exact IH].
Qed.

Lemma ensure_db_raises : raises_only not_request_exception ensure_db.
Proof.
  intros w e w' Hrun. unfold ensure_db in Hrun.
  apply create_tables_spec in Hrun as (_ & _ & _ & _ & _ & -> & _). reflexivity.
Qed.

(** X23: a request failure never ends the run: whatever the feed, the
    store, the clock and the platform do, and however many cycles the run
    goes through, the exception [main] ends with, if it ends with one, is
    not a RequestException. *)
Theorem main_never_stops_on_request_failure (cycles : nat) (w : world) (e : exn) :
  fst (main cycles w) = Raise e ->
  e <> RequestException.
Proof.
  intros Hraise. destruct (main cycles w) as [r w'] eqn:Hrun. simpl in Hraise. subst r.
  assert (Hmain : raises_only not_request_exception (main cycles)).
  { unfold main.
    apply raises_only_bind; [apply raises_only_print; reflexivity | intros _].
    apply raises_only_bind; [apply raises_only_print; reflexivity | intros _].
    apply raises_only_bind; [apply ensure_db_raises | intros _].
    apply raises_only_bind; [apply poll_cycles_raises | intros _].
    apply raises_only_print; reflexivity. }
  apply Hmain in Hrun. intros ->. discriminate Hrun.
Qed.

(** *** Requests and clock readings of a run *)

(** Every pass through [route_step] sends one request and reads no clock. *)
Lemma route_step_counters ts_iso rt_code table total w r w' :
  route_step ts_iso rt_code table total w = (r, w') ->
  clock_reads w' = clock_reads w /\ requests w' = S (requests w).
Proof.
  destruct (fetch_route_positions rt_code w) as [[rows|e] w1] eqn:Hfetch.
  - rewrite (route_step_fetched _ _ _ _ _ _ _ Hfetch). intros Hp.
    apply persist_same_counters in Hp as [Hc Hr].
    apply fetch_route_positions_frame in Hfetch as (pevs & _ & ->).
    rewrite Hc, Hr. split; reflexivity.
  - rewrite (route_step_raised _ _ _ _ _ _ _ Hfetch).
    apply fetch_route_positions_frame in Hfetch as (pevs & _ & ->).
    destruct (is_request_exception e); intros [= _ <-]; split; reflexivity.
Qed.

Lemma routes_loop_counters ts_iso routes : forall total w n w',
  routes_loop ts_iso routes total w = (Ok n, w') ->
  clock_reads w' = clock_reads w /\ requests w' = requests w + length routes.
Proof.
  induction routes as [|[rt_code table] rest IH]; intros total w n w' Hrun; simpl in Hrun.
  - apply ret_inv in Hrun as [_ ->]. simpl. split; [reflexivity | lia].
  - apply bind_Ok_inv in Hrun as (total' & w1 & Hstep & Hrest).
    apply route_step_counters in Hstep as [Hc1 Hr1].
    apply IH in Hrest as [Hc2 Hr2]. simpl. split; [congruence | lia].
Qed.

(** A cycle that completes: one clock reading, one request per route in the
    order of [ROUTES]. *)
Lemma poll_cycle_completed w w' :
  poll_cycle w = (Ok tt, w') ->
  clock_reads w' = S (clock_reads w) /\
  requests w' = requests w + length ROUTES /\
  exists evs, trace w' = trace w ++ evs /\ gets evs = map fst ROUTES.
Proof.
  unfold poll_cycle. intros Hrun.
  apply bind_Ok_inv in Hrun as (ts_iso & w1 & Hnow & Hrun).
  apply bind_Ok_inv in Hrun as (total & w2 & Hloop & Hrun).
  assert (Hend : same_counters w2 w' /\ quiet w2 w').
  { split; revert Hrun; (apply respects_bind; [apply _ | | intros _]).
    - apply print_same_counters.
    - apply sleep_same_counters.
    - apply print_quiet.
    - apply sleep_quiet. }
  destruct Hend as [[Hc3 Hr3] (evs3 & Ht3 & Hg3)].
  injection Hnow as <- <-.
  destruct (routes_loop_counters _ _ _ _ _ _ Hloop) as [Hc Hr].
  apply routes_loop_gets in Hloop as (evs & Ht & Hg).
  simpl in *. split; [congruence|]. split; [congruence|].
  exists ([EvNow (clock (clock_reads w))] ++ evs ++ evs3).
  split; [rewrite Ht3, Ht; rewrite <- !app_assoc; reflexivity|].
  rewrite !gets_app, Hg, Hg3. simpl. try rewrite app_nil_r. reflexivity.
Qed.

Lemma poll_cycles_completed cycles : forall w w',
  poll_cycles cycles w = (Ok tt, w') ->
  clock_reads w' = clock_reads w + cycles /\
  requests w' = requests w + cycles * length ROUTES /\
  exists evs, trace w' = trace w ++ evs /\
              gets evs = concat (replicate cycles (map fst ROUTES)).
Proof.
  induction cycles as [|n IH]; intros w w' Hrun; simpl in Hrun.
  - apply ret_inv in Hrun as [_ ->]. split; [lia|]. split; [lia|].
    exists []. split; [symmetry; apply app_nil_r | reflexivity].
  - apply bind_Ok_inv in Hrun as ([] & w1 & Hcycle & Hrest).
    apply poll_cycle_completed in Hcycle as (Hc1 & Hr1 & evs1 & Ht1 & Hg1).
    apply IH in Hrest as (Hc2 & Hr2 & evs2 & Ht2 & Hg2).
    split; [lia|]. split; [lia|].
    exists (evs1 ++ evs2). split; [rewrite Ht2, Ht1, app_assoc; reflexivity|].
    rewrite gets_app, Hg1, Hg2. reflexivity.
Qed.

(** X24: a run that goes through [cycles] cycles and stops has read the
    clock once per cycle and sent one request per route and cycle, the
    routes in the order of [ROUTES] in every cycle; start-up and shutdown
    send none. *)
Theorem main_requests_every_route_every_cycle (cycles : nat) (w : world) :
  fst (main cycles w) = Ok tt ->
  clock_reads (snd (main cycles w)) = clock_reads w + cycles /\
  requests (snd (main cycles w)) = requests w + cycles * length ROUTES /\
  exists evs, trace (snd (main cycles w)) = trace w ++ evs /\
              gets evs = concat (replicate cycles (map fst ROUTES)).
Proof.
  rewrite main_start. set (w2 := add_events _ w).
  destruct ((ensure_db ≫= _) w2) as [r w'] eqn:Hrun. simpl. intros ->.
  apply bind_Ok_inv in Hrun as ([] & w3 & Hens & Hrun).
  apply bind_Ok_inv in Hrun as ([] & w4 & Hcycles & Hstop).
  rewrite print_printable in Hstop by reflexivity. injection Hstop as <-.
  unfold ensure_db in Hens.
  apply create_tables_spec in Hens as (Htr & Hcl & Hrq & _).
  apply poll_cycles_completed in Hcycles as (Hc & Hr & evs & Ht & Hg).
  cbn [clock_reads requests trace add_event].
  split; [rewrite Hc, Hcl; reflexivity|]. split; [rewrite Hr, Hrq; reflexivity|].
  exists ([EvPrint (MsgWritingTo DB_PATH); EvPrint (MsgPollingEvery POLL_SECONDS)] ++
          evs ++ [EvPrint MsgStopping]).
  split; [rewrite Ht, Htr; subst w2; unfold add_events; cbn [trace];
          rewrite <- !app_assoc; reflexivity|].
  rewrite !gets_app, Hg. simpl. apply app_nil_r.
Qed.
End PollerProperties.

(** ** Route geometry index *)

Lemma name_lookup_value route_name names short_name :
  name_lookup route_name names = Some short_name -> short_name ∈ map snd names.
Proof.
  induction names as [|[name short] rest IH]; simpl; [discriminate|].
  destruct (String.eqb name route_name).
  - intros [= ->]. left.
  - intros Hrest. right. apply IH, Hrest.
Qed.

Section ImportProperties.
Context `{ShapelyImport}.

Lemma no_geometries_lookup k :
  no_geometries !! k = if decide (k ∈ map snd NAME_MAP) then Some None else None.
Proof.
  unfold no_geometries. destruct (decide (k ∈ map snd NAME_MAP)) as [Hin | Hnin].
  - apply elem_of_list_to_map_1.
    + apply (bool_decide_unpack _). vm_compute. exact I.
    + apply list_elem_of_fmap in Hin as (name & -> & Hname).
      apply list_elem_of_fmap. exists name. split; [reflexivity | exact Hname].
  - apply not_elem_of_list_to_map_1. intros Hin. apply Hnin.
    rewrite <- list_fmap_compose in Hin. exact Hin.
Qed.

Lemma no_geometries_keyed : keyed_by_short_names no_geometries.
Proof.
  intros k. rewrite no_geometries_lookup.
  destruct (decide (k ∈ map snd NAME_MAP)); split; intros Hk;
    try assumption; try (eexists; reflexivity); try contradiction.
  destruct Hk as [? Hk]. discriminate Hk.
Qed.

(** On a key that is there, the assignment goes through and changes that
    entry alone, to a geometry. *)
Lemma add_geometry_spec index short_name geom :
  is_Some (index !! short_name) ->
  exists g, add_geometry index short_name geom = Imported (<[short_name := Some g]> index) /\
    (g = geom \/ exists known, index !! short_name = Some (Some known) /\ g = union known geom).
Proof.
  intros [[known|] Hk]; unfold add_geometry; rewrite Hk.
  - exists (union known geom). split; [reflexivity|]. right. exists known. split; reflexivity.
  - exists geom. split; [reflexivity | left; reflexivity].
Qed.

Lemma insert_keyed (index : gmap string (option Geometry)) short_name v :
  is_Some (index !! short_name) ->
  keyed_by_short_names index -> keyed_by_short_names (<[short_name := v]> index).
Proof.
  intros Hk Hkeys k. split.
  - intros Hsome. apply lookup_insert_is_Some in Hsome as [<- | [_ Hx]];
      [apply Hkeys, Hk | apply Hkeys, Hx].
  - intros Hin. apply lookup_insert_is_Some.
    destruct (decide (short_name = k)); [left; assumption | right].
    split; [assumption | apply Hkeys, Hin].
Qed.

(** What the loop over the names of one feature keeps, for a property [P]
    of the entries that holds of [geom] and of unions with [geom]. *)
Lemma names_loop_spec (P : string -> Geometry -> Prop) names geom : forall index,
  keyed_by_short_names index ->
  (forall short_name, (exists route_name, route_name ∈ names /\
      name_lookup (strip route_name) NAME_MAP = Some short_name) ->
     P short_name geom /\ forall known, P short_name known -> P short_name (union known geom)) ->
  (forall k g, index !! k = Some (Some g) -> P k g) ->
  exists index', names_loop names geom index = Imported index' /\
    keyed_by_short_names index' /\
    (forall k g, index' !! k = Some (Some g) -> P k g) /\
    (forall k, is_Some (index !! k ≫= id) -> is_Some (index' !! k ≫= id)) /\
    (forall route_name short_name, route_name ∈ names ->
       name_lookup (strip route_name) NAME_MAP = Some short_name ->
       is_Some (index' !! short_name ≫= id)).
Proof.
  induction names as [|route_name rest IH]; intros index Hkeys HP Hindex.
  - exists index. split; [reflexivity|]. split; [exact Hkeys|]. split; [exact Hindex|].
    split; [auto|]. intros ? ? Hin. inversion Hin.
  - assert (HPrest : forall short_name, (exists route_name0, route_name0 ∈ rest /\
        name_lookup (strip route_name0) NAME_MAP = Some short_name) ->
        P short_name geom /\ forall known, P short_name known -> P short_name (union known geom)).
    { intros short_name (rn & Hrn & Hlook). apply HP. exists rn. split; [right|]; assumption. }
    cbn [names_loop].
    destruct (name_lookup (strip route_name) NAME_MAP) as [short_name|] eqn:Hlook.
    + assert (Hshort : short_name ∈ map snd NAME_MAP) by (eapply name_lookup_value, Hlook).
      assert (Hne : negb (String.eqb short_name "") = true).
      { revert Hshort. vm_compute map. intros Hshort.
        repeat (apply elem_of_cons in Hshort as [-> | Hshort]; [reflexivity|]).
        inversion Hshort. }
      rewrite Hne.
      assert (Hthere : is_Some (index !! short_name)) by (apply Hkeys, Hshort).
      destruct (add_geometry_spec index short_name geom Hthere) as (g & -> & Hg).
      destruct (HP short_name) as [Hgeom Hunion].
      { exists route_name. split; [left | exact Hlook]. }
      cbn [mbind imported_bind].
      destruct (IH (<[short_name := Some g]> index)) as (index' & -> & Hk' & HP' & Hmono & Hnamed).
      * apply insert_keyed; assumption.
      * exact HPrest.
      * intros k g0 Hk. apply lookup_insert_Some in Hk as [[<- [= <-]] | [_ Hk]].
        -- destruct Hg as [-> | (known & Hknown & ->)]; [exact Hgeom|].
           apply Hunion, (Hindex _ _ Hknown).
        -- apply (Hindex _ _ Hk).
      * exists index'. split; [reflexivity|]. split; [exact Hk'|]. split; [exact HP'|].
        split.
        -- intros k Hk. apply Hmono.
           destruct (decide (short_name = k)) as [<- | Hne'].
           ++ rewrite lookup_insert_eq. eexists. reflexivity.
           ++ rewrite lookup_insert_ne by exact Hne'. exact Hk.
        -- intros rn sn [-> | Hin]%elem_of_cons Hsn.
           ++ rewrite Hlook in Hsn. injection Hsn as <-. apply Hmono.
              rewrite lookup_insert_eq. eexists. reflexivity.
           ++ eapply Hnamed; eassumption.
    + destruct (IH index Hkeys HPrest Hindex) as (index' & -> & Hk' & HP' & Hmono & Hnamed).
      exists index'. split; [reflexivity|]. split; [exact Hk'|]. split; [exact HP'|].
      split; [exact Hmono|].
      intros rn sn [-> | Hin]%elem_of_cons Hsn; [congruence | eapply Hnamed; eassumption].
Qed.
Lemma features_loop_spec (P : string -> Geometry -> Prop) features : forall index,
  keyed_by_short_names index ->
  (forall feature s geom short_name,
     feature ∈ features -> contributes feature s geom -> lists_route s short_name ->
     P short_name geom /\ forall known, P short_name known -> P short_name (union known geom)) ->
  (forall k g, index !! k = Some (Some g) -> P k g) ->
  features_loop features index <> ImportFailed KeyError /\
  forall index', features_loop features index = Imported index' ->
    keyed_by_short_names index' /\
    (forall k g, index' !! k = Some (Some g) -> P k g) /\
    (forall k, is_Some (index !! k ≫= id) -> is_Some (index' !! k ≫= id)) /\
    (forall feature s geom short_name,
       feature ∈ features -> contributes feature s geom -> lists_route s short_name ->
       is_Some (index' !! short_name ≫= id)).
Proof.
  induction features as [|feature rest IH]; intros index Hkeys HP Hindex.
  - split; [discriminate|]. intros index' [= <-].
    split; [exact Hkeys|]. split; [exact Hindex|]. split; [auto|].
    intros ? ? ? ? Hin. inversion Hin.
  - assert (HPrest : forall feature0 s geom short_name,
        feature0 ∈ rest -> contributes feature0 s geom -> lists_route s short_name ->
        P short_name geom /\ forall known, P short_name known -> P short_name (union known geom)).
    { intros f s g sn Hin. apply HP. right. exact Hin. }
    (* the feature is skipped: the index goes on unchanged *)
    assert (Hskip : (forall s geom, ~ contributes feature s geom) ->
      features_loop rest index <> ImportFailed KeyError /\
      forall index', features_loop rest index = Imported index' ->
        keyed_by_short_names index' /\
        (forall k g, index' !! k = Some (Some g) -> P k g) /\
        (forall k, is_Some (index !! k ≫= id) -> is_Some (index' !! k ≫= id)) /\
        (forall feature0 s geom short_name,
           feature0 ∈ feature :: rest -> contributes feature0 s geom ->
           lists_route s short_name -> is_Some (index' !! short_name ≫= id))).
    { intros Hnot. destruct (IH index Hkeys HPrest Hindex) as [Hkey Hrest].
      split; [exact Hkey|]. intros index' Hrun.
      destruct (Hrest index' Hrun) as (Hk' & HP' & Hmono & Hnamed).
      split; [exact Hk'|]. split; [exact HP'|]. split; [exact Hmono|].
      intros f s g sn [-> | Hin]%elem_of_cons Hc Hl; [|eapply Hnamed; eassumption].
      exfalso. eapply Hnot, Hc. }
    cbn [features_loop].
    destruct (py_get feature "properties" (JObj [])) as [props|e1] eqn:Hprops;
      cbn [of_result mbind imported_bind]; [|split; [discriminate | intros ? [=]]].
    destruct (py_get props "lines" (JStr "")) as [lines|e2] eqn:Hlines;
      cbn [of_result mbind imported_bind]; [|split; [discriminate | intros ? [=]]].
    destruct (py_get feature "geometry" JNull) as [geometry|e3] eqn:Hgeometry;
      cbn [of_result mbind imported_bind]; [|split; [discriminate | intros ? [=]]].
    destruct (shape geometry) as [geom|e4] eqn:Hshape;
      cbn [of_result mbind imported_bind]; [|split; [discriminate | intros ? [=]]].
    destruct (truthy lines && geom_truthy geom) eqn:Hguard.
    + apply andb_true_iff in Hguard as [Hlines_truthy Hgeom].
      destruct (str_text lines) as [s|] eqn:Hstr;
        [|cbn [mbind imported_bind]; split; [discriminate | intros ? [=]]].
      assert (Hs : s <> "").
      { intros ->. destruct lines; try discriminate Hstr;
          injection Hstr as ->; discriminate Hlines_truthy. }
      assert (Hc : contributes feature s geom).
      { exists props, geometry, lines. repeat split; assumption. }
      destruct (names_loop_spec P (split_comma s) geom index Hkeys) as
        (index1 & -> & Hk1 & HP1 & Hmono1 & Hnamed1).
      { intros sn Hsn. apply (HP feature s geom sn); [left | exact Hc | exact Hsn]. }
      { exact Hindex. }
      destruct (IH index1 Hk1 HPrest HP1) as [Hkey Hrest].
      split; [exact Hkey|]. intros index' Hrun.
      destruct (Hrest index' Hrun) as (Hk' & HP' & Hmono & Hnamed).
      split; [exact Hk'|]. split; [exact HP'|].
      split; [intros k Hk; apply Hmono, Hmono1, Hk|].
      intros f s0 g0 sn [-> | Hin]%elem_of_cons Hc0 Hl; [|eapply Hnamed; eassumption].
      destruct Hc0 as (props0 & geometry0 & lines0 & Hp0 & Hl0 & Hstr0 & _).
      rewrite Hprops in Hp0. injection Hp0 as <-.
      rewrite Hlines in Hl0. injection Hl0 as <-.
      rewrite Hstr in Hstr0. injection Hstr0 as <-.
      destruct Hl as (rn & Hrn & Hlook). apply Hmono. eapply Hnamed1; eassumption.
    + apply Hskip.
      intros s geom0 (props0 & geometry0 & lines0 & Hp0 & Hl0 & Hstr0 & Hs & Hg0 & Hsh0 & Ht0).
      rewrite Hprops in Hp0. injection Hp0 as <-.
      rewrite Hlines in Hl0. injection Hl0 as <-.
      rewrite Hgeometry in Hg0. injection Hg0 as <-.
      rewrite Hshape in Hsh0. injection Hsh0 as <-.
      rewrite Ht0, andb_true_r in Hguard.
      destruct lines; try discriminate Hstr0; injection Hstr0 as ->;
        (destruct s; [contradiction | discriminate]).
Qed.

Lemma build_features geojson_data index :
  build_route_geometries geojson_data = Imported index ->
  exists features, features_of geojson_data = Ok features /\
                   features_loop features no_geometries = Imported index.
Proof.
  unfold build_route_geometries, features_of.
  destruct (py_get geojson_data "features" (JArr []) ≫= _) as [features|e]; [|discriminate].
  intros Hloop. exists features. split; [reflexivity | exact Hloop].
Qed.

Lemma no_geometries_none k g : no_geometries !! k = Some (Some g) -> False.
Proof. rewrite no_geometries_lookup. destruct (decide _); discriminate. Qed.

(** X17: the index the import builds has exactly the eight short route names
    as keys, whatever the dataset: the subscript [route_geometries[short_name]]
    never meets a missing key, so the import never stops on a KeyError, and
    every route code the poller uses finds its entry once it is lower-cased. *)
Theorem build_route_geometries_keys (geojson_data : json) :
  build_route_geometries geojson_data <> ImportFailed KeyError /\
  forall index, build_route_geometries geojson_data = Imported index ->
    (forall k, is_Some (index !! k) <-> k ∈ map snd NAME_MAP) /\
    (forall rt_code table, (rt_code, table) ∈ ROUTES -> is_Some (index !! lower rt_code)).
Proof.
  assert (Hloop : forall features,
    features_loop features no_geometries <> ImportFailed KeyError /\
    forall index, features_loop features no_geometries = Imported index ->
      keyed_by_short_names index).
  { intros features.
    destruct (features_loop_spec (fun _ _ => True) features no_geometries
                no_geometries_keyed) as [Hkey Hrest]; [split; auto | auto|].
    split; [exact Hkey|]. intros index Hrun. apply (Hrest index Hrun). }
  split.
  - unfold build_route_geometries.
    destruct (py_get geojson_data "features" (JArr []) ≫= _) as [features|e];
      [apply Hloop | discriminate].
  - intros index Hbuild. apply build_features in Hbuild as (features & _ & Hrun).
    apply Hloop in Hrun. split; [exact Hrun|].
    intros rt_code table Hin. apply Hrun.
    assert (Hall : Forall (fun route => lower (fst route) ∈ map snd NAME_MAP) ROUTES).
    { apply (bool_decide_unpack _). vm_compute. exact I. }
    rewrite Forall_forall in Hall. apply (Hall _ Hin).
Qed.

(** X18: when the union of two non-empty geometries is non-empty, every
    geometry in the index is non-empty: the import lets only non-empty
    geometries in, so the emptiness test of the snapper tells routes without
    a geometry from the others and nothing else. *)
Theorem build_route_geometries_non_empty
    (geojson_data : json) (index : gmap string (option Geometry))
    (short_name : string) (g : Geometry) :
  (forall a b, geom_truthy a = true -> geom_truthy b = true ->
     geom_truthy (union a b) = true) ->
  build_route_geometries geojson_data = Imported index ->
  index !! short_name = Some (Some g) ->
  geom_truthy g = true.
Proof.
  intros Hunion Hbuild Hg. apply build_features in Hbuild as (features & _ & Hrun).
  destruct (features_loop_spec (fun _ g => geom_truthy g = true) features no_geometries
              no_geometries_keyed) as [_ Hrest].
  - intros feature s geom sn _ (props & geometry & lines & _ & _ & _ & _ & _ & _ & Hgeom) _.
    split; [exact Hgeom|]. intros known Hknown. apply Hunion; assumption.
  - intros k g0 Hk. exfalso. eapply no_geometries_none, Hk.
  - destruct (Hrest index Hrun) as (_ & HP & _). eapply HP, Hg.
Qed.

(** X19: a route has a geometry in the index exactly when some feature of
    the dataset with route names and a non-empty geometry lists, among its
    comma-separated and stripped names, a name that [NAME_MAP] maps to the
    route; features without names, with an empty geometry or with unknown
    names only leave every route as it is. *)
Theorem build_route_geometries_named_routes
    (geojson_data : json) (index : gmap string (option Geometry)) (short_name : string) :
  build_route_geometries geojson_data = Imported index ->
  exists features, features_of geojson_data = Ok features /\
    ((exists g, index !! short_name = Some (Some g)) <->
     (exists feature s geom, feature ∈ features /\ contributes feature s geom /\
                             lists_route s short_name)).
Proof.
  intros Hbuild. apply build_features in Hbuild as (features & Hfeatures & Hrun).
  exists features. split; [exact Hfeatures|].
  destruct (features_loop_spec
              (fun sn _ => exists feature s geom, feature ∈ features /\
                             contributes feature s geom /\ lists_route s sn)
              features no_geometries no_geometries_keyed) as [_ Hrest].
  - intros feature s geom sn Hin Hc Hl.
    split; [exists feature, s, geom; repeat split; assumption | auto].
  - intros k g0 Hk. exfalso. eapply no_geometries_none, Hk.
  - destruct (Hrest index Hrun) as (_ & HP & _ & Hnamed). split.
    + intros (g & Hg). eapply HP, Hg.
    + intros (feature & s & geom & Hin & Hc & Hl).
      destruct (Hnamed feature s geom short_name Hin Hc Hl) as (g & Hg).
      exists g. destruct (index !! short_name) as [[g'|]|]; simpl in Hg; congruence.
Qed.

(** X20: a route that no contributing feature of the dataset names is never
    snapped: with the index built from the dataset, [filter_and_snap] returns
    the coordinate it is given, for every coordinate. *)
Theorem unnamed_route_is_not_snapped
    (geojson_data : json) (index : gmap string (option Geometry))
    (features : list json) (route_code : string) (lat lon : float) :
  build_route_geometries geojson_data = Imported index ->
  features_of geojson_data = Ok features ->
  (forall feature s geom, feature ∈ features -> contributes feature s geom ->
     ~ lists_route s (lower route_code)) ->
  @filter_and_snap _ {| route_geometries := index |} route_code lat lon = Ok (lat, lon).
Proof.
  intros Hbuild Hfeatures Hunnamed.
  apply build_features in Hbuild as (features' & Hfeatures' & Hrun).
  rewrite Hfeatures in Hfeatures'. injection Hfeatures' as <-.
  destruct (features_loop_spec
              (fun sn _ => exists feature s geom, feature ∈ features /\
                             contributes feature s geom /\ lists_route s sn)
              features no_geometries no_geometries_keyed) as [_ Hrest].
  - intros feature s geom sn Hin Hc Hl.
    split; [exists feature, s, geom; repeat split; assumption | auto].
  - intros k g0 Hk. exfalso. eapply no_geometries_none, Hk.
  - destruct (Hrest index Hrun) as (_ & HP & _).
    unfold filter_and_snap, lookup_geometry. cbn [route_geometries].
    destruct (index !! lower route_code) as [[g|]|] eqn:Hg; try reflexivity.
    exfalso. destruct (HP _ _ Hg) as (feature & s & geom & Hin & Hc & Hl).
    eapply Hunnamed; eassumption.
Qed.
End ImportProperties.

(** * The pipeline on the reference instance *)

Section Examples.
Import Reference.
#[local] Existing Instance tracks.
#[local] Existing Instance index.
#[local] Existing Instance builtins.
#[local] Existing Instance sqlite.
#[local] Existing Instance config.
#[local] Existing Instance outside.
#[local] Existing Instance import_tracks.

(** One cycle on a fresh store: the Red request times out, the seven other
    routes answer, and Blue's train is stored at noon, on its track. *)
Example poll_cycle_on_fresh_store :
  let w0 := snd (ensure_db empty_world) in
  let w1 := snd (poll_cycle w0) in
  fst (poll_cycle w0) = Ok tt /\
  gets (trace w1) = map fst ROUTES /\
  db w1 !! "red" = Some [] /\
  db w1 !! "blue" = Some [row_101_blue].
Proof. vm_compute. repeat split; reflexivity. Qed.

(** The same cycle on a store without tables stops at Blue's insert. *)
Example poll_cycle_without_tables :
  fst (poll_cycle empty_world) = Raise SqliteError /\
  gets (trace (snd (poll_cycle empty_world))) = ["Red"; "Blue"].
Proof. vm_compute. split; reflexivity. Qed.

(** A store whose red table holds a row twice: the unique index cannot be
    created, [main] stops before its first cycle and no other table is
    made. *)
Example main_on_doubled_table :
  fst (ensure_db doubled_world) = Raise SqliteError /\
  db (snd (ensure_db doubled_world)) = db doubled_world /\
  fst (main 1 doubled_world) = Raise SqliteError /\
  gets (trace (snd (main 1 doubled_world))) = [].
Proof. vm_compute. repeat split; reflexivity. Qed.

(** With a negative polling interval the first cycle runs, and its pause
    ends the run. *)
Example main_with_negative_interval :
  fst (@main builtins tracks index outside config_negative sqlite 2 empty_world) =
    Raise ValueError /\
  gets (trace (snd (@main builtins tracks index outside config_negative sqlite 2 empty_world))) =
    map fst ROUTES.
Proof. vm_compute. split; reflexivity. Qed.

(** What is not a number: a latitude ["nan"] is truthy and reaches the
    snapper, which finds no Red track nearer than infinity, and cannot
    project onto the Blue one. *)
Example nan_latitude_escapes :
  py_float (JStr "nan") = Ok NaN /\
  float_truthy (Some NaN) = true /\
  filter_and_snap "Red" NaN (Finite (-1753 # 20)) = Raise AttributeError /\
  filter_and_snap "Blue" NaN (Finite (-1753 # 20)) = Raise GEOSException /\
  fst (@fetch_route_positions builtins tracks index
         (answering (Some (feed [entry (JStr "7") (JStr "nan") (JStr "-87.65") (JStr "90")])))
         config "Red" empty_world) = Raise AttributeError.
Proof. vm_compute. repeat split; reflexivity. Qed.

(** The white space that [strip] removes is Unicode's. *)
Example strip_unicode_spaces :
  strip (NBSP +:+ "Red ") = "Red" /\
  name_lookup (strip (NBSP +:+ "Red")) NAME_MAP = Some "red".
Proof. vm_compute. split; reflexivity. Qed.

(** The lower case of the Kelvin sign is the letter k. *)
Example lower_kelvin_sign :
  lower ("PIN" +:+ KELVIN) = "pink" /\ lower "Application/JSON" = "application/json".
Proof. vm_compute. split; reflexivity. Qed.

(** Brn is listed in the index without a geometry. *)
Lemma filter_and_snap_no_geometry_witness :
  (forall g, lookup_geometry "Brn" = Some g -> geom_truthy g = false) /\
  filter_and_snap "Brn" (Finite (419 # 10)) (Finite (-8765 # 100)) =
    Ok (Finite (419 # 10), Finite (-8765 # 100)).
Proof.
  assert (Hnone : forall g, lookup_geometry "Brn" = Some g -> geom_truthy g = false).
  { intros g Hg. vm_compute in Hg. discriminate Hg. }
  split; [exact Hnone | apply filter_and_snap_no_geometry, Hnone].
Defined.

(** A point 0.0001 degrees north of the first red track. *)
Lemma filter_and_snap_within_tolerance_witness :
  lookup_geometry "Red" = Some (MultiLineString red_tracks) /\
  float_le (distance (mkPoint (Finite (-8765 # 100)) (Finite (410001 # 10000))) (track (41 # 1)))
           (Finite (3 # 10000)) /\
  filter_and_snap "Red" (Finite (410001 # 10000)) (Finite (-8765 # 100)) =
    Ok (Finite (410001 # 10000), Finite (-8765 # 100)).
Proof.
  assert (Hg : lookup_geometry "Red" = Some (MultiLineString red_tracks))
    by (vm_compute; reflexivity).
  assert (Hnear : float_le (distance (mkPoint (Finite (-8765 # 100)) (Finite (410001 # 10000)))
                              (track (41 # 1))) (Finite (3 # 10000)))
    by (vm_compute; reflexivity).
  split; [exact Hg|]. split; [exact Hnear|].
  apply (filter_and_snap_within_tolerance "Red" _ _ _ Hg).
  exists (track (41 # 1)). split; [left | exact Hnear].
Defined.



(** A Blue train half a degree north of the blue track is returned on it. *)
Lemma fetch_snaps_present_coordinates_witness :
  let t := entry (JStr "101") (JStr "40.5") (JStr "-87.65") (JStr "90") in
  fst (fetch_route_positions "Blue" empty_world) = Ok [run_101_blue] /\
  filter_and_snap "Blue" (Finite (81 # 2)) (Finite (-1753 # 20)) =
    Ok (Finite (40 # 1), Finite (-1753 # 20)) /\
  exists rec, rec ∈ [run_101_blue] /\ entry_record "Blue" t = Some rec /\
    p_rn rec = JStr "101" /\ p_heading rec = Some 90%Z /\
    p_lat rec = Some (Finite (40 # 1)) /\ p_lon rec = Some (Finite (-1753 # 20)).
Proof.
  intros t.
  assert (Hfetch : fst (fetch_route_positions "Blue" empty_world) = Ok [run_101_blue])
    by (vm_compute; reflexivity).
  assert (Hsnap : filter_and_snap "Blue" (Finite (81 # 2)) (Finite (-1753 # 20)) =
                  Ok (Finite (40 # 1), Finite (-1753 # 20))) by (vm_compute; reflexivity).
  split; [exact Hfetch|]. split; [exact Hsnap|].
  destruct (fetch_snaps_present_coordinates "Blue" empty_world (feed [t])
              [JObj [("train", JArr [t])]] [[t]] [run_101_blue]
              [("rn", JStr "101"); ("nextStaNm", JStr "Howard"); ("lat", JStr "40.5");
               ("lon", JStr "-87.65"); ("heading", JStr "90"); ("isApp", JStr "1");
               ("isDly", JStr "0")]
              (Some (Finite (81 # 2))) (Some (Finite (-1753 # 20))) (Some 90%Z))
    as (_ & Hboth & _).
  - reflexivity.
  - split; [reflexivity|]. split; [vm_compute; reflexivity|].
    eexists _, _, _, _. repeat split; reflexivity.
  - constructor; [|constructor]. eexists. split; reflexivity.
  - exact Hfetch.
  - left.
  - vm_compute. reflexivity.
  - vm_compute. reflexivity.
  - vm_compute. reflexivity.
  - reflexivity.
  - reflexivity.
  - apply (Hboth _ _ _ _ eq_refl eq_refl eq_refl eq_refl Hsnap).
Defined.

(** Where C1 fails as stated.  A Red train reported at latitude "0.0" has
    both coordinates present, and the snapper would move it onto the first
    red track, but its record is returned with the coordinate as reported.
    A train that reports a longitude and no latitude is returned with that
    longitude, not with a null. *)
Lemma zero_latitude_is_not_snapped :
  let t := entry (JStr "7") (JStr "0.0") (JStr "-87.65") (JStr "90") in
  let u := entry (JStr "8") JNull (JStr "-87.65") (JStr "90") in
  let o := answering (Some (feed [t; u])) in
  convert_if_present py_float t "lat" = Ok (Some (Finite 0)) /\
  convert_if_present py_float t "lon" = Ok (Some (Finite (-1753 # 20))) /\
  filter_and_snap "Red" (Finite 0) (Finite (-1753 # 20)) =
    Ok (Finite (41 # 1), Finite (-1753 # 20)) /\
  exists rec_t rec_u,
    fst (@fetch_route_positions builtins tracks index o config "Red" empty_world) =
      Ok [rec_t; rec_u] /\
    (p_lat rec_t = Some (Finite 0) /\ p_lon rec_t = Some (Finite (-1753 # 20)) /\
     p_lat rec_t <> Some (Finite (41 # 1))) /\
    (p_lat rec_u = None /\ p_lon rec_u = Some (Finite (-1753 # 20)) /\ p_lon rec_u <> None).
Proof.
  intros t u o.
  split; [vm_compute; reflexivity|]. split; [vm_compute; reflexivity|].
  split; [vm_compute; reflexivity|].
  eexists _, _. split; [vm_compute; reflexivity|]. simpl.
  split; (split; [reflexivity|]; split; [reflexivity | discriminate]).
Qed.



(** The feed answers with error 101. *)
Lemma fetch_error_code_returns_empty_witness :
  @fetch_route_positions builtins tracks index (answering (Some feed_error)) config
    "Red" empty_world =
  (Ok [], add_events [EvPrint (MsgCtaError "Red" (JStr "101") (JStr "Invalid API key"))]
            (after_get "Red" empty_world)).
Proof.
  destruct (@fetch_error_code_returns_empty builtins tracks index
              (answering (Some feed_error)) config "Red" empty_world feed_error
              (JObj [("ctatt", JObj [("errCd", JStr "101"); ("errNm", JStr "Invalid API key")])])
              (JObj [("errCd", JStr "101"); ("errNm", JStr "Invalid API key")])
              (JStr "101"))
    as (errNm & Hname & ->); try reflexivity; try discriminate.
  injection Hname as <-. reflexivity.
Defined.

(** Where C8 fails as stated.  An error code that is a string with a lone
    surrogate, as the JSON text ["\ud800"] decodes to, is neither null nor
    "0"; printing the error raises UnicodeEncodeError, and the fetcher
    raises instead of returning an empty list. *)
Lemma unprintable_error_code_raises :
  let r := feed_reporting (JLone SURROGATE) (JStr "Invalid API key") in
  JLone SURROGATE <> JNull /\ JLone SURROGATE <> JStr "0" /\
  no_error_code (JLone SURROGATE) = false /\
  fst (@fetch_route_positions builtins tracks index (answering (Some r)) config
         "Red" empty_world) = Raise UnicodeEncodeError /\
  fst (@route_step builtins tracks index (answering (Some r)) config sqlite
         noon "Red" "red" 0 red_world) = Raise UnicodeEncodeError.
Proof.
  intros r. split; [discriminate|]. split; [discriminate|].
  vm_compute. repeat split; reflexivity.
Qed.

(** The Red request times out; the loop goes on with Blue, whose train is
    in the blue table when the loop ends. *)
Lemma request_failure_does_not_abort_cycle_witness :
  let w0 := snd (ensure_db empty_world) in
  fst (fetch_route_positions "Red" w0) = Raise RequestException /\
  fst (route_step noon "Red" "red" 0 w0) = Ok 0%nat /\
  exists stored,
    db (snd (routes_loop noon ROUTES 0 w0)) !! "blue" = Some stored /\
    ts_utc row_101_blue = noon /\ holds_row stored row_101_blue.
Proof.
  intros w0.
  assert (Hfail : fst (fetch_route_positions "Red" w0) = Raise RequestException)
    by (vm_compute; reflexivity).
  split; [exact Hfail|].
  destruct (request_failure_does_not_abort_cycle noon "Red" "red" (tail ROUTES) 0 w0 Hfail)
    as (Hstep & _ & _ & _ & Hlater).
  split; [rewrite Hstep; reflexivity|].
  destruct (Hlater [] "Blue" "blue" (tail (tail ROUTES)) 0%nat
              (add_events [EvPrint (MsgRequestFailed "Red")]
                 (snd (fetch_route_positions "Red" w0)))
              [run_101_blue] [row_101_blue])
    as (_ & stored & Hstored & Hrows).
  - reflexivity.
  - reflexivity.
  - vm_compute. reflexivity.
  - exists []. vm_compute. reflexivity.
  - vm_compute. reflexivity.
  - exists stored. split; [exact Hstored|]. apply Hrows. left.
Defined.

Lemma red_world_unique : db_unique (db red_world).
Proof.
  intros table rows Hrows. simpl in Hrows.
  apply lookup_singleton_Some in Hrows as [_ <-].
  intros i j r1 r2 k Hi. rewrite lookup_nil in Hi. discriminate Hi.
Defined.

(** Run 101 inserted twice at noon. *)
Lemma insert_snapshot_one_row_per_run_witness :
  let w1 := snd (insert_snapshot "red" noon [run_101] red_world) in
  let w2 := snd (insert_snapshot "red" noon [run_101] w1) in
  db_unique (db red_world) /\
  (exists stored, db w2 !! "red" = Some stored /\ count_key noon "101" stored = 1%nat) /\
  db_unique (db w2).
Proof.
  intros w1 w2.
  destruct (insert_snapshot_one_row_per_run "red" noon [run_101] run_101 "101" red_world 0)
    as (_ & Htwice & Huniq & _).
  - exact red_world_unique.
  - exists []. reflexivity.
  - reflexivity.
  - left.
  - reflexivity.
  - split; [exact red_world_unique|]. split; [exact Htwice | exact Huniq].
Defined.

(** Where C2 fails as stated.  A record without a run number, inserted twice
    under the same timestamp, is stored twice: the unique index does not
    compare NULLs. *)
Lemma null_run_is_stored_twice :
  let w1 := snd (insert_snapshot "red" noon [no_run] red_world) in
  let w2 := snd (insert_snapshot "red" noon [no_run] w1) in
  exists stored,
    db w2 !! "red" = Some [stored; stored] /\
    ts_utc stored = noon /\ c_rn stored = None.
Proof.
  intros w1 w2. eexists. split; [vm_compute; reflexivity|].
  split; reflexivity.
Qed.

(** Halfway between the two red tracks, the first one is used. *)
Lemma filter_and_snap_first_of_equals_witness :
  distance (mkPoint (Finite (-8765 # 100)) (Finite (415 # 10))) (track (41 # 1)) =
  distance (mkPoint (Finite (-8765 # 100)) (Finite (415 # 10))) (track (42 # 1)) /\
  filter_and_snap "Red" (Finite (415 # 10)) (Finite (-8765 # 100)) =
    Ok (Finite (41 # 1), Finite (-8765 # 100)).
Proof.
  split; [vm_compute; reflexivity|].
  rewrite (filter_and_snap_first_of_equals "Red" (Finite (415 # 10)) (Finite (-8765 # 100))
             [] [track (42 # 1)] (track (41 # 1))).
  - vm_compute. reflexivity.
  - vm_compute. reflexivity.
  - reflexivity.
  - intros l Hl. inversion Hl.
  - intros l Hl. apply list_elem_of_singleton in Hl as ->. vm_compute. discriminate.
  - vm_compute. reflexivity.
  - vm_compute. reflexivity.
Defined.

Lemma tracks_interpolate_on_line (line : LineString) (d : float) (nearest_point : Point) :
  interpolate line d = Some nearest_point ->
  float_le (distance nearest_point line) (Finite (3 # 10000)).
Proof.
  intros Hq.
  assert (Hy : y nearest_point = Finite line).
  { cbn in Hq. destruct d; try discriminate Hq; injection Hq as <-; reflexivity. }
  change (float_le (match y nearest_point with
                    | Finite v => if Qle_bool FAR (Qabs (v - line)) then PosInf
                                  else Finite (Qabs (v - line))
                    | NaN => NaN
                    | _ => PosInf
                    end) (Finite (3 # 10000))).
  rewrite Hy.
  assert (Hzero : (Qabs (line - line) == 0)%Q).
  { assert (Hdiff : (line - line == 0)%Q) by apply Qplus_opp_r.
    rewrite Hdiff. reflexivity. }
  assert (Hnear : Qle_bool FAR (Qabs (line - line)) = false).
  { apply Qle_bool_false. rewrite Hzero. reflexivity. }
  rewrite Hnear. unfold float_le, float_leb.
  apply Qle_bool_iff. rewrite Hzero. discriminate.
Defined.

(** A point north of the first red track is moved onto it and stays there. *)
Lemma filter_and_snap_idempotent_witness :
  filter_and_snap "Red" (Finite (414 # 10)) (Finite (-8765 # 100)) =
    Ok (Finite (41 # 1), Finite (-8765 # 100)) /\
  filter_and_snap "Red" (Finite (41 # 1)) (Finite (-8765 # 100)) =
    Ok (Finite (41 # 1), Finite (-8765 # 100)).
Proof.
  assert (Hsnap : filter_and_snap "Red" (Finite (414 # 10)) (Finite (-8765 # 100)) =
                  Ok (Finite (41 # 1), Finite (-8765 # 100)))
    by (vm_compute; reflexivity).
  split; [exact Hsnap|].
  apply (filter_and_snap_idempotent "Red" (Finite (414 # 10)) (Finite (-8765 # 100)));
    [|exact Hsnap].
  intros g line d nearest_point _ _. apply tracks_interpolate_on_line.
Defined.


(** The body [{}]. *)
Lemma fetch_missing_keys_empty_witness :
  @fetch_route_positions builtins tracks index (answering (Some empty_object)) config
    "Red" empty_world = (Ok [], after_get "Red" empty_world).
Proof.
  apply (@fetch_missing_keys_empty builtins tracks index
           (answering (Some empty_object)) config "Red" empty_world empty_object
           (JObj []) []); reflexivity.
Defined.

(** Three entries, the second with a latitude that is not a number. *)
Lemma fetch_returns_records_in_feed_order_witness :
  let first := entry (JStr "101") (JStr "40.5") (JStr "-87.65") (JStr "90") in
  let second := entry (JStr "102") (JStr "north") (JStr "-87.65") (JStr "90") in
  let third := entry (JStr "103") JNull (JStr "-87.70") (JStr "270") in
  let o := answering (Some (feed [first; second; third])) in
  exists rec1 rec3,
    fst (@fetch_route_positions builtins tracks index o config "Blue" empty_world) =
      Ok [rec1; rec3] /\
    p_rn rec1 = JStr "101" /\ p_rn rec3 = JStr "103" /\ p_lat rec3 = None.
Proof.
  intros first second third o.
  eexists _, _.
  destruct (@fetch_returns_records_in_feed_order builtins tracks index o config
              "Blue" empty_world (feed [first; second; third])
              [JObj [("train", JArr [first; second; third])]] [[first; second; third]])
    as [Hall _].
  - reflexivity.
  - split; [reflexivity|]. split; [vm_compute; reflexivity|].
    eexists _, _, _, _. repeat split; reflexivity.
  - constructor; [|constructor]. eexists. split; reflexivity.
  - rewrite Hall.
    + vm_compute. repeat split; reflexivity.
    + repeat constructor; intros e He; vm_compute in He; try discriminate He;
        injection He as <-; reflexivity.
Defined.

(** A heading that does not fit 64 bits, after a good record: the insert
    raises OverflowError and nothing is stored. *)
Lemma insert_snapshot_failure_stores_nothing_witness :
  fst (insert_snapshot "red" noon [run_101; heading_overflow] red_world) =
    Raise OverflowError /\
  db (snd (insert_snapshot "red" noon [run_101; heading_overflow] red_world)) = db red_world /\
  fst (insert_snapshot "red" noon [run_101; unbindable] red_world) = Raise SqliteError.
Proof.
  assert (Hfail : fst (insert_snapshot "red" noon [run_101; heading_overflow] red_world) =
                  Raise OverflowError) by reflexivity.
  split; [exact Hfail|].
  split; [|reflexivity].
  apply (insert_snapshot_failure_stores_nothing "red" noon [run_101; heading_overflow]
           red_world OverflowError Hfail).
Defined.

(** Run 101 is stored at noon; a second report for the same instant leaves
    the row as it is. *)
Lemma insert_snapshot_never_overwrites_witness :
  let w1 := snd (insert_snapshot "red" noon [run_101] red_world) in
  db w1 !! "red" = Some [row_101] /\
  exists stored,
    db (snd (insert_snapshot "red" noon [run_101_moved] w1)) !! "red" = Some stored /\
    row_101 ∈ stored /\
    forall r, r ∈ stored -> ts_utc r = noon -> c_rn r = Some "101" -> r = row_101.
Proof.
  intros w1.
  assert (Hw1 : db w1 !! "red" = Some [row_101]) by (vm_compute; reflexivity).
  split; [exact Hw1|].
  apply (insert_snapshot_never_overwrites "red" noon [run_101_moved] w1 [row_101] row_101 "101").
  - exact Hw1.
  - intros i j r1 r2 k Hi Hj _ _ _.
    apply list_lookup_singleton_Some in Hi as [-> _].
    apply list_lookup_singleton_Some in Hj as [-> _]. reflexivity.
  - left.
  - reflexivity.
Defined.

(** Blue's only train comes as an object. *)
Lemma single_train_object_stops_the_cycle_witness :
  let train := entry (JStr "101") (JStr "40.5") (JStr "-87.65") (JStr "90") in
  let o := answering (Some (feed_single_train train)) in
  let w0 := snd (ensure_db empty_world) in
  fst (@fetch_route_positions builtins tracks index o config "Blue" w0) =
    Raise AttributeError /\
  fst (@routes_loop builtins tracks index o config sqlite noon
         [("Blue", "blue"); ("Brn", "brn")] 0 w0) = Raise AttributeError /\
  gets (trace (snd (@routes_loop builtins tracks index o config sqlite noon
                      [("Blue", "blue"); ("Brn", "brn")] 0 w0))) = ["Blue"].
Proof.
  intros train o w0.
  destruct (@single_train_object_stops_the_cycle builtins tracks index o config sqlite
              "Blue" w0 (feed_single_train train) (JObj [("train", train)]) []
              [("rn", JStr "101"); ("nextStaNm", JStr "Howard"); ("lat", JStr "40.5");
               ("lon", JStr "-87.65"); ("heading", JStr "90"); ("isApp", JStr "1");
               ("isDly", JStr "0")]
              noon "blue" 0 [("Brn", "brn")])
    as (Hfetch & _ & Hloop).
  - reflexivity.
  - split; [reflexivity|]. split; [vm_compute; reflexivity|].
    eexists _, _, _, _. repeat split; reflexivity.
  - reflexivity.
  - discriminate.
  - rewrite Hfetch, Hloop. repeat split; vm_compute; reflexivity.
Defined.

(** The feed is down for a whole cycle. *)
Lemma poll_cycle_survives_outage_witness :
  let w0 := snd (ensure_db empty_world) in
  let w1 := snd (@poll_cycle builtins tracks index (answering None) config sqlite w0) in
  fst (@poll_cycle builtins tracks index (answering None) config sqlite w0) = Ok tt /\
  db w1 = db w0 /\
  requests w1 = 8 /\
  gets (trace w1) = map fst ROUTES.
Proof.
  intros w0 w1. subst w1.
  assert (Hsign : (0 <= @POLL_SECONDS config)%Z) by (simpl; lia).
  rewrite (@poll_cycle_survives_outage builtins tracks index (answering None) config sqlite w0
             (fun _ _ => eq_refl) Hsign eq_refl).
  repeat split; reflexivity.
Defined.

Lemma dataset_builds : build_route_geometries dataset = Imported built_index.
Proof. vm_compute. reflexivity. Defined.

Lemma union_tracks_non_empty (a b : Geometry) :
  geom_truthy a = true -> geom_truthy b = true -> geom_truthy (union a b) = true.
Proof.
  intros Ha _. destruct a as [line | [|line geoms]]; [reflexivity | discriminate Ha | reflexivity].
Defined.

(** Red's geometry in the index built from the reference dataset: its
    second track comes from the feature that names it after a no-break
    space. *)
Lemma build_route_geometries_non_empty_witness :
  built_index !! "red" = Some (Some (MultiLineString red_tracks)) /\
  geom_truthy (MultiLineString red_tracks) = true.
Proof.
  assert (Hred : built_index !! "red" = Some (Some (MultiLineString red_tracks)))
    by (vm_compute; reflexivity).
  split; [exact Hred|].
  apply (build_route_geometries_non_empty dataset built_index "red" _
           union_tracks_non_empty dataset_builds Hred).
Defined.

(** Red is named by two features of the reference dataset, by the second
    after a no-break space. *)
Lemma build_route_geometries_named_routes_witness :
  lists_route ("Purple," +:+ NBSP +:+ "Red") "red" /\
  exists features, features_of dataset = Ok features /\
    ((exists g, built_index !! "red" = Some (Some g)) <->
     (exists feature s geom, feature ∈ features /\ contributes feature s geom /\
                             lists_route s "red")).
Proof.
  split.
  - exists (NBSP +:+ "Red"). split; [vm_compute; right; left | vm_compute; reflexivity].
  - apply (build_route_geometries_named_routes dataset built_index "red" dataset_builds).
Defined.

Lemma dataset_features :
  features_of dataset =
  Ok [feature (JStr "Red, Purple") (JObj [("parallel", JInt 41)]);
      feature (JStr "Blue") (JObj [("parallel", JInt 40)]);
      feature (JStr ("Purple," +:+ NBSP +:+ "Red")) (JObj [("parallel", JInt 42)]);
      feature (JStr "Silver") (JObj [("parallel", JInt 50)]);
      feature (JStr "") (JObj [("parallel", JInt 60)])].
Proof. reflexivity. Defined.

(** No feature of the reference dataset names the Brown line. *)
Lemma unnamed_route_is_not_snapped_witness :
  @filter_and_snap tracks {| route_geometries := built_index |} "Brn"
    (Finite (419 # 10)) (Finite (-8765 # 100)) =
  Ok (Finite (419 # 10), Finite (-8765 # 100)).
Proof.
  apply (unnamed_route_is_not_snapped dataset built_index _ "Brn" _ _
           dataset_builds dataset_features).
  intros f s geom Hin (props & geometry & lines & Hprops & Hlines & Hstr & _)
    (name & Hname & Hlook).
  repeat (apply elem_of_cons in Hin as [-> | Hin];
    [injection Hprops as <-; injection Hlines as <-; injection Hstr as <-;
     vm_compute in Hname;
     repeat (apply elem_of_cons in Hname as [-> | Hname]; [vm_compute in Hlook; discriminate Hlook|]);
     inversion Hname|]).
  inversion Hin.
Defined.

(** Run 101 was stored at noon before the run starts; it is still the first
    row of the red table after a cycle. *)
Lemma main_store_is_append_only_witness :
  let w := snd (insert_snapshot "red" noon [run_101] red_world) in
  db w !! "red" = Some [row_101] /\
  exists new, db (snd (main 1 w)) !! "red" = Some new /\ [row_101] `prefix_of` new.
Proof.
  intros w.
  assert (Hold : db w !! "red" = Some [row_101]) by (vm_compute; reflexivity).
  split; [exact Hold|].
  apply (main_store_is_append_only 1 w "red" [row_101] Hold).
Defined.

Lemma red_world_indexable : routes_indexable (db red_world).
Proof. intros table rows _ Hrows. eapply red_world_unique, Hrows. Defined.

(** A store that has the red table only, before a run of one cycle. *)
Lemma main_leaves_route_tables_witness :
  routes_indexable (db red_world) /\
  Forall (fun route => is_Some (db (snd (main 1 red_world)) !! snd route)) ROUTES.
Proof.
  split; [exact red_world_indexable|].
  apply (main_leaves_route_tables 1 red_world red_world_indexable).
Defined.

(** Blue's only train comes as an object: the first cycle ends the run,
    with an AttributeError. *)
Lemma main_never_stops_on_request_failure_witness :
  let train := entry (JStr "101") (JStr "40.5") (JStr "-87.65") (JStr "90") in
  let o := answering (Some (feed_single_train train)) in
  fst (@main builtins tracks index o config sqlite 3 empty_world) = Raise AttributeError /\
  AttributeError <> RequestException.
Proof.
  intros train o.
  assert (Hraise : fst (@main builtins tracks index o config sqlite 3 empty_world) =
                   Raise AttributeError) by (vm_compute; reflexivity).
  split; [exact Hraise|].
  apply (@main_never_stops_on_request_failure builtins tracks index o config sqlite
           3 empty_world AttributeError Hraise).
Defined.

(** Two cycles on a fresh store. *)
Lemma main_requests_every_route_every_cycle_witness :
  fst (main 2 empty_world) = Ok tt /\
  clock_reads (snd (main 2 empty_world)) = 2 /\
  requests (snd (main 2 empty_world)) = 16.
Proof.
  assert (Hok : fst (main 2 empty_world) = Ok tt) by (vm_compute; reflexivity).
  split; [exact Hok|].
  destruct (main_requests_every_route_every_cycle 2 empty_world Hok) as (Hclock & Hrequests & _).
  split; [exact Hclock | exact Hrequests].
Defined.
End Examples.
